(** * A distance-vector router: [dv_router.py]

    Shallow embedding of the class [DVRouter] and proofs about its route
    computation, advertisement, expiry and packet handlers.

    Conventions of the embedding.
    - The module is Python 2 code: it deletes from a dict inside a loop over
      that dict's [.keys()] / [.items()], which are list snapshots there.  A
      loop over [d.keys()] or [d.items()] therefore runs over the contents
      [d] had when the loop started.
    - A dict is an association list with one entry per key; the order of the
      list is the iteration order of the dict.  A new key is appended, an
      existing key is overwritten in place.
    - [self.send(pkt, port, flood=False)] appends [(pkt, port)] to the output
      of the handler.
    - An exception ends the handler and leaves the state as mutated so far.
    - Latencies and times are integers. *)

From Stdlib Require Import List ZArith String Bool Lia Permutation.
Import ListNotations.
Local Open Scope Z_scope.
Local Open Scope list_scope.

Set Implicit Arguments.

(** ** Keys with decidable equality *)

Class EqKey (K : Type) := {
  keq : K -> K -> bool;
  keq_spec : forall x y, reflect (x = y) (keq x y)
}.

#[export] Instance EqKey_Z : EqKey Z :=
  {| keq := Z.eqb; keq_spec := Z.eqb_spec |}.

#[export] Instance EqKey_string : EqKey string :=
  {| keq := String.eqb; keq_spec := String.eqb_spec |}.

Lemma pair_keq_spec {A B} `{EqKey A} `{EqKey B} (x y : A * B) :
  reflect (x = y) (keq (fst x) (fst y) && keq (snd x) (snd y)).
Proof.
  destruct x as [a b], y as [a' b']; simpl.
  destruct (keq_spec a a'); destruct (keq_spec b b'); simpl;
    constructor; congruence.
Qed.

#[export] Instance EqKey_pair {A B} `{EqKey A} `{EqKey B} : EqKey (A * B) :=
  {| keq := fun x y => keq (fst x) (fst y) && keq (snd x) (snd y);
     keq_spec := pair_keq_spec |}.

(** Python's [x in l] on a list. *)
Definition elem {K} `{EqKey K} (x : K) (l : list K) : bool :=
  existsb (keq x) l.

(** Python's [l.remove(x)]: drops the first occurrence. *)
Fixpoint remove_first {K} `{EqKey K} (x : K) (l : list K) : list K :=
  match l with
  | [] => []
  | y :: r => if keq x y then r else y :: remove_first x r
  end.

(** ** Dicts *)

Module Dict.
Section Defs.
Context {K V : Type} `{EqKey K}.

Definition t := list (K * V).

Definition keys (d : t) : list K := map fst d.
Definition items (d : t) : list (K * V) := d.

(** [d.get(k)] *)
Fixpoint get (k : K) (d : t) : option V :=
  match d with
  | [] => None
  | (k', v) :: r => if keq k k' then Some v else get k r
  end.

(** [k in d] *)
Definition has (k : K) (d : t) : bool :=
  match get k d with Some _ => true | None => false end.

(** [d[k] = v] *)
Fixpoint set (k : K) (v : V) (d : t) : t :=
  match d with
  | [] => [(k, v)]
  | (k', v') :: r =>
      if keq k k' then (k, v) :: r else (k', v') :: set k v r
  end.

(** [del d[k]]; [None] stands for [KeyError]. *)
Fixpoint del (k : K) (d : t) : option t :=
  match d with
  | [] => None
  | (k', v') :: r =>
      if keq k k' then Some r
      else match del k r with
           | Some r' => Some ((k', v') :: r')
           | None => None
           end
  end.

(** One entry per key. *)
Definition wf (d : t) : Prop := NoDup (keys d).
End Defs.
End Dict.

(** ** Control flow of loops and handlers

    A statement ends normally ([Next]), by [break], by [return] or by an
    exception; each outcome carries the state reached and the packets sent. *)

Inductive Exn := KeyError | AssertionError | AttributeError.

Section Control.
Context {P : Type}.

Inductive Ctl (S : Type) :=
| Next (s : S) (out : list P)
| Brk (s : S) (out : list P)
| Ret (s : S) (out : list P)
| Exc (e : Exn) (s : S) (out : list P).

Definition emit {S} (o : list P) (c : Ctl S) : Ctl S :=
  match c with
  | Next s o' => Next s (o ++ o')
  | Brk s o' => Brk s (o ++ o')
  | Ret s o' => Ret s (o ++ o')
  | Exc e s o' => Exc e s (o ++ o')
  end.

(** [a; b] *)
Definition seq {S} (a : Ctl S) (b : S -> Ctl S) : Ctl S :=
  match a with
  | Next s o => emit o (b s)
  | other => other
  end.

(** [for x in xs: body] *)
Fixpoint for_each {X S} (body : X -> S -> Ctl S) (xs : list X) (s : S)
  : Ctl S :=
  match xs with
  | [] => Next s []
  | x :: r =>
      match body x s with
      | Next s' o => emit o (for_each body r s')
      | Brk s' o => Next s' o
      | other => other
      end
  end.

(** A call turns the callee's [return] into normal completion. *)
Definition call {S} (c : Ctl S) : Ctl S :=
  match c with
  | Ret s o => Next s o
  | Brk s o => Next s o
  | other => other
  end.

(** Run [c] on a component of a larger state. *)
Definition lift {S T} (inj : S -> T) (c : Ctl S) : Ctl T :=
  match c with
  | Next s o => Next (inj s) o
  | Brk s o => Brk (inj s) o
  | Ret s o => Ret (inj s) o
  | Exc e s o => Exc e (inj s) o
  end.

Definition output {S} (c : Ctl S) : list P :=
  match c with
  | Next _ o | Brk _ o | Ret _ o | Exc _ _ o => o
  end.

Definition state_of {S} (c : Ctl S) : S :=
  match c with
  | Next s _ | Brk s _ | Ret s _ | Exc _ s _ => s
  end.
End Control.

Arguments Ctl : clear implicits.

(** ** Data model *)

Definition Host := string.
Definition Port := Z.

(** We define infinity as a distance of 16. *)
Definition INFINITY : Z := 16.

(** A route should time out after at least 15 seconds. *)
Definition ROUTE_TTL : Z := 15.

(** Modelled from the spec: [PeerTableEntry.FOREVER] is declared in
    [dv_utils], which is not part of the sources; it is the expiry of an
    entry that never expires, and no clock reading compares above it. *)
Inductive Expiry :=
| FOREVER
| At (t : Z).

Definition is_FOREVER (e : Expiry) : bool :=
  match e with FOREVER => true | At _ => false end.

(** [now > expire_time] *)
Definition past (now : Z) (e : Expiry) : bool :=
  match e with FOREVER => false | At t => t <? now end.

(** Modelled from the spec: the class [PeerTableEntry] of [dv_utils] is
    not part of the sources; it is one fact learned from one neighbour,
    built as [PeerTableEntry(dst, latency, expire_time)] and read by these
    three attributes. *)
Record PeerTableEntry := PTE {
  pte_dst : Host;
  pte_latency : Z;
  pte_expire_time : Expiry
}.

(** Modelled from the spec: the class [ForwardingTableEntry] of [dv_utils]
    is not part of the sources; it is the selected route, built as
    [ForwardingTableEntry(dst, port, latency)], read by these attributes
    and by position ([e[0]], [e[1]], [e[2]]), and true in a condition. *)
Record ForwardingTableEntry := FTE {
  fte_dst : Host;
  fte_port : Port;
  fte_latency : Z
}.

(** Modelled from the spec: [PeerTable] and [ForwardingTable] of [dv_utils]
    are the per-port mapping from destination to entry and the mapping from
    destination to selected route; the code uses them as dicts. *)
Definition PeerTable := @Dict.t Host PeerTableEntry.
Definition ForwardingTable := @Dict.t Host ForwardingTableEntry.
Definition History := @Dict.t (Port * Host) ForwardingTableEntry.

(** A packet that is not a route advertisement; the framework hands only
    these to [handle_data_packet]. *)
Record DataPacket := mkData {
  src : Host;
  dst : Host;
  payload : string
}.

(** Modelled from the spec: what [self.send] carries is a route
    advertisement [basics.RoutePacket(destination, latency)] or a data
    packet; the classes belong to the simulation framework. *)
Inductive Packet :=
| RoutePacket (destination : Host) (latency : Z)
| Data (p : DataPacket).

Definition Send := (Packet * Port)%type.

Definition Out := Ctl Send.

(** The attributes of a [DVRouter] instance.  [POISON_MODE] is a class
    attribute that the handlers only read. *)
Record Router := mkRouter {
  POISON_MODE : bool;
  link_latency : @Dict.t Port Z;
  peer_tables : @Dict.t Port PeerTable;
  forwarding_table : ForwardingTable;
  history : History;
  removedHosts : list (Host * Port);
  emptyFwdTableList : list (Port * Host);
  poisonedHosts : list (Host * Port);
  removedHostKeys : list Host;
  removedFromPoisonedHosts : list (Host * Port);
  trickledHosts : list (Host * Port)
}.

(** [__init__] *)
Definition init (poison : bool) : Router :=
  mkRouter poison [] [] [] [] [] [] [] [] [] [].

Definition with_link_latency (x : @Dict.t Port Z) (r : Router) : Router :=
  mkRouter (POISON_MODE r) x (peer_tables r) (forwarding_table r) (history r)
    (removedHosts r) (emptyFwdTableList r) (poisonedHosts r)
    (removedHostKeys r) (removedFromPoisonedHosts r) (trickledHosts r).

Definition with_peer_tables (x : @Dict.t Port PeerTable) (r : Router)
  : Router :=
  mkRouter (POISON_MODE r) (link_latency r) x (forwarding_table r) (history r)
    (removedHosts r) (emptyFwdTableList r) (poisonedHosts r)
    (removedHostKeys r) (removedFromPoisonedHosts r) (trickledHosts r).

Definition with_forwarding_table (x : ForwardingTable) (r : Router)
  : Router :=
  mkRouter (POISON_MODE r) (link_latency r) (peer_tables r) x (history r)
    (removedHosts r) (emptyFwdTableList r) (poisonedHosts r)
    (removedHostKeys r) (removedFromPoisonedHosts r) (trickledHosts r).

Definition with_history (x : History) (r : Router) : Router :=
  mkRouter (POISON_MODE r) (link_latency r) (peer_tables r)
    (forwarding_table r) x
    (removedHosts r) (emptyFwdTableList r) (poisonedHosts r)
    (removedHostKeys r) (removedFromPoisonedHosts r) (trickledHosts r).

Definition with_removedHosts (x : list (Host * Port)) (r : Router) : Router :=
  mkRouter (POISON_MODE r) (link_latency r) (peer_tables r)
    (forwarding_table r) (history r)
    x (emptyFwdTableList r) (poisonedHosts r)
    (removedHostKeys r) (removedFromPoisonedHosts r) (trickledHosts r).

Definition with_emptyFwdTableList (x : list (Port * Host)) (r : Router)
  : Router :=
  mkRouter (POISON_MODE r) (link_latency r) (peer_tables r)
    (forwarding_table r) (history r)
    (removedHosts r) x (poisonedHosts r)
    (removedHostKeys r) (removedFromPoisonedHosts r) (trickledHosts r).

Definition with_poisonedHosts (x : list (Host * Port)) (r : Router)
  : Router :=
  mkRouter (POISON_MODE r) (link_latency r) (peer_tables r)
    (forwarding_table r) (history r)
    (removedHosts r) (emptyFwdTableList r) x
    (removedHostKeys r) (removedFromPoisonedHosts r) (trickledHosts r).

Definition with_removedFromPoisonedHosts (x : list (Host * Port))
  (r : Router) : Router :=
  mkRouter (POISON_MODE r) (link_latency r) (peer_tables r)
    (forwarding_table r) (history r)
    (removedHosts r) (emptyFwdTableList r) (poisonedHosts r)
    (removedHostKeys r) x (trickledHosts r).

(** ** [update_forwarding_table] *)

(** Truth value of [self.peer_tables.get(port)]: [None] and the empty dict
    are false. *)
Definition truthy_table (o : option PeerTable) : bool :=
  match o with
  | None => false
  | Some [] => false
  | Some (_ :: _) => true
  end.

(** Body of the loop over [peer_table.items()]. *)
Definition merge_entry (links : @Dict.t Port Z)
  (peers : @Dict.t Port PeerTable) (port : Port)
  (hv : Host * PeerTableEntry) (fwd : ForwardingTable)
  : Out ForwardingTable :=
  let (host, value) := hv in
  let key := host in
  match Dict.get port links with
  | None => Exc KeyError fwd []
  | Some l =>
      let currCost :=
        if truthy_table (Dict.get port peers) then l + pte_latency value
        else l in
      let currCost := if INFINITY <? currCost then INFINITY else currCost in
      match Dict.get key fwd with
      | Some prev =>
          let prevCost := fte_latency prev in
          if currCost <? prevCost then
            Next (Dict.set key (FTE key port currCost) fwd) []
          else Next fwd []
      | None => Next (Dict.set key (FTE key port currCost) fwd) []
      end
  end.

Definition merge_tables (links : @Dict.t Port Z)
  (peers : @Dict.t Port PeerTable) (fwd : ForwardingTable)
  : Out ForwardingTable :=
  for_each
    (fun (pt : Port * PeerTable) fwd =>
       let (port, peer_table) := pt in
       for_each (merge_entry links peers port) (Dict.items peer_table) fwd)
    (Dict.items peers) fwd.

Definition update_forwarding_table (st : Router) : Out Router :=
  lift (fun fwd => with_forwarding_table fwd st)
    (merge_tables (link_latency st) (peer_tables st) []).

(** ** [send_routes] *)

(** [(port, key) not in self.history.keys() or
     (self.history[(port, key)][0] != key or
      self.history[(port, key)][2] != cost)] *)
Definition stale (h : History) (port : Port) (key : Host) (cost : Z) : bool :=
  match Dict.get (port, key) h with
  | None => true
  | Some e => negb (keq (fte_dst e) key) || negb (fte_latency e =? cost)
  end.

(** The three statements every sending branch repeats: build the packet,
    send it, record it in the history. *)
Definition transmit (port : Port) (key : Host) (cost : Z) (h : History)
  : Out History :=
  Next (Dict.set (port, key) (FTE key port cost) h)
       [(RoutePacket key cost, port)].

(** [if force == False: if <stale>: <transmit>  else: <transmit>] *)
Definition advertise (force : bool) (port : Port) (key : Host) (cost : Z)
  (h : History) : Out History :=
  if negb force then
    if stale h port key cost then transmit port key cost h else Next h []
  else transmit port key cost h.

(** Body of the loop over [self.forwarding_table.items()] in the first
    pass. *)
Definition route_body (poison force : bool) (port : Port)
  (kv : Host * ForwardingTableEntry) (h : History) : Out History :=
  let (key, item) := kv in
  let fwdPorts := fte_port item in
  if poison then
    if port =? fwdPorts then advertise force port key INFINITY h
    else advertise force port key (fte_latency item) h
  else if negb poison && negb (port =? fwdPorts) then
    advertise force port key (fte_latency item) h
  else Next h [].

(** First pass: every active port, every forwarding-table entry. *)
Definition route_pass (poison force : bool) (ports : list Port)
  (fwd : ForwardingTable) (h : History) : Out History :=
  for_each
    (fun port h => for_each (route_body poison force port) (Dict.items fwd) h)
    ports h.

(** What the second pass mutates: the history, [emptyFwdTableList] and the
    local [tempList]. *)
Record Wd := mkW {
  w_history : History;
  w_empty : list (Port * Host);
  w_temp : list (Port * Host)
}.

(** [if len(self.forwarding_table) == 0: ...], which may [break] the loop
    over the ports. *)
Definition empty_table_check (fwd : ForwardingTable) (port : Port) (host : Host)
  (w : Wd) : Out Wd :=
  if (List.length fwd =? 0)%nat then
    if Dict.has (port, host) (w_history w)
       && negb (elem (port, host) (w_empty w)) then
      Next (mkW (w_history w) (w_empty w ++ [(port, host)]) (w_temp w)) []
    else if elem (port, host) (w_empty w) then Brk w []
    else Next w []
  else Next w [].

Definition drop_history (port : Port) (host : Host) (w : Wd) : Out Wd :=
  match Dict.del (port, host) (w_history w) with
  | Some h => Next (mkW h (w_empty w) (w_temp w)) []
  | None => Exc KeyError w []
  end.

(** Loop over the forwarding table when the recorded cost is not
    INFINITY. *)
Definition finite_body (port : Port) (host : Host)
  (kv : Host * ForwardingTableEntry) (w : Wd) : Out Wd :=
  let (key, value) := kv in
  if negb (keq host key) && Dict.has (port, host) (w_history w) then
    drop_history port host w
  else if keq host key then
    Next (mkW (w_history w) (w_empty w) (w_temp w ++ [(port, key)])) []
  else Next w [].

(** Loop over the forwarding table when the recorded cost is INFINITY. *)
Definition infinite_body (rfp : list (Host * Port)) (port : Port)
  (host : Host) (kv : Host * ForwardingTableEntry) (w : Wd) : Out Wd :=
  let (key, value) := kv in
  if keq key host && (fte_port value =? port) then
    Next (mkW (w_history w) (w_empty w) (w_temp w ++ [(port, key)])) []
  else if Dict.has (port, host) (w_history w) then
    if elem (host, port) rfp then Next w []
    else drop_history port host w
  else Next w [].

(** [if force == True: ...] *)
Definition forced_part (fwd : ForwardingTable) (rfp : list (Host * Port))
  (port : Port) (host : Host) (w : Wd) : Out Wd :=
  match Dict.get (port, host) (w_history w) with
  | None => Next w []
  | Some val =>
      if negb (fte_latency val =? INFINITY) then
        seq (empty_table_check fwd port host w)
            (for_each (finite_body port host) (Dict.items fwd))
      else
        seq (empty_table_check fwd port host w)
            (for_each (infinite_body rfp port host) (Dict.items fwd))
  end.

(** The last [if] of the loop over the ports: send the withdrawal. *)
Definition poison_part (rfp trickled : list (Host * Port)) (port : Port)
  (host : Host) (w : Wd) : Out Wd :=
  if negb (Dict.has (port, host) (w_history w))
     || negb (List.length (w_empty w) =? 0)%nat then
    if elem (port, host) (w_temp w) then Next w []
    else if elem (host, port) rfp then Next w []
    else if elem (host, port) trickled then Next w []
    else
      Next (mkW (Dict.set (port, host) (FTE host port INFINITY) (w_history w))
                (w_empty w) (w_temp w))
           [(RoutePacket host INFINITY, port)]
  else Next w [].

(** Body of [for port in self.peer_tables.keys()] for one [rem]. *)
Definition withdraw_body (force : bool) (fwd : ForwardingTable)
  (poisoned rfp trickled : list (Host * Port)) (rem : Host * Port)
  (port : Port) (w : Wd) : Out Wd :=
  let host := fst rem in
  if negb force && negb (elem rem poisoned) then Brk w []
  else
    seq (if force then forced_part fwd rfp port host w else Next w [])
        (poison_part rfp trickled port host).

(** Second pass: [for rem in self.removedHosts: for port in ...]. *)
Definition withdraw_pass (force : bool) (fwd : ForwardingTable)
  (removed poisoned rfp trickled : list (Host * Port)) (ports : list Port)
  (w : Wd) : Out Wd :=
  for_each
    (fun rem w =>
       for_each (withdraw_body force fwd poisoned rfp trickled rem) ports w)
    removed w.

(** [for elem in self.poisonedHosts: if elem in self.removedHosts:
     self.poisonedHosts.remove(elem); self.removedFromPoisonedHosts += [elem]]
    A Python [for] over a list reads position [i] of the list as it is at
    that moment, so removing an element shifts the rest under the loop.
    The list never grows, hence [length] steps are enough. *)
Fixpoint retire (fuel : nat) (removed : list (Host * Port)) (i : nat)
  (poisoned rfp : list (Host * Port))
  : list (Host * Port) * list (Host * Port) :=
  match fuel with
  | O => (poisoned, rfp)
  | S fuel' =>
      match nth_error poisoned i with
      | None => (poisoned, rfp)
      | Some el =>
          if elem el removed then
            retire fuel' removed (S i) (remove_first el poisoned)
                   (rfp ++ [el])
          else retire fuel' removed (S i) poisoned rfp
      end
  end.

Definition send_routes (st : Router) (force : bool) : Out Router :=
  seq (lift (fun h => with_history h st)
         (route_pass (POISON_MODE st) force (Dict.keys (peer_tables st))
            (forwarding_table st) (history st)))
    (fun st =>
       seq (if POISON_MODE st then
              lift (fun w => with_emptyFwdTableList (w_empty w)
                               (with_history (w_history w) st))
                (withdraw_pass force (forwarding_table st) (removedHosts st)
                   (poisonedHosts st) (removedFromPoisonedHosts st)
                   (trickledHosts st) (Dict.keys (peer_tables st))
                   (mkW (history st) (emptyFwdTableList st) []))
            else Next st [])
         (fun st =>
            if POISON_MODE st then
              if negb force then
                let (p, r) :=
                  retire (List.length (poisonedHosts st)) (removedHosts st) 0
                    (poisonedHosts st) (removedFromPoisonedHosts st) in
                Next (with_removedFromPoisonedHosts r
                        (with_poisonedHosts p st)) []
              else Next st []
            else Next st [])).

(** ** The handlers *)

(** [handle_link_up] *)
Definition handle_link_up (st : Router) (port : Port) (latency : Z)
  : Out Router :=
  let st := with_link_latency (Dict.set port latency (link_latency st)) st in
  let st := with_peer_tables (Dict.set port [] (peer_tables st)) st in
  lift (fun h => with_history h st)
    (for_each
       (fun key h =>
          match Dict.get key (forwarding_table st) with
          | None => Exc AttributeError h []
          | Some e =>
              Next (Dict.set (port, key) (FTE key port (fte_latency e)) h)
                   [(RoutePacket key (fte_latency e), port)]
          end)
       (Dict.keys (forwarding_table st)) (history st)).

(** Body of [for x in self.forwarding_table.keys()] in
    [handle_link_down]. *)
Definition unroute_body (port : Port) (x : Host) (st : Router)
  : Out Router :=
  match Dict.get x (forwarding_table st) with
  | None => Exc KeyError st []
  | Some e =>
      if fte_port e =? port then
        if negb (elem (fte_dst e, port) (removedHosts st)) then
          let st := with_removedHosts
                      (removedHosts st ++ [(fte_dst e, port)]) st in
          let st := with_poisonedHosts
                      (poisonedHosts st ++ [(fte_dst e, port)]) st in
          match Dict.del x (forwarding_table st) with
          | Some f => Next (with_forwarding_table f st) []
          | None => Exc KeyError st []
          end
        else Next st []
      else Next st []
  end.

(** [for elem in self.removedHosts: for item in self.history.keys(): ...] *)
Definition purge_body (el : Host * Port) (item : Port * Host) (h : History)
  : Out History :=
  if negb (keq (snd el) (fst item)) && keq (fst el) (snd item) then
    match Dict.del item h with
    | Some h' => Next h' []
    | None => Exc KeyError h []
    end
  else Next h [].

Definition purge_history (removed : list (Host * Port)) (h : History)
  : Out History :=
  for_each (fun el h => for_each (purge_body el) (Dict.keys h) h) removed h.

(** [handle_link_down] *)
Definition handle_link_down (st : Router) (port : Port) : Out Router :=
  seq (for_each (unroute_body port) (Dict.keys (forwarding_table st)) st)
    (fun st =>
       let st :=
         if elem port (Dict.keys (peer_tables st)) then
           match Dict.del port (peer_tables st) with
           | Some p => with_peer_tables p st
           | None => st
           end
         else st in
       seq (lift (fun h => with_history h st)
              (purge_history (removedHosts st) (history st)))
         (fun st =>
            seq (update_forwarding_table st)
              (fun st => send_routes st false))).

(** [self.peer_tables[port][dst] = pte] *)
Definition store_entry (st : Router) (port : Port) (host : Host)
  (pte : PeerTableEntry) : Out Router :=
  match Dict.get port (peer_tables st) with
  | None => Exc KeyError st []
  | Some t =>
      Next (with_peer_tables
              (Dict.set port (Dict.set host pte t) (peer_tables st)) st) []
  end.

(** [handle_route_advertisement]; [now] is [api.current_time()]. *)
Definition handle_route_advertisement (st : Router) (now : Z) (dst : Host)
  (port : Port) (route_latency : Z) : Out Router :=
  let currentPTE := PTE dst route_latency (At (now + ROUTE_TTL)) in
  seq (store_entry st port dst currentPTE)
    (fun st =>
       seq (update_forwarding_table st)
         (fun st => send_routes st false)).

(** [add_static_route] *)
Definition add_static_route (st : Router) (host : Host) (port : Port)
  : Out Router :=
  if negb (Dict.has port (peer_tables st)) then Exc AssertionError st []
  else
    let dst := host in
    let latency := 0 in
    let expire_time := FOREVER in
    let pte := PTE dst latency expire_time in
    seq (store_entry st port host pte)
      (fun st =>
         seq (update_forwarding_table st)
           (fun st => send_routes st false)).

(** [handle_data_packet] *)
Definition handle_data_packet (st : Router) (packet : DataPacket)
  (in_port : Port) : Out Router :=
  let destination := dst packet in
  match Dict.get destination (forwarding_table st) with
  | None => Ret st []
  | Some e =>
      let dist := fte_latency e in
      if INFINITY <=? dist then Ret st []
      else
        let out_port := fte_port e in
        if out_port =? in_port then Ret st []
        else Next st [(Data packet, out_port)]
  end.

(** [del self.peer_tables[port][dest]] *)
Definition drop_entry (st : Router) (port : Port) (dest : Host)
  : Out Router :=
  match Dict.get port (peer_tables st) with
  | None => Exc KeyError st []
  | Some t =>
      match Dict.del dest t with
      | None => Exc KeyError st []
      | Some t' =>
          Next (with_peer_tables (Dict.set port t' (peer_tables st)) st) []
      end
  end.

(** Body of [for dest, fwdEntry in self.forwarding_table.items()] in
    [expire_routes]. *)
Definition expire_body (port : Port) (host : Host)
  (df : Host * ForwardingTableEntry) (st : Router) : Out Router :=
  let (dest, fwdEntry) := df in
  if keq dest host then
    let st :=
      if negb (elem (dest, port) (removedHosts st)) then
        let st := with_removedHosts (removedHosts st ++ [(dest, port)]) st in
        with_poisonedHosts (poisonedHosts st ++ [(dest, port)]) st
      else st in
    drop_entry st port dest
  else Next st [].

(** Body of [for host, value in peer_table.items()] in [expire_routes]. *)
Definition expire_entry (now : Z) (port : Port)
  (hv : Host * PeerTableEntry) (st : Router) : Out Router :=
  let (host, value) := hv in
  if is_FOREVER (pte_expire_time value) then Ret st []
  else if past now (pte_expire_time value) then
    seq (for_each (expire_body port host)
           (Dict.items (forwarding_table st)) st)
        update_forwarding_table
  else Next st [].

(** [expire_routes]; [now] is [api.current_time()].  A port's table is only
    changed while that port is the current one, so the table bound by the
    outer loop is the one the inner loop snapshots. *)
Definition expire_routes (st : Router) (now : Z) : Out Router :=
  call
    (for_each
       (fun (pt : Port * PeerTable) st =>
          let (port, peer_table) := pt in
          for_each (expire_entry now port) (Dict.items peer_table) st)
       (Dict.items (peer_tables st)) st).

(** [handle_timer] *)
Definition handle_timer (st : Router) (now : Z) : Out Router :=
  seq (expire_routes st now) (fun st => send_routes st true).

(** * Specification vocabulary *)

Unset Implicit Arguments.

(** A loop body that never executes [break]. *)
Definition no_break {P X S} (body : X -> S -> @Ctl P S) : Prop :=
  forall x s s' o, body x s <> Brk s' o.

(** ** Route computation *)

(** The peer-table entries in the order the two nested loops of
    [update_forwarding_table] visit them. *)
Definition visits (peers : @Dict.t Port PeerTable)
  : list (Port * (Host * PeerTableEntry)) :=
  flat_map (fun pt : Port * list (Host * PeerTableEntry) =>
              map (pair (fst pt)) (snd pt)) peers.

(** The pairs (port, capped cost) offered for destination [D] by a sequence
    of visited entries, in visiting order. *)
Definition offers_of (links : @Dict.t Port Z) (D : Host)
  (vs : list (Port * (Host * PeerTableEntry))) : list (Port * Z) :=
  flat_map
    (fun v : Port * (Host * PeerTableEntry) =>
       if keq (fst (snd v)) D then
         match Dict.get (fst v) links with
         | Some l => [(fst v, Z.min (l + pte_latency (snd (snd v))) INFINITY)]
         | None => []
         end
       else [])
    vs.

Definition offers (st : Router) (D : Host) : list (Port * Z) :=
  offers_of (link_latency st) D (visits (peer_tables st)).

(** Every port and every peer table has one entry per key. *)
Definition tables_wf (peers : @Dict.t Port PeerTable) : Prop :=
  Dict.wf peers /\ forall P t, In (P, t) peers -> Dict.wf t.

(** Every active port has a link latency, as [handle_link_up] ensures. *)
Definition links_cover (links : @Dict.t Port Z)
  (peers : @Dict.t Port PeerTable) : Prop :=
  forall P, In P (Dict.keys peers) -> Dict.has P links = true.

(** The update one visited entry makes. *)
Definition keep_best (fwd : ForwardingTable) (host : Host) (port : Port)
  (c : Z) : ForwardingTable :=
  match Dict.get host fwd with
  | Some prev =>
      if c <? fte_latency prev then Dict.set host (FTE host port c) fwd
      else fwd
  | None => Dict.set host (FTE host port c) fwd
  end.

Definition keep_visit (links : @Dict.t Port Z) (fwd : ForwardingTable)
  (v : Port * (Host * PeerTableEntry)) : ForwardingTable :=
  match Dict.get (fst v) links with
  | Some l =>
      keep_best fwd (fst (snd v)) (fst v)
        (Z.min (l + pte_latency (snd (snd v))) INFINITY)
  | None => fwd
  end.

(** Invariant of the merge: the table has one entry per key, and the entry
    for [D] is the first of the offers seen so far that no other offer
    beats. *)
Definition best_so_far (links : @Dict.t Port Z) (fwd : ForwardingTable)
  (seen : list (Port * (Host * PeerTableEntry))) : Prop :=
  Dict.wf fwd /\
  forall D,
    match Dict.get D fwd with
    | Some e =>
        fte_dst e = D /\
        exists pre post,
          offers_of links D seen = pre ++ (fte_port e, fte_latency e) :: post
          /\ (forall x, In x pre -> fte_latency e < snd x)
          /\ (forall x, In x post -> fte_latency e <= snd x)
    | None => offers_of links D seen = []
    end.


(** ** Executable checks of the well-formedness conditions *)

Fixpoint nodupb {K} `{EqKey K} (l : list K) : bool :=
  match l with
  | [] => true
  | x :: r => negb (elem x r) && nodupb r
  end.

Definition tables_wfb (peers : @Dict.t Port PeerTable) : bool :=
  nodupb (Dict.keys peers)
  && forallb (fun pt : Port * PeerTable => nodupb (Dict.keys (snd pt))) peers.

Definition links_coverb (links : @Dict.t Port Z)
  (peers : @Dict.t Port PeerTable) : bool :=
  forallb (fun P => Dict.has P links) (Dict.keys peers).

Local Open Scope string_scope.

(** Three links; ports 1 and 3 tie on "B", ports 1 and 2 tie on "C". *)
Definition ex_merge : Router :=
  mkRouter true
    [(1, 1); (2, 5); (3, 2)]
    [(1, [("B", PTE "B" 2 (At 15)); ("C", PTE "C" 4 (At 15))]);
     (2, [("C", PTE "C" 0 FOREVER)]);
     (3, [("B", PTE "B" 1 (At 20))])]
    [] [] [] [] [] [] [] [].

Local Close Scope string_scope.

(** ** Advertisements *)

(** A loop whose body always completes normally, as a fold that collects
    the packets. *)
Fixpoint sweep {X S P} (step : X -> S -> S * list P) (xs : list X) (s : S)
  : S * list P :=
  match xs with
  | [] => (s, [])
  | x :: r =>
      let (s', o) := step x s in
      let (s'', o') := sweep step r s' in
      (s'', o ++ o')
  end.

(** The cost the first pass of [send_routes] advertises on [port] for a
    forwarding-table entry, if any: INFINITY on the route's own port in
    poison mode, nothing there otherwise, the real cost elsewhere. *)
Definition adv_cost (poison : bool) (port : Port)
  (item : ForwardingTableEntry) : option Z :=
  if poison then
    Some (if port =? fte_port item then INFINITY else fte_latency item)
  else if port =? fte_port item then None
  else Some (fte_latency item).

(** One iteration of the first pass. *)
Definition route_step (poison force : bool)
  (p : Port * (Host * ForwardingTableEntry)) (h : History)
  : History * list Send :=
  match adv_cost poison (fst p) (snd (snd p)) with
  | None => (h, [])
  | Some c =>
      if force || stale h (fst p) (fst (snd p)) c then
        (Dict.set (fst p, fst (snd p)) (FTE (fst (snd p)) (fst p) c) h,
         [(RoutePacket (fst (snd p)) c, fst p)])
      else (h, [])
  end.

(** The (port, entry) pairs in the order the first pass visits them. *)
Definition route_pairs (ports : list Port) (fwd : ForwardingTable)
  : list (Port * (Host * ForwardingTableEntry)) :=
  flat_map (fun pf : Port * list (Host * ForwardingTableEntry) =>
              map (pair (fst pf)) (snd pf))
    (map (fun port => (port, fwd)) ports).

(** What a forced first pass sends. *)
Definition forced_routes (st : Router) : list Send :=
  flat_map
    (fun p : Port * (Host * ForwardingTableEntry) =>
       match adv_cost (POISON_MODE st) (fst p) (snd (snd p)) with
       | Some c => [(RoutePacket (fst (snd p)) c, fst p)]
       | None => []
       end)
    (route_pairs (Dict.keys (peer_tables st)) (forwarding_table st)).

(** The router after the three passes of [send_routes], given what the
    second pass left. *)
Definition settle (st : Router) (force : bool) (w : Wd) : Router :=
  let st := with_emptyFwdTableList (w_empty w)
              (with_history (w_history w) st) in
  if POISON_MODE st && negb force then
    let pr := retire (List.length (poisonedHosts st)) (removedHosts st) 0
                (poisonedHosts st) (removedFromPoisonedHosts st) in
    with_removedFromPoisonedHosts (snd pr) (with_poisonedHosts (fst pr) st)
  else st.

(** Outcomes that are normal completions in a state satisfying [I] with
    packets satisfying [Q]; [good] also admits [break]. *)
Definition good_next {S P} (I : S -> Prop) (Q : P -> Prop) (c : @Ctl P S)
  : Prop :=
  match c with
  | Next s o => I s /\ Forall Q o
  | _ => False
  end.

Definition good {S P} (I : S -> Prop) (Q : P -> Prop) (c : @Ctl P S)
  : Prop :=
  match c with
  | Next s o | Brk s o => I s /\ Forall Q o
  | _ => False
  end.

(** A packet of the second pass: INFINITY for a withdrawn host on an
    active port. *)
Definition withdrawal (removed : list (Host * Port)) (ports : list Port)
  (x : Send) : Prop :=
  exists host port,
    x = (RoutePacket host INFINITY, port) /\
    In host (map fst removed) /\ In port ports.

Definition anyW (w : Wd) : Prop := True.

Local Open Scope string_scope.

(** "B" is routed via port 1; "C" was withdrawn earlier. *)
Definition ex_routes (poison : bool) : Router :=
  mkRouter poison
    [(1, 1); (2, 5)]
    [(1, [("B", PTE "B" 2 (At 15))]); (2, [])]
    [("B", FTE "B" 1 3)]
    []
    [("C", 1)] [] [("C", 1)] [] [] [].

Local Close Scope string_scope.

Local Open Scope string_scope.

(** The router after: link 1 up (latency 1), link 2 up (latency 5), "B"
    advertised at cost 2 on port 1, link 1 down. *)
Definition ex_withdrawn : Router :=
  mkRouter true
    [(1, 1); (2, 5)]
    [(2, [])]
    []
    [((1, "B"), FTE "B" 1 16); ((2, "B"), FTE "B" 2 16)]
    [("B", 1)] [] [] [] [("B", 1)] [].

Local Close Scope string_scope.

(** Events delivered by the framework, and the handler each one runs. *)
Inductive Event :=
| LinkUp (port : Port) (latency : Z)
| LinkDown (port : Port)
| StaticRoute (host : Host) (port : Port)
| Advertisement (now : Z) (dst : Host) (port : Port) (route_latency : Z)
| Timer (now : Z)
| Incoming (packet : DataPacket) (in_port : Port).

Definition handle (st : Router) (ev : Event) : Out Router :=
  call
    match ev with
    | LinkUp port latency => handle_link_up st port latency
    | LinkDown port => handle_link_down st port
    | StaticRoute host port => add_static_route st host port
    | Advertisement now dst port l =>
        handle_route_advertisement st now dst port l
    | Timer now => handle_timer st now
    | Incoming packet in_port => handle_data_packet st packet in_port
    end.

(** The state after a sequence of events, each handled to completion;
    [None] if a handler raised. *)
Fixpoint run (st : Router) (evs : list Event) : option Router :=
  match evs with
  | [] => Some st
  | ev :: r =>
      match handle st ev with
      | Next st' _ => run st' r
      | _ => None
      end
  end.

Local Open Scope string_scope.

(** A fresh router whose link on port 1 (latency 1) has come up. *)
Definition ex_up : Router :=
  mkRouter true [(1, 1)] [(1, [])] [] [] [] [] [] [] [] [].

(** The router after: link 1 up (latency 1), link 2 up (latency 5), host
    "A" attached on port 1, "B" advertised at time 0 and cost 2 on
    port 2. *)
Definition ex_static : Router :=
  mkRouter true
    [(1, 1); (2, 5)]
    [(1, [("A", PTE "A" 0 FOREVER)]); (2, [("B", PTE "B" 2 (At 15))])]
    [("A", FTE "A" 1 1); ("B", FTE "B" 2 7)]
    [((1, "A"), FTE "A" 1 16); ((2, "A"), FTE "A" 2 1);
     ((1, "B"), FTE "B" 1 7); ((2, "B"), FTE "B" 2 16)]
    [] [] [] [] [] [].

Local Close Scope string_scope.

(** [handle_data_packet] forwards on the port of this entry. *)
Definition forwardable (st : Router) (packet : DataPacket) (in_port : Port)
  (e : ForwardingTableEntry) : Prop :=
  Dict.get (dst packet) (forwarding_table st) = Some e /\
  fte_latency e < INFINITY /\ fte_port e <> in_port.

Definition raises {S P} (c : @Ctl P S) : Prop :=
  match c with Exc _ _ _ => True | _ => False end.

Local Open Scope string_scope.

(** The router after: links 1, 2 and 4 up; "B" advertised on port 1;
    link 1 down; a timer tick, which finds the forwarding table empty;
    link 3 up; "C" advertised at cost 1 on port 3 and on port 2. *)
Definition ex_reroute_before : Router :=
  mkRouter true
    [(1, 1); (2, 5); (4, 1); (3, 1)]
    [(2, [("C", PTE "C" 1 (At 17))]); (4, []);
     (3, [("C", PTE "C" 1 (At 17))])]
    [("C", FTE "C" 3 2)]
    [((1, "B"), FTE "B" 1 16); ((2, "B"), FTE "B" 2 16);
     ((4, "B"), FTE "B" 4 16); ((2, "C"), FTE "C" 2 2);
     ((4, "C"), FTE "C" 4 2); ((3, "C"), FTE "C" 3 16)]
    [("B", 1)]
    [(2, "B"); (4, "B")]
    []
    []
    [("B", 1)]
    [].

(** That router in the middle of [handle_link_down 3], when the handler
    calls [send_routes]: "C" is now routed via port 2. *)
Definition ex_reroute : Router :=
  mkRouter true
    [(1, 1); (2, 5); (4, 1); (3, 1)]
    [(2, [("C", PTE "C" 1 (At 17))]); (4, [])]
    [("C", FTE "C" 2 6)]
    [((1, "B"), FTE "B" 1 16); ((3, "C"), FTE "C" 3 16)]
    [("B", 1); ("C", 3)]
    [(2, "B"); (4, "B")]
    [("C", 3)]
    []
    [("B", 1)]
    [].

Local Close Scope string_scope.

(** ** Suppression *)

(** [h'] has every entry of [h]. *)
Definition extends (h h' : History) : Prop :=
  forall k v, Dict.get k h = Some v -> Dict.get k h' = Some v.

(** Every packet of [o] is what the history records for its port and
    destination. *)
Definition recorded (o : list Send) (h : History) : Prop :=
  forall host c port,
    In (RoutePacket host c, port) o -> stale h port host c = false.

(** The history records the due advertisement of every pair of [ps]. *)
Definition settled (poison : bool)
  (ps : list (Port * (Host * ForwardingTableEntry))) (h : History) : Prop :=
  forall p k it c,
    In (p, (k, it)) ps -> adv_cost poison p it = Some c ->
    stale h p k c = false.

(** No withdrawal is due for [host] on [port]. *)
Definition covered (rfp trickled : list (Host * Port)) (h : History)
  (host : Host) (port : Port) : bool :=
  Dict.has (port, host) h || elem (host, port) rfp
  || elem (host, port) trickled.

(** One iteration of the second pass when [force] is false, [rem] is in
    [poisonedHosts] and [emptyFwdTableList] is empty. *)
Definition wd_step (rfp trickled : list (Host * Port)) (host : Host)
  (port : Port) (h : History) : History * list Send :=
  if covered rfp trickled h host port then (h, [])
  else (Dict.set (port, host) (FTE host port INFINITY) h,
        [(RoutePacket host INFINITY, port)]).

(** The inner loop of the second pass for one [rem], in the same case. *)
Definition wd_rem (poisoned rfp trickled : list (Host * Port))
  (ports : list Port) (rem : Host * Port) (h : History)
  : History * list Send :=
  if elem rem poisoned then sweep (wd_step rfp trickled (fst rem)) ports h
  else (h, []).

(** ** Link down *)

Local Open Scope string_scope.

(** The router of [ex_withdrawn] after link 1 came up again and
    re-advertised "B". *)
Definition ex_relearned : Router :=
  mkRouter true
    [(1, 1); (2, 5)]
    [(2, []); (1, [("B", PTE "B" 2 (At 15))])]
    [("B", FTE "B" 1 3)]
    [((1, "B"), FTE "B" 1 16); ((2, "B"), FTE "B" 2 3)]
    [("B", 1)] [] [] [] [("B", 1)] [].

(** A router with "B" behind port 1 and "C" behind port 2, three links
    up. *)
Definition ex_three : Router :=
  mkRouter true
    [(1, 1); (2, 5); (3, 2)]
    [(1, [("B", PTE "B" 2 (At 15))]); (2, [("C", PTE "C" 1 (At 15))]);
     (3, [])]
    [("B", FTE "B" 1 3); ("C", FTE "C" 2 6)]
    [((1, "B"), FTE "B" 1 16); ((2, "B"), FTE "B" 2 3);
     ((3, "B"), FTE "B" 3 3); ((1, "C"), FTE "C" 1 6);
     ((2, "C"), FTE "C" 2 16); ((3, "C"), FTE "C" 3 6)]
    [] [] [] [] [] [].

Local Close Scope string_scope.

(** Every forwarding-table entry names its own key, as
    [update_forwarding_table] builds them. *)
Definition fwd_keyed (fwd : ForwardingTable) : Prop :=
  forall k e, In (k, e) fwd -> fte_dst e = k.

Definition fwd_keyedb (fwd : ForwardingTable) : bool :=
  forallb (fun ke : Host * ForwardingTableEntry => keq (fte_dst (snd ke))
                                                     (fst ke)) fwd.

(** The packet is a route advertisement for [B]. *)
Definition route_for (B : Host) (x : Send) : bool :=
  match fst x with
  | RoutePacket d _ => keq d B
  | Data _ => false
  end.

(** The pairs the first loop of [handle_link_down] appends to
    [removedHosts] and [poisonedHosts]. *)
Definition unrouted (port : Port) (fwd : ForwardingTable)
  (removed : list (Host * Port)) (ks : list Host) : list (Host * Port) :=
  map (fun k => (k, port))
    (filter (fun k =>
               match Dict.get k fwd with
               | Some e => (fte_port e =? port) && negb (elem (k, port) removed)
               | None => false
               end) ks).

(** The condition under which [handle_link_down] forgets a history
    entry. *)
Definition purged (el : Host * Port) (item : Port * Host) : bool :=
  negb (keq (snd el) (fst item)) && keq (fst el) (snd item).

(** The state of the second pass while no withdrawal for [B] has been
    recorded on the ports [qs]. *)
Definition unannounced (B : Host) (qs : list Port) (w : Wd) : Prop :=
  w_temp w = [] /\ forall Q, In Q qs -> Dict.get (Q, B) (w_history w) = None.

(** No port other than [P] has [B] in its peer table. *)
Definition sole_routeb (B : Host) (P : Port)
  (peers : @Dict.t Port PeerTable) : bool :=
  forallb (fun pt : Port * PeerTable =>
             keq (fst pt) P || negb (Dict.has B (snd pt))) peers.

(** No pair for [B] is in the list. *)
Definition unlistedb (B : Host) (l : list (Host * Port)) : bool :=
  forallb (fun hp : Host * Port => negb (keq (fst hp) B)) l.

Local Open Scope string_scope.

(** [ex_static] with the two ports in the other iteration order. *)
Definition ex_static_swapped : Router :=
  with_peer_tables
    [(2, [("B", PTE "B" 2 (At 15))]); (1, [("A", PTE "A" 0 FOREVER)])]
    ex_static.

Local Close Scope string_scope.

(** ** Well-formed routers *)

(** What the handlers maintain: one entry per key in every dict, a link
    latency for every active port, and forwarding-table entries that name
    their key. *)
Definition links_wf (st : Router) : Prop :=
  tables_wf (peer_tables st) /\
  links_cover (link_latency st) (peer_tables st).

Definition router_wf (st : Router) : Prop :=
  links_wf st /\
  Dict.wf (forwarding_table st) /\ fwd_keyed (forwarding_table st).

(** The outcome leaves a state satisfying [I], unless it is an exception. *)
Definition safe {S P} (I : S -> Prop) (c : @Ctl P S) : Prop :=
  match c with
  | Exc _ _ _ => True
  | Next s _ | Brk s _ | Ret s _ => I s
  end.

(** The same for a statement that neither breaks nor returns. *)
Definition straight {S P} (I : S -> Prop) (c : @Ctl P S) : Prop :=
  match c with
  | Next s _ => I s
  | Exc _ _ _ => True
  | _ => False
  end.

(** ** Two forced passes *)

(** The two histories hold the same entry for every active port and every
    destination of the forwarding table. *)
Definition agree_on (ports : list Port) (fwd : ForwardingTable)
  (h1 h2 : History) : Prop :=
  forall p k,
    In p ports -> In k (Dict.keys fwd) ->
    Dict.get (p, k) h1 = Dict.get (p, k) h2.

(** Two states of the second pass that differ at most in history entries
    for destinations outside the forwarding table. *)
Definition wd_sim (ports : list Port) (fwd : ForwardingTable) (w1 w2 : Wd)
  : Prop :=
  w_empty w1 = w_empty w2 /\ w_temp w1 = w_temp w2 /\
  Dict.wf (w_history w1) /\ Dict.wf (w_history w2) /\
  agree_on ports fwd (w_history w1) (w_history w2).

(** What the forced branch appends to [tempList] for [host] on [port],
    given the history entry [e] it finds for the pair. *)
Definition forced_temp (fwd : ForwardingTable) (port : Port) (host : Host)
  (e : option ForwardingTableEntry) : list (Port * Host) :=
  match e with
  | None => []
  | Some val =>
      map (fun kv : Host * ForwardingTableEntry => (port, fst kv))
        (filter
           (fun kv : Host * ForwardingTableEntry =>
              if negb (fte_latency val =? INFINITY) then keq host (fst kv)
              else keq (fst kv) host && (fte_port (snd kv) =? port))
           fwd)
  end.

(** Whether the forced branch leaves that history entry in place. *)
Definition forced_keeps (fwd : ForwardingTable) (rfp : list (Host * Port))
  (port : Port) (host : Host) (e : option ForwardingTableEntry) : bool :=
  match e with
  | None => true
  | Some val =>
      if negb (fte_latency val =? INFINITY) then
        forallb (fun kv : Host * ForwardingTableEntry => keq host (fst kv))
          fwd
      else
        forallb
          (fun kv : Host * ForwardingTableEntry =>
             keq (fst kv) host && (fte_port (snd kv) =? port)) fwd
        || elem (host, port) rfp
  end.

(** * Further properties: vocabulary *)

(** Every route of the forwarding table leaves by an active port. *)
Definition routes_active (st : Router) : Prop :=
  forall D e,
    In (D, e) (forwarding_table st) ->
    Dict.has (fte_port e) (peer_tables st) = true.

(** Every destination some peer table offers has a forwarding-table
    entry. *)
Definition fwd_covers (st : Router) : Prop :=
  forall P t h pe,
    In (P, t) (peer_tables st) -> In (h, pe) t ->
    Dict.has h (forwarding_table st) = true.

Definition router_ok (st : Router) : Prop :=
  router_wf st /\ routes_active st /\ fwd_covers st.

(** The statement completes normally, in a state satisfying [I]. *)
Definition completes {S P} (I : S -> Prop) (c : @Ctl P S) : Prop :=
  match c with
  | Next s _ => I s
  | _ => False
  end.

(** The forwarding table [update_forwarding_table] computes from the link
    latencies and peer tables of [st]. *)
Definition recomputed (st : Router) : ForwardingTable :=
  fold_left (keep_visit (link_latency st)) (visits (peer_tables st)) [].

(** ** Expiry *)

(** What [expire_routes] does to one peer table: it drops the overdue
    entries up to the first FOREVER entry, where it stops altogether. *)
Fixpoint expire_table (now : Z) (t : PeerTable) : PeerTable * bool :=
  match t with
  | [] => ([], false)
  | (h, e) :: r =>
      if is_FOREVER (pte_expire_time e) then ((h, e) :: r, true)
      else
        let (r', stop) := expire_table now r in
        (if past now (pte_expire_time e) then r' else (h, e) :: r', stop)
  end.

(** And to the peer tables, port after port. *)
Fixpoint expire_tables (now : Z) (peers : @Dict.t Port PeerTable)
  : @Dict.t Port PeerTable :=
  match peers with
  | [] => []
  | (p, t) :: r =>
      (p, fst (expire_table now t))
      :: (if snd (expire_table now t) then r else expire_tables now r)
  end.

(** [s'] differs from [s] at most in the peer tables, the forwarding table
    and longer [removedHosts] and [poisonedHosts]. *)
Definition expiry_frame (s s' : Router) : Prop :=
  POISON_MODE s' = POISON_MODE s /\
  link_latency s' = link_latency s /\
  history s' = history s /\
  emptyFwdTableList s' = emptyFwdTableList s /\
  removedFromPoisonedHosts s' = removedFromPoisonedHosts s /\
  trickledHosts s' = trickledHosts s /\
  incl (removedHosts s) (removedHosts s') /\
  incl (poisonedHosts s) (poisonedHosts s').

(** The state in which [expire_routes] deletes the entry for [host] on
    [port]: the pair has been noted as removed, if it was not already. *)
Definition noted (st : Router) (port : Port) (host : Host) : Router :=
  if negb (elem (host, port) (removedHosts st)) then
    with_poisonedHosts (poisonedHosts st ++ [(host, port)])
      (with_removedHosts (removedHosts st ++ [(host, port)]) st)
  else st.

(** No peer table holds a FOREVER entry. *)
Definition no_static (peers : @Dict.t Port PeerTable) : Prop :=
  forall P t h e, In (P, t) peers -> In (h, e) t ->
                  is_FOREVER (pte_expire_time e) = false.

Definition no_staticb (peers : @Dict.t Port PeerTable) : bool :=
  forallb (fun pt : Port * PeerTable =>
             forallb (fun he : Host * PeerTableEntry =>
                        negb (is_FOREVER (pte_expire_time (snd he))))
               (snd pt)) peers.

Definition fwd_coversb (st : Router) : bool :=
  forallb (fun pt : Port * PeerTable =>
             forallb (fun he : Host * PeerTableEntry =>
                        Dict.has (fst he) (forwarding_table st)) (snd pt))
    (peer_tables st).

Definition routes_activeb (st : Router) : bool :=
  forallb (fun de : Host * ForwardingTableEntry =>
             Dict.has (fte_port (snd de)) (peer_tables st))
    (forwarding_table st).

Definition router_wfb (st : Router) : bool :=
  tables_wfb (peer_tables st)
  && links_coverb (link_latency st) (peer_tables st)
  && nodupb (Dict.keys (forwarding_table st))
  && fwd_keyedb (forwarding_table st).

(** The peer tables without their overdue entries. *)
Definition without_overdue (now : Z) (peers : @Dict.t Port PeerTable)
  : @Dict.t Port PeerTable :=
  map (fun pt : Port * PeerTable =>
         (fst pt,
          filter (fun he : Host * PeerTableEntry =>
                    negb (past now (pte_expire_time (snd he)))) (snd pt)))
    peers.

(** ** Liveness *)

(** The port an event needs to be up: advertisements and static routes
    index the peer table of their port. *)
Definition port_needed (ev : Event) : option Port :=
  match ev with
  | StaticRoute _ port => Some port
  | Advertisement _ _ port _ => Some port
  | _ => None
  end.

Definition deliverable (st : Router) (ev : Event) : Prop :=
  match port_needed ev with
  | Some port => Dict.has port (peer_tables st) = true
  | None => True
  end.

(** ** Route computation, further *)

(** Some active port with a non-empty peer table has no link latency. *)
Definition link_missing (st : Router) : Prop :=
  exists P t,
    In (P, t) (peer_tables st) /\ t <> [] /\
    Dict.get P (link_latency st) = None.

(** ** Advertisements, further *)

(** What [send_routes] may put on the wire in [st]: a route packet on an
    active port, costing INFINITY or the latency of a forwarding-table
    entry for that destination whose port is another one. *)
Definition advert (st : Router) (x : Send) : Prop :=
  In (snd x) (Dict.keys (peer_tables st)) /\
  exists D c,
    fst x = RoutePacket D c /\
    (c = INFINITY \/
     exists e, In (D, e) (forwarding_table st) /\ fte_latency e = c /\
               fte_port e <> snd x).

(** What the unforced first pass sends for one (port, entry) pair, given
    the history at the start of the call. *)
Definition due (poison : bool) (h : History)
  (p : Port * (Host * ForwardingTableEntry)) : list Send :=
  match adv_cost poison (fst p) (snd (snd p)) with
  | Some c =>
      if stale h (fst p) (fst (snd p)) c
      then [(RoutePacket (fst (snd p)) c, fst p)] else []
  | None => []
  end.

(** The advertisements the history of [st] does not record yet, in the
    order of the first pass. *)
Definition unrecorded (st : Router) : list Send :=
  flat_map (due (POISON_MODE st) (history st))
    (route_pairs (Dict.keys (peer_tables st)) (forwarding_table st)).

(** ** Link up *)

(** The history after [handle_link_up] on [port]: the dump of the
    forwarding table is recorded entry by entry. *)
Definition dumped (port : Port) (fwd : ForwardingTable) (h : History)
  : History :=
  fold_left
    (fun h (ke : Host * ForwardingTableEntry) =>
       Dict.set (port, fst ke) (FTE (fst ke) port (fte_latency (snd ke))) h)
    fwd h.

(** The packets of that dump. *)
Definition dump (port : Port) (fwd : ForwardingTable) : list Send :=
  map (fun ke : Host * ForwardingTableEntry =>
         (RoutePacket (fst ke) (fte_latency (snd ke)), port)) fwd.

(** ** Retiring poisoned hosts *)

(** The elements at positions 0, 2, 4, ... and at positions 1, 3, 5, ... of
    a list. *)
Fixpoint evens {A} (l : list A) : list A :=
  match l with
  | [] => []
  | x :: r =>
      x :: match r with
           | [] => []
           | _ :: r' => evens r'
           end
  end.

Fixpoint odds {A} (l : list A) : list A :=
  match l with
  | [] => []
  | _ :: r =>
      match r with
      | [] => []
      | y :: r' => y :: odds r'
      end
  end.
(** * Properties *)

(** ** Key equality and list membership *)

Arguments keq : simpl never.

Lemma keq_refl {K} `{EqKey K} (x : K) : keq x x = true.
Proof. destruct (keq_spec x x); congruence. Qed.

Lemma keq_eq {K} `{EqKey K} (x y : K) : keq x y = true <-> x = y.
Proof. destruct (keq_spec x y); split; congruence. Qed.

Lemma keq_neq {K} `{EqKey K} (x y : K) : keq x y = false <-> x <> y.
Proof. destruct (keq_spec x y); split; congruence. Qed.

Lemma keq_sym {K} `{EqKey K} (x y : K) : keq x y = keq y x.
Proof. destruct (keq_spec x y), (keq_spec y x); congruence. Qed.

Lemma elem_In {K} `{EqKey K} (x : K) l : elem x l = true <-> In x l.
Proof.
  unfold elem. rewrite existsb_exists. split.
  - intros (y & Hy & E). apply keq_eq in E. now subst.
  - intros Hx. exists x. split; [assumption | apply keq_refl].
Qed.

Lemma elem_not_In {K} `{EqKey K} (x : K) l : elem x l = false <-> ~ In x l.
Proof.
  rewrite <- elem_In. destruct (elem x l); split; congruence.
Qed.

(** ** Dict lemmas *)

Section DictFacts.
Context {K V : Type} `{EqKey K}.
Implicit Types (d : @Dict.t K V) (k : K) (v : V).

Lemma get_set_same k v d : Dict.get k (Dict.set k v d) = Some v.
Proof.
  induction d as [|[k' v'] r IH]; simpl.
  - now rewrite keq_refl.
  - destruct (keq k k') eqn:E; simpl.
    + now rewrite keq_refl.
    + now rewrite E.
Qed.

Lemma get_set_other k k' v d :
  k <> k' -> Dict.get k' (Dict.set k v d) = Dict.get k' d.
Proof.
  intros N. induction d as [|[k0 v0] r IH]; simpl.
  - apply not_eq_sym in N. apply keq_neq in N. now rewrite N.
  - destruct (keq k k0) eqn:E; simpl.
    + apply keq_eq in E. subst k0.
      apply not_eq_sym in N. apply keq_neq in N. now rewrite N.
    + destruct (keq k' k0); auto.
Qed.

Lemma get_Some_In k v d : Dict.get k d = Some v -> In (k, v) d.
Proof.
  induction d as [|[k' v'] r IH]; simpl; [discriminate|].
  destruct (keq k k') eqn:E.
  - apply keq_eq in E. intros [= ->]. subst. now left.
  - intros G. right. auto.
Qed.

Lemma get_None_keys k d : Dict.get k d = None <-> ~ In k (Dict.keys d).
Proof.
  induction d as [|[k' v'] r IH]; simpl.
  - split; auto.
  - destruct (keq_spec k k') as [->|N].
    + split; [discriminate | intros X; exfalso; apply X; now left].
    + rewrite IH. split; intros X; [intros [Y|Y]; [congruence|auto] | auto].
Qed.

Lemma get_In k v d : Dict.wf d -> In (k, v) d -> Dict.get k d = Some v.
Proof.
  unfold Dict.wf.
  induction d as [|[k' v'] r IH]; simpl; [tauto|].
  intros ND [E|I].
  - inversion E; subst. now rewrite keq_refl.
  - inversion ND as [|? ? Hn Hr]; subst.
    destruct (keq_spec k k') as [->|N].
    + exfalso. apply Hn. change k' with (fst (k', v)). now apply in_map.
    + auto.
Qed.

Lemma has_true k d : Dict.has k d = true <-> In k (Dict.keys d).
Proof.
  unfold Dict.has. destruct (Dict.get k d) eqn:G.
  - split; auto. intros _. apply get_Some_In in G.
    change k with (fst (k, v)). now apply in_map.
  - split; [discriminate|]. intros I. now apply get_None_keys in G.
Qed.

Lemma has_false k d : Dict.has k d = false <-> Dict.get k d = None.
Proof. unfold Dict.has. destruct (Dict.get k d); split; congruence. Qed.

Lemma keys_set k v d :
  Dict.keys (Dict.set k v d)
  = if Dict.has k d then Dict.keys d else Dict.keys d ++ [k].
Proof.
  unfold Dict.has.
  induction d as [|[k' v'] r IH]; simpl; auto.
  destruct (keq_spec k k') as [->|N]; simpl; auto.
  rewrite IH. destruct (Dict.get k r); auto.
Qed.

Lemma wf_set k v d : Dict.wf d -> Dict.wf (Dict.set k v d).
Proof.
  unfold Dict.wf. intros ND. rewrite keys_set.
  destruct (Dict.has k d) eqn:E; auto.
  apply has_false, get_None_keys in E.
  apply NoDup_app; auto.
  - constructor; [simpl; tauto | constructor].
  - intros x Hx [<-|[]]. contradiction.
Qed.

Lemma in_keys_set k k' v d :
  In k' (Dict.keys (Dict.set k v d)) <-> k' = k \/ In k' (Dict.keys d).
Proof.
  rewrite keys_set. destruct (Dict.has k d) eqn:E.
  - apply has_true in E. split; [tauto | intros [->|]; auto].
  - rewrite in_app_iff. simpl. split; [intros [|[|[]]]; auto | intros [|]; auto].
Qed.

Lemma del_has k d : Dict.has k d = true -> exists d', Dict.del k d = Some d'.
Proof.
  unfold Dict.has.
  induction d as [|[k' v'] r IH]; simpl; [discriminate|].
  destruct (keq k k'); [eauto|].
  intros G. destruct (IH G) as (d' & ->). eauto.
Qed.

Lemma del_get_other k k' d d' :
  Dict.del k d = Some d' -> k <> k' -> Dict.get k' d' = Dict.get k' d.
Proof.
  revert d'. induction d as [|[k0 v0] r IH]; simpl; [discriminate|].
  intros d'. destruct (keq_spec k k0) as [->|N].
  - intros [= <-] N. apply not_eq_sym in N. apply keq_neq in N. now rewrite N.
  - destruct (Dict.del k r) eqn:D; [|discriminate].
    intros [= <-] N'. simpl. destruct (keq k' k0); auto.
Qed.
End DictFacts.

(** ** Loop lemmas *)

Section LoopFacts.
Context {P X S : Type}.
Implicit Types (body : X -> S -> @Ctl P S).

Lemma emit_nil (c : @Ctl P S) : emit [] c = c.
Proof. now destruct c. Qed.

Lemma emit_emit o o' (c : @Ctl P S) : emit o (emit o' c) = emit (o ++ o') c.
Proof. destruct c; simpl; now rewrite app_assoc. Qed.

Lemma for_each_ext body body' xs s :
  (forall x s, body x s = body' x s) ->
  for_each body xs s = for_each body' xs s.
Proof.
  intros E. revert s. induction xs as [|x r IH]; intros s; simpl; auto.
  rewrite E. destruct (body' x s); auto. now rewrite IH.
Qed.

Lemma for_each_app body xs ys s :
  no_break body ->
  for_each body (xs ++ ys) s
  = seq (for_each body xs s) (for_each body ys).
Proof.
  intros NB. revert s. induction xs as [|x r IH]; intros s; simpl.
  - now rewrite emit_nil.
  - destruct (body x s) eqn:B; simpl; auto.
    + rewrite IH. destruct (for_each body r s0); simpl; auto.
      now rewrite emit_emit.
    + now apply NB in B.
Qed.
End LoopFacts.

(** A nested loop whose inner body never breaks is one loop over the pairs,
    in the order the nested loop visits them. *)
Lemma for_each_nested {P A B S} (body : A -> B -> S -> @Ctl P S)
  (xs : list (A * list B)) (s : S) :
  (forall a, no_break (body a)) ->
  for_each (fun (ab : A * list B) s => for_each (body (fst ab)) (snd ab) s)
    xs s
  = for_each (fun (p : A * B) s => body (fst p) (snd p) s)
      (flat_map (fun ab : A * list B => map (pair (fst ab)) (snd ab)) xs) s.
Proof.
  intros NB. revert s. induction xs as [|[a bs] r IH]; intros s; simpl; auto.
  rewrite for_each_app.
  2:{ intros [a' b'] s0 s1 o. simpl. apply NB. }
  assert (E : forall s, for_each (body a) bs s
    = for_each (fun (p : A * B) s => body (fst p) (snd p) s)
        (map (pair a) bs) s).
  { clear. induction bs as [|b bs IH]; intros s; simpl; auto.
    destruct (body a b s); auto. now rewrite IH. }
  rewrite <- E.
  assert (NBr : forall bs s s' o, for_each (body a) bs s <> Brk s' o).
  { clear -NB. induction bs as [|b bs IH]; intros s s' o; simpl;
      [discriminate|].
    destruct (body a b s) eqn:Bd; try discriminate.
    specialize (IH s0 s'). destruct (for_each (body a) bs s0); simpl;
      try discriminate.
    intros X. injection X as <- X. eapply IH. reflexivity. }
  destruct (for_each (body a) bs s) eqn:F; simpl; auto.
  - now rewrite IH.
  - now apply NBr in F.
Qed.

(** ** Route computation *)

Lemma merge_entry_keeps links peers port host value fwd l :
  Dict.get port links = Some l ->
  truthy_table (Dict.get port peers) = true ->
  merge_entry links peers port (host, value) fwd
  = Next (keep_best fwd host port (Z.min (l + pte_latency value) INFINITY)) [].
Proof.
  intros Hl Ht. unfold merge_entry, keep_best. rewrite Hl, Ht.
  assert (E : (if INFINITY <? l + pte_latency value then INFINITY
               else l + pte_latency value)
              = Z.min (l + pte_latency value) INFINITY).
  { unfold INFINITY. destruct (Z.ltb_spec 16 (l + pte_latency value)); lia. }
  rewrite E. clear E. destruct (Dict.get host fwd) as [prev|]; auto.
  destruct (_ <? fte_latency prev); auto.
Qed.

Lemma merge_entry_no_break links peers port :
  no_break (merge_entry links peers port).
Proof.
  intros [host value] s s' o. unfold merge_entry.
  destruct (Dict.get port links); [|discriminate].
  destruct (Dict.get host s); [destruct (_ <? _)|]; discriminate.
Qed.

Lemma visits_In peers P h e :
  In (P, (h, e)) (visits peers) <-> exists t, In (P, t) peers /\ In (h, e) t.
Proof.
  unfold visits. rewrite in_flat_map. split.
  - intros ([P' t] & I & M). simpl in M. apply in_map_iff in M.
    destruct M as ([h' e'] & [= -> -> ->] & I'). eauto.
  - intros (t & I & I'). exists (P, t). split; auto. simpl.
    apply in_map_iff. exists (h, e). auto.
Qed.

Lemma merge_tables_fold links peers :
  tables_wf peers -> links_cover links peers ->
  forall fwd,
    merge_tables links peers fwd
    = Next (fold_left (keep_visit links) (visits peers) fwd) [].
Proof.
  intros [Wp Wt] LC fwd. unfold merge_tables, Dict.items.
  transitivity
    (for_each (fun (ab : Port * list (Host * PeerTableEntry)) s =>
                 for_each (merge_entry links peers (fst ab)) (snd ab) s)
       peers fwd).
  { apply for_each_ext. now intros [port peer_table] s. }
  rewrite (for_each_nested (merge_entry links peers)).
  2:{ intros a. apply merge_entry_no_break. }
  fold (visits peers).
  assert (G : forall vs fwd,
             incl vs (visits peers) ->
             for_each (fun (p : Port * (Host * PeerTableEntry)) s =>
                         merge_entry links peers (fst p) (snd p) s) vs fwd
             = Next (fold_left (keep_visit links) vs fwd) []).
  { induction vs as [|[P [h e]] vs IH]; intros f I; [reflexivity|].
    assert (Iv : In (P, (h, e)) (visits peers)) by (apply I; now left).
    apply visits_In in Iv. destruct Iv as (t & It & Ie).
    assert (Hk : In P (Dict.keys peers)).
    { change P with (fst (P, t)). now apply in_map. }
    apply LC in Hk. unfold Dict.has in Hk.
    destruct (Dict.get P links) as [l|] eqn:Hl; [|discriminate].
    cbn [for_each fst snd fold_left].
    rewrite merge_entry_keeps with (l := l); auto.
    2:{ rewrite get_In with (v := t); auto.
        destruct t; [destruct Ie | reflexivity]. }
    unfold keep_visit at 2. cbn [fst snd emit]. rewrite Hl.
    rewrite emit_nil. apply IH. intros x Hx. apply I. now right. }
  apply G. apply incl_refl.
Qed.

Lemma offers_of_app links D xs ys :
  offers_of links D (xs ++ ys) = offers_of links D xs ++ offers_of links D ys.
Proof. unfold offers_of. apply flat_map_app. Qed.

Lemma best_so_far_step links fwd seen v :
  Dict.has (fst v) links = true ->
  best_so_far links fwd seen ->
  best_so_far links (keep_visit links fwd v) (seen ++ [v]).
Proof.
  destruct v as [P [h e]]. simpl. unfold Dict.has, keep_visit. simpl.
  destruct (Dict.get P links) as [l|] eqn:Hl; [intros _|discriminate].
  intros [W I]. set (c := Z.min (l + pte_latency e) INFINITY).
  assert (Ov : forall D, offers_of links D [(P, (h, e))]
                         = if keq h D then [(P, c)] else []).
  { intros D. unfold offers_of. simpl. rewrite Hl.
    destruct (keq h D); simpl; auto. }
  unfold keep_best. split.
  - destruct (Dict.get h fwd); [destruct (_ <? _)|]; auto using wf_set.
  - intros D. rewrite offers_of_app, Ov. specialize (I D).
    destruct (keq_spec h D) as [->|N].
    + destruct (Dict.get D fwd) as [prev|] eqn:G.
      * destruct I as (Hd & pre & post & E & Hpre & Hpost).
        destruct (Z.ltb_spec c (fte_latency prev)) as [Lt|Ge].
        -- rewrite get_set_same. simpl. split; auto.
           exists (pre ++ (fte_port prev, fte_latency prev) :: post), [].
           rewrite E. repeat split; auto.
           ++ intros x Hx. apply in_app_iff in Hx. simpl in Hx.
              destruct Hx as [Hx|[<-|Hx]]; simpl.
              ** apply Hpre in Hx. lia.
              ** lia.
              ** apply Hpost in Hx. lia.
           ++ intros x [].
        -- rewrite G. split; auto.
           exists pre, (post ++ [(P, c)]). rewrite E, <- app_assoc. simpl.
           repeat split; auto.
           intros x Hx. apply in_app_iff in Hx.
           destruct Hx as [Hx|[<-|[]]]; simpl; auto.
      * rewrite get_set_same. simpl. split; auto.
        exists [], []. rewrite I. simpl. repeat split; auto; intros x [].
    + rewrite app_nil_r.
      assert (Gs : forall x, Dict.get D (Dict.set h x fwd) = Dict.get D fwd).
      { intros x. now apply get_set_other. }
      destruct (Dict.get h fwd) as [prev|]; [destruct (_ <? _)|];
        rewrite ?Gs; exact I.
Qed.

Lemma best_so_far_fold links vs :
  (forall v, In v vs -> Dict.has (fst v) links = true) ->
  forall fwd seen,
    best_so_far links fwd seen ->
    best_so_far links (fold_left (keep_visit links) vs fwd) (seen ++ vs).
Proof.
  induction vs as [|v vs IH]; intros Hv fwd seen B; simpl.
  - now rewrite app_nil_r.
  - replace (seen ++ v :: vs) with ((seen ++ [v]) ++ vs)
      by (rewrite <- app_assoc; reflexivity).
    apply IH; [intros x Hx; apply Hv; now right|].
    apply best_so_far_step; auto. apply Hv. now left.
Qed.

Lemma offers_complete st D P t e l :
  Dict.get P (peer_tables st) = Some t ->
  Dict.get D t = Some e ->
  Dict.get P (link_latency st) = Some l ->
  In (P, Z.min (l + pte_latency e) INFINITY) (offers st D).
Proof.
  intros Gt Ge Gl. unfold offers, offers_of. apply in_flat_map.
  exists (P, (D, e)). split.
  - apply visits_In. exists t. split; now apply get_Some_In.
  - simpl. rewrite keq_refl, Gl. now left.
Qed.

Lemma offers_sound st D P c :
  tables_wf (peer_tables st) ->
  In (P, c) (offers st D) ->
  exists t e l,
    Dict.get P (peer_tables st) = Some t /\ Dict.get D t = Some e /\
    Dict.get P (link_latency st) = Some l /\
    c = Z.min (l + pte_latency e) INFINITY.
Proof.
  intros [Wp Wt] I. unfold offers, offers_of in I. apply in_flat_map in I.
  destruct I as ([P' [h e]] & Iv & I). simpl in I.
  destruct (keq_spec h D) as [->|N]; [|destruct I].
  destruct (Dict.get P' (link_latency st)) as [l|] eqn:Gl; [|destruct I].
  destruct I as [[= -> <-]|[]].
  apply visits_In in Iv. destruct Iv as (t & It & Ie).
  exists t, e, l. repeat split; auto.
  - now apply get_In.
  - apply get_In; auto. eapply Wt; eauto.
Qed.

Lemma filter_none {A} (f : A -> bool) (l : list A) :
  (forall x, In x l -> f x = false) -> filter f l = [].
Proof.
  induction l as [|a l IH]; simpl; auto.
  intros Hf. rewrite (Hf a) by now left. apply IH. intros x Hx. apply Hf.
  now right.
Qed.

Lemma wf_get_filter {V} (d : @Dict.t Host V) k v :
  Dict.wf d -> Dict.get k d = Some v ->
  filter (fun kv : Host * V => keq (fst kv) k) d = [(k, v)].
Proof.
  unfold Dict.wf.
  induction d as [|[k' v'] r IH]; simpl; [discriminate|].
  intros ND. inversion ND as [|? ? Hn Hr]; subst.
  rewrite (keq_sym k' k). destruct (keq_spec k k') as [<-|N].
  - intros [= ->]. f_equal.
    apply filter_none.
    intros [k0 v0] I. simpl. apply keq_neq. intros ->.
    apply Hn. change k with (fst (k, v0)). now apply in_map.
  - intros G. auto.
Qed.

Lemma nodupb_sound {K} `{EqKey K} (l : list K) : nodupb l = true -> NoDup l.
Proof.
  induction l as [|x r IH]; simpl; [constructor|].
  intros E. apply andb_true_iff in E. destruct E as [E1 E2].
  constructor; auto. apply negb_true_iff in E1. now apply elem_not_In.
Qed.

Lemma tables_wfb_sound peers : tables_wfb peers = true -> tables_wf peers.
Proof.
  unfold tables_wfb, tables_wf. intros E. apply andb_true_iff in E.
  destruct E as [E1 E2]. split; [now apply nodupb_sound|].
  intros P t I. rewrite forallb_forall in E2. apply nodupb_sound.
  apply (E2 (P, t) I).
Qed.

Lemma links_coverb_sound links peers :
  links_coverb links peers = true -> links_cover links peers.
Proof.
  unfold links_coverb, links_cover. rewrite forallb_forall. auto.
Qed.

Lemma update_forwarding_table_fold st :
  tables_wf (peer_tables st) ->
  links_cover (link_latency st) (peer_tables st) ->
  update_forwarding_table st
  = Next (with_forwarding_table
            (fold_left (keep_visit (link_latency st))
               (visits (peer_tables st)) []) st) [].
Proof.
  intros W L. unfold update_forwarding_table.
  now rewrite merge_tables_fold.
Qed.

Lemma merged_best st :
  links_cover (link_latency st) (peer_tables st) ->
  best_so_far (link_latency st)
    (fold_left (keep_visit (link_latency st)) (visits (peer_tables st)) [])
    (visits (peer_tables st)).
Proof.
  intros L.
  apply (best_so_far_fold (link_latency st) (visits (peer_tables st)))
    with (fwd := []) (seen := []).
  - intros [P [h e]] I. apply visits_In in I. destruct I as (t & It & _).
    apply L. simpl. change P with (fst (P, t)). now apply in_map.
  - split; [constructor|]. intros D. reflexivity.
Qed.

(** C1.  After [update_forwarding_table], every destination [D] found in an
    active port's peer table has exactly one forwarding-table entry; its
    latency is the minimum over the active ports [P] holding [D] of
    [link_latency[P] + peer_tables[P][D].latency] capped at INFINITY, its
    port attains that minimum, and among equal costs the entry visited first
    is the one kept. *)
Theorem update_forwarding_table_minimum (st : Router) :
  tables_wf (peer_tables st) ->
  links_cover (link_latency st) (peer_tables st) ->
  exists fwd,
    update_forwarding_table st = Next (with_forwarding_table fwd st) [] /\
    forall D,
      (exists P t e,
          Dict.get P (peer_tables st) = Some t /\ Dict.get D t = Some e) ->
      exists entry,
        filter (fun kv : Host * ForwardingTableEntry => keq (fst kv) D) fwd
        = [(D, entry)] /\
        Dict.get D fwd = Some entry /\
        (forall P t e l,
            Dict.get P (peer_tables st) = Some t ->
            Dict.get D t = Some e ->
            Dict.get P (link_latency st) = Some l ->
            fte_latency entry <= Z.min (l + pte_latency e) INFINITY) /\
        (exists t e l,
            Dict.get (fte_port entry) (peer_tables st) = Some t /\
            Dict.get D t = Some e /\
            Dict.get (fte_port entry) (link_latency st) = Some l /\
            fte_latency entry = Z.min (l + pte_latency e) INFINITY) /\
        (exists pre post,
            offers st D = pre ++ (fte_port entry, fte_latency entry) :: post /\
            forall x, In x pre -> fte_latency entry < snd x).
Proof.
  intros W L. eexists. split; [now apply update_forwarding_table_fold|].
  destruct (merged_best st L) as [Wf B].
  intros D (P & t & e & Gt & Ge).
  assert (Hl : exists l, Dict.get P (link_latency st) = Some l).
  { assert (I : In P (Dict.keys (peer_tables st))).
    { apply get_Some_In in Gt. change P with (fst (P, t)). now apply in_map. }
    apply L in I. unfold Dict.has in I.
    destruct (Dict.get P (link_latency st)); [eauto | discriminate]. }
  destruct Hl as (l & Gl).
  pose proof (offers_complete st D P t e l Gt Ge Gl) as Io.
  specialize (B D). fold (offers st D) in B.
  destruct (Dict.get D _) as [entry|] eqn:G.
  2:{ rewrite B in Io. destruct Io. }
  destruct B as (Hd & pre & post & E & Hpre & Hpost).
  exists entry. split; [now apply wf_get_filter|]. split; auto.
  assert (Bound : forall x, In x (offers st D) -> fte_latency entry <= snd x).
  { intros x Hx. rewrite E in Hx. apply in_app_iff in Hx.
    destruct Hx as [Hx|[<-|Hx]]; simpl.
    - apply Hpre in Hx. lia.
    - lia.
    - now apply Hpost. }
  split; [|split].
  - intros P' t' e' l' Gt' Ge' Gl'.
    apply (Bound (P', Z.min (l' + pte_latency e') INFINITY)).
    now apply offers_complete with (t := t').
  - assert (I : In (fte_port entry, fte_latency entry) (offers st D)).
    { rewrite E. apply in_app_iff. right. now left. }
    apply offers_sound in I; auto.
  - exists pre, post. auto.
Qed.

Lemma update_forwarding_table_minimum_witness :
  tables_wf (peer_tables ex_merge) /\
  links_cover (link_latency ex_merge) (peer_tables ex_merge) /\
  exists fwd,
    update_forwarding_table ex_merge
    = Next (with_forwarding_table fwd ex_merge) [] /\
    forall D,
      (exists P t e,
          Dict.get P (peer_tables ex_merge) = Some t /\
          Dict.get D t = Some e) ->
      exists entry,
        filter (fun kv : Host * ForwardingTableEntry => keq (fst kv) D) fwd
        = [(D, entry)] /\
        Dict.get D fwd = Some entry /\
        (forall P t e l,
            Dict.get P (peer_tables ex_merge) = Some t ->
            Dict.get D t = Some e ->
            Dict.get P (link_latency ex_merge) = Some l ->
            fte_latency entry <= Z.min (l + pte_latency e) INFINITY) /\
        (exists t e l,
            Dict.get (fte_port entry) (peer_tables ex_merge) = Some t /\
            Dict.get D t = Some e /\
            Dict.get (fte_port entry) (link_latency ex_merge) = Some l /\
            fte_latency entry = Z.min (l + pte_latency e) INFINITY) /\
        (exists pre post,
            offers ex_merge D
            = pre ++ (fte_port entry, fte_latency entry) :: post /\
            forall x, In x pre -> fte_latency entry < snd x).
Proof.
  assert (W : tables_wf (peer_tables ex_merge))
    by (apply tables_wfb_sound; reflexivity).
  assert (L : links_cover (link_latency ex_merge) (peer_tables ex_merge))
    by (apply links_coverb_sound; reflexivity).
  split; [exact W|]. split; [exact L|].
  exact (update_forwarding_table_minimum ex_merge W L).
Defined.

(** On the example the ties go to port 1, the port visited first. *)
Example update_forwarding_table_ex_merge :
  update_forwarding_table ex_merge
  = Next (with_forwarding_table
            [("B"%string, FTE "B"%string 1 3); ("C"%string, FTE "C"%string 1 5)] ex_merge)
         [].
Proof. reflexivity. Qed.

(** ** Loops that always complete *)

Lemma for_each_sweep {X S P} (body : X -> S -> @Ctl P S)
  (step : X -> S -> S * list P) (xs : list X) :
  (forall x s, In x xs -> body x s = Next (fst (step x s)) (snd (step x s))) ->
  forall s,
    for_each body xs s
    = Next (fst (sweep step xs s)) (snd (sweep step xs s)).
Proof.
  induction xs as [|x r IH]; intros Hb s; simpl; auto.
  rewrite Hb by now left. destruct (step x s) as [s' o]. simpl.
  rewrite IH by (intros; apply Hb; now right).
  destruct (sweep step r s') as [s'' o']. reflexivity.
Qed.

Lemma for_each_good {X S P} (I : S -> Prop) (Q : P -> Prop)
  (body : X -> S -> @Ctl P S) (xs : list X) :
  (forall x s, In x xs -> I s -> good I Q (body x s)) ->
  forall s, I s -> good_next I Q (for_each body xs s).
Proof.
  induction xs as [|x r IH]; intros Hb s Hs; simpl.
  - split; auto.
  - pose proof (Hb x s (or_introl eq_refl) Hs) as G.
    destruct (body x s) as [s' o|s' o|s' o|e s' o]; simpl in G;
      try contradiction.
    + destruct G as [Is' Qo].
      assert (G' : good_next I Q (for_each body r s')).
      { apply IH; auto. intros; apply Hb; auto. now right. }
      destruct (for_each body r s'); simpl in *; try contradiction.
      destruct G'. split; auto. apply Forall_app. auto.
    + exact G.
Qed.

Lemma good_next_inv {S P} (I : S -> Prop) (Q : P -> Prop) (c : @Ctl P S) :
  good_next I Q c -> exists s o, c = Next s o /\ I s /\ Forall Q o.
Proof. destruct c; simpl; try contradiction. intros []. eauto. Qed.

Lemma for_each_map {X Y S P} (f : X -> Y) (body : Y -> S -> @Ctl P S)
  (xs : list X) (s : S) :
  for_each body (map f xs) s = for_each (fun x => body (f x)) xs s.
Proof.
  revert s. induction xs as [|x r IH]; intros s; simpl; auto.
  destruct (body (f x) s); auto. now rewrite IH.
Qed.

Lemma seq_good {S P} (I : S -> Prop) (Q : P -> Prop) (a : @Ctl P S)
  (b : S -> @Ctl P S) :
  good I Q a -> (forall s, I s -> good I Q (b s)) -> good I Q (seq a b).
Proof.
  destruct a as [s o|s o|s o|e s o]; simpl; try contradiction; auto.
  intros [Is Qo] Hb. specialize (Hb s Is).
  destruct (b s); simpl in *; try contradiction;
    destruct Hb; split; auto; apply Forall_app; auto.
Qed.

Lemma good_next_good {S P} (I : S -> Prop) (Q : P -> Prop) (c : @Ctl P S) :
  good_next I Q c -> good I Q c.
Proof. destruct c; simpl; tauto. Qed.

(** ** The first pass of [send_routes] *)

Lemma route_body_step poison force port kv h :
  route_body poison force port kv h
  = Next (fst (route_step poison force (port, kv) h))
         (snd (route_step poison force (port, kv) h)).
Proof.
  destruct kv as [key item].
  unfold route_body, route_step, adv_cost, advertise, transmit. simpl.
  destruct poison; simpl.
  - destruct (port =? fte_port item); destruct force; simpl; auto;
      destruct (stale _ _ _ _); auto.
  - destruct (port =? fte_port item); simpl; auto.
    destruct force; simpl; auto. destruct (stale _ _ _ _); auto.
Qed.

Lemma route_body_no_break poison force port :
  no_break (route_body poison force port).
Proof. intros kv s s' o. rewrite route_body_step. discriminate. Qed.

Lemma route_pass_sweep poison force ports fwd h :
  route_pass poison force ports fwd h
  = Next (fst (sweep (route_step poison force) (route_pairs ports fwd) h))
         (snd (sweep (route_step poison force) (route_pairs ports fwd) h)).
Proof.
  unfold route_pass, Dict.items, route_pairs.
  rewrite <- (for_each_sweep
                (fun (p : Port * (Host * ForwardingTableEntry)) s =>
                   route_body poison force (fst p) (snd p) s)).
  2:{ intros [port kv] s _. apply route_body_step. }
  rewrite <- (for_each_nested (route_body poison force)).
  2:{ intros a. apply route_body_no_break. }
  now rewrite for_each_map.
Qed.

(** Every packet of the first pass is the advertisement of some
    forwarding-table entry on some active port. *)
Lemma route_sweep_out poison force ps h pkt port :
  In (pkt, port) (snd (sweep (route_step poison force) ps h)) ->
  exists key item c,
    In (port, (key, item)) ps /\ adv_cost poison port item = Some c /\
    pkt = RoutePacket key c.
Proof.
  revert h. induction ps as [|[p [k it]] r IH]; intros h; simpl; [tauto|].
  destruct (route_step poison force (p, (k, it)) h) as [h' o] eqn:E.
  destruct (sweep _ r h') as [h'' o'] eqn:E'. simpl.
  intros I. apply in_app_iff in I. destruct I as [I|I].
  - unfold route_step in E. simpl in E.
    destruct (adv_cost poison p it) as [c|] eqn:A.
    + destruct (force || stale h p k c); inversion E; subst; [|destruct I].
      destruct I as [[= <- <-]|[]]. exists k, it, c. auto.
    + inversion E; subst. destruct I.
  - specialize (IH h'). rewrite E' in IH. destruct (IH I) as (k' & it' & c & X).
    exists k', it', c. intuition.
Qed.

Lemma route_pairs_In ports fwd port key item :
  In (port, (key, item)) (route_pairs ports fwd)
  <-> In port ports /\ In (key, item) fwd.
Proof.
  unfold route_pairs. rewrite in_flat_map. split.
  - intros ([p f] & I & M). apply in_map_iff in I.
    destruct I as (p' & [= -> ->] & I). simpl in M. apply in_map_iff in M.
    destruct M as (kv & [= -> ->] & M). auto.
  - intros [I M]. exists (port, fwd). split.
    + apply in_map_iff. eauto.
    + simpl. apply in_map_iff. eauto.
Qed.

(** A forced first pass sends exactly [forced_routes], whatever the
    history. *)
Lemma route_sweep_forced poison ps h :
  snd (sweep (route_step poison true) ps h)
  = flat_map
      (fun p : Port * (Host * ForwardingTableEntry) =>
         match adv_cost poison (fst p) (snd (snd p)) with
         | Some c => [(RoutePacket (fst (snd p)) c, fst p)]
         | None => []
         end) ps.
Proof.
  revert h. induction ps as [|p r IH]; intros h; simpl; auto.
  unfold route_step at 1. destruct (adv_cost poison _ _) as [c|]; simpl.
  - specialize (IH (Dict.set (fst p, fst (snd p))
                      (FTE (fst (snd p)) (fst p) c) h)).
    destruct (sweep _ r _). simpl in *. now rewrite IH.
  - specialize (IH h). destruct (sweep _ r h). simpl in *. now rewrite IH.
Qed.

(** ** The second pass of [send_routes] *)

Ltac quiet := simpl; unfold anyW; split; [exact Logic.I | constructor].

Lemma empty_table_check_good (Q : Send -> Prop) fwd port host w :
  good anyW Q (empty_table_check fwd port host w).
Proof.
  unfold empty_table_check.
  destruct (_ =? _)%nat; [|quiet].
  destruct (_ && _); [quiet|].
  destruct (elem _ _); quiet.
Qed.

Lemma drop_history_good (Q : Send -> Prop) port host w :
  Dict.has (port, host) (w_history w) = true ->
  good anyW Q (drop_history port host w).
Proof.
  intros H. unfold drop_history. apply del_has in H. destruct H as (d & ->).
  simpl. unfold anyW. auto.
Qed.

Lemma finite_loop_good (Q : Send -> Prop) port host fwd w :
  good anyW Q (for_each (finite_body port host) fwd w).
Proof.
  apply good_next_good. apply for_each_good; [|exact Logic.I].
  intros [key value] s _ _. unfold finite_body.
  destruct (negb (keq host key) && Dict.has (port, host) (w_history s)) eqn:E.
  - apply andb_true_iff in E. now apply drop_history_good.
  - destruct (keq host key); quiet.
Qed.

Lemma infinite_loop_good (Q : Send -> Prop) rfp port host fwd w :
  good anyW Q (for_each (infinite_body rfp port host) fwd w).
Proof.
  apply good_next_good. apply for_each_good; [|exact Logic.I].
  intros [key value] s _ _. unfold infinite_body.
  destruct (keq key host && (fte_port value =? port));
    [quiet|].
  destruct (Dict.has (port, host) (w_history s)) eqn:E;
    [|quiet].
  destruct (elem (host, port) rfp); [quiet|].
  now apply drop_history_good.
Qed.

Lemma forced_part_good (Q : Send -> Prop) fwd rfp port host w :
  good anyW Q (forced_part fwd rfp port host w).
Proof.
  unfold forced_part.
  destruct (Dict.get (port, host) (w_history w)) as [val|];
    [|quiet].
  destruct (negb (fte_latency val =? INFINITY)); apply seq_good;
    try apply empty_table_check_good; intros s _;
    [apply finite_loop_good | apply infinite_loop_good].
Qed.

Lemma poison_part_good removed ports rfp trickled port host w :
  In host (map fst removed) -> In port ports ->
  good anyW (withdrawal removed ports) (poison_part rfp trickled port host w).
Proof.
  intros Hh Hp. unfold poison_part.
  destruct (_ || _); [|quiet].
  destruct (elem (port, host) (w_temp w)); [quiet|].
  destruct (elem (host, port) rfp); [quiet|].
  destruct (elem (host, port) trickled); [quiet|].
  simpl. split; [exact Logic.I|]. repeat constructor.
  exists host, port. auto.
Qed.

Lemma withdraw_pass_good force fwd removed poisoned rfp trickled ports w :
  good_next anyW (withdrawal removed ports)
    (withdraw_pass force fwd removed poisoned rfp trickled ports w).
Proof.
  unfold withdraw_pass. apply for_each_good; [|exact Logic.I].
  intros rem s Ir _. apply good_next_good. apply for_each_good;
    [|exact Logic.I].
  intros port s' Ip _. unfold withdraw_body.
  destruct (negb force && negb (elem rem poisoned));
    [quiet|].
  apply seq_good.
  - destruct force; [apply forced_part_good | quiet].
  - intros s'' _. apply poison_part_good; auto. now apply in_map.
Qed.

(** ** [send_routes] as a whole *)

(** [send_routes] always completes: its output is the first pass's packets
    followed by the second pass's withdrawals, and its state is [settle]. *)
Lemma send_routes_shape st force :
  exists w o2,
    (if POISON_MODE st then
       withdraw_pass force (forwarding_table st) (removedHosts st)
         (poisonedHosts st) (removedFromPoisonedHosts st) (trickledHosts st)
         (Dict.keys (peer_tables st))
         (mkW (fst (sweep (route_step (POISON_MODE st) force)
                      (route_pairs (Dict.keys (peer_tables st))
                         (forwarding_table st)) (history st)))
              (emptyFwdTableList st) [])
       = Next w o2
     else
       w = mkW (fst (sweep (route_step (POISON_MODE st) force)
                       (route_pairs (Dict.keys (peer_tables st))
                          (forwarding_table st)) (history st)))
               (emptyFwdTableList st) []
       /\ o2 = []) /\
    Forall (withdrawal (removedHosts st) (Dict.keys (peer_tables st))) o2 /\
    send_routes st force
    = Next (settle st force w)
        (snd (sweep (route_step (POISON_MODE st) force)
                (route_pairs (Dict.keys (peer_tables st))
                   (forwarding_table st)) (history st)) ++ o2).
Proof.
  unfold send_routes. rewrite route_pass_sweep.
  destruct (sweep _ _ (history st)) as [h1 o1] eqn:E. cbn [fst snd lift seq].
  destruct st as [poison links peers fwd h removed empty poisoned keys rfp
                    trickled].
  cbn [POISON_MODE with_history forwarding_table removedHosts poisonedHosts
       removedFromPoisonedHosts trickledHosts peer_tables history
       emptyFwdTableList] in *.
  destruct poison.
  - pose proof (withdraw_pass_good force fwd removed poisoned rfp trickled
                  (Dict.keys peers) (mkW h1 empty [])) as G.
    apply good_next_inv in G. destruct G as (w & o2 & Ew & _ & Qo).
    exists w, o2. split; [exact Ew|]. split; [exact Qo|].
    rewrite Ew. cbn [lift seq emit]. unfold settle.
    cbn [POISON_MODE with_history with_emptyFwdTableList forwarding_table
         removedHosts poisonedHosts removedFromPoisonedHosts andb].
    destruct force; cbn [negb].
    + cbn [emit]. now rewrite app_nil_r.
    + destruct (retire _ _ _ _ _) as [p r]. cbn [emit fst snd].
      now rewrite app_nil_r.
  - exists (mkW h1 empty []), []. split; [auto|]. split; [constructor|].
    reflexivity.
Qed.

Lemma settle_frame st force w :
  POISON_MODE (settle st force w) = POISON_MODE st /\
  link_latency (settle st force w) = link_latency st /\
  peer_tables (settle st force w) = peer_tables st /\
  forwarding_table (settle st force w) = forwarding_table st /\
  removedHosts (settle st force w) = removedHosts st /\
  trickledHosts (settle st force w) = trickledHosts st /\
  history (settle st force w) = w_history w /\
  emptyFwdTableList (settle st force w) = w_empty w.
Proof.
  unfold settle. destruct (_ && _); cbn; repeat split; reflexivity.
Qed.

Lemma stale_set_other (h : History) (p p' : Port) (k k' : Host) (c' : Z)
  (e : ForwardingTableEntry) :
  (p, k) <> (p', k') ->
  stale (Dict.set (p, k) e h) p' k' c' = stale h p' k' c'.
Proof. intros N. unfold stale. now rewrite get_set_other. Qed.

(** A route whose advertisement is due on [P] is sent there by the first
    pass when forced or when the history does not already record it. *)
Lemma route_sweep_sends poison force ps h P D e c :
  In (P, (D, e)) ps ->
  (forall e', In (P, (D, e')) ps -> e' = e) ->
  adv_cost poison P e = Some c ->
  force = true \/ stale h P D c = true ->
  In (RoutePacket D c, P) (snd (sweep (route_step poison force) ps h)).
Proof.
  revert h. induction ps as [|[p [k it]] r IH]; intros h I U A F;
    [destruct I|].
  simpl. destruct (route_step poison force (p, (k, it)) h) as [h' o] eqn:E.
  destruct (sweep _ r h') as [h'' o'] eqn:E'. simpl.
  apply in_app_iff.
  destruct (keq_spec (p, k) (P, D)) as [Hq|Ne].
  - inversion Hq; subst p k. assert (it = e) by (apply U; now left). subst it.
    left. unfold route_step in E. simpl in E. rewrite A in E.
    assert (X : force || stale h P D c = true)
      by (destruct F as [-> | ->]; auto using orb_true_r).
    rewrite X in E. inversion E. now left.
  - right. specialize (IH h'). rewrite E' in IH. apply IH; auto.
    + destruct I as [I|I]; auto. inversion I; subst. congruence.
    + intros e' I'. apply U. now right.
    + destruct F as [F|F]; auto. right.
      unfold route_step in E. simpl in E.
      destruct (adv_cost poison p it); [|inversion E; subst; auto].
      destruct (force || stale h p k z); inversion E; subst; auto.
      now rewrite stale_set_other.
Qed.

(** C2.  When the forwarding table routes [D] via port [P], [send_routes]
    with either [force] never sends a finite cost for [D] on [P]: whatever
    it sends there for [D] carries INFINITY and is sent in poison mode only,
    so with POISON_MODE false nothing is sent for [D] on [P]; in poison mode
    the INFINITY advertisement does go out on an active [P] when forced, or
    when the history does not already record it. *)
Theorem send_routes_split_horizon (st : Router) (force : bool) (D : Host)
  (P : Port) (e : ForwardingTableEntry) :
  Dict.wf (forwarding_table st) ->
  Dict.get D (forwarding_table st) = Some e ->
  fte_port e = P ->
  exists st' out,
    send_routes st force = Next st' out /\
    (forall c, In (RoutePacket D c, P) out ->
               c = INFINITY /\ POISON_MODE st = true) /\
    (POISON_MODE st = false -> forall c, ~ In (RoutePacket D c, P) out) /\
    (POISON_MODE st = true ->
     In P (Dict.keys (peer_tables st)) ->
     force = true \/ stale (history st) P D INFINITY = true ->
     In (RoutePacket D INFINITY, P) out).
Proof.
  intros W G EP.
  destruct (send_routes_shape st force) as (w & o2 & Hw & Q & ->).
  do 2 eexists. split; [reflexivity|].
  assert (Fin : forall c,
             In (RoutePacket D c, P)
               (snd (sweep (route_step (POISON_MODE st) force)
                       (route_pairs (Dict.keys (peer_tables st))
                          (forwarding_table st)) (history st)) ++ o2) ->
             c = INFINITY /\ POISON_MODE st = true).
  { intros c I. apply in_app_iff in I. destruct I as [I|I].
    - apply route_sweep_out in I.
      destruct I as (key & item & c' & Ip & A & [= <- <-]).
      apply route_pairs_In in Ip. destruct Ip as [_ Ip].
      apply get_In in Ip; auto. rewrite G in Ip. inversion Ip; subst item.
      unfold adv_cost in A. rewrite EP, Z.eqb_refl in A.
      destruct (POISON_MODE st); [|discriminate]. inversion A; auto.
    - destruct (POISON_MODE st); [|destruct Hw as [_ ->]; destruct I].
      rewrite Forall_forall in Q. apply Q in I.
      destruct I as (host & port & [= <- <- <-] & _). auto. }
  split; [exact Fin|]. split.
  - intros NP c I. apply Fin in I. destruct I as [_ I]. congruence.
  - intros Po Act F. apply in_app_iff. left.
    apply route_sweep_sends with (e := e); auto.
    + apply route_pairs_In. split; auto. now apply get_Some_In.
    + intros e' I. apply route_pairs_In in I. destruct I as [_ I].
      apply get_In in I; auto. congruence.
    + unfold adv_cost. rewrite Po. subst P. now rewrite Z.eqb_refl.
Qed.

Lemma send_routes_split_horizon_witness :
  Dict.wf (forwarding_table (ex_routes true)) /\
  Dict.get "B"%string (forwarding_table (ex_routes true))
  = Some (FTE "B"%string 1 3) /\
  fte_port (FTE "B"%string 1 3) = 1 /\
  exists st' out,
    send_routes (ex_routes true) false = Next st' out /\
    (forall c, In (RoutePacket "B"%string c, 1) out ->
               c = INFINITY /\ POISON_MODE (ex_routes true) = true) /\
    (POISON_MODE (ex_routes true) = false ->
     forall c, ~ In (RoutePacket "B"%string c, 1) out) /\
    (POISON_MODE (ex_routes true) = true ->
     In 1 (Dict.keys (peer_tables (ex_routes true))) ->
     false = true \/ stale (history (ex_routes true)) 1 "B"%string INFINITY
                     = true ->
     In (RoutePacket "B"%string INFINITY, 1) out).
Proof.
  assert (W : Dict.wf (forwarding_table (ex_routes true)))
    by (apply nodupb_sound; reflexivity).
  split; [exact W|]. split; [reflexivity|]. split; [reflexivity|].
  exact (send_routes_split_horizon (ex_routes true) false "B"%string 1
           (FTE "B"%string 1 3) W eq_refl eq_refl).
Defined.

(** C10.  With POISON_MODE false, [send_routes] with either [force] sends
    advertisements only for destinations present in the forwarding table:
    the pass over [removedHosts] is not run, so a withdrawn destination is
    never announced. *)
Theorem split_horizon_only_no_withdrawal (st : Router) (force : bool) :
  POISON_MODE st = false ->
  exists st' out,
    send_routes st force = Next st' out /\
    forall pkt port,
      In (pkt, port) out ->
      exists D c,
        pkt = RoutePacket D c /\ In D (Dict.keys (forwarding_table st)).
Proof.
  intros NP.
  destruct (send_routes_shape st force) as (w & o2 & Hw & Q & ->).
  do 2 eexists. split; [reflexivity|].
  rewrite NP in Hw. destruct Hw as [_ ->]. rewrite app_nil_r.
  intros pkt port I. apply route_sweep_out in I.
  destruct I as (key & item & c & Ip & _ & ->).
  exists key, c. split; auto.
  apply route_pairs_In in Ip. destruct Ip as [_ Ip].
  change key with (fst (key, item)). now apply in_map.
Qed.

Lemma split_horizon_only_no_withdrawal_witness :
  POISON_MODE (ex_routes false) = false /\
  exists st' out,
    send_routes (ex_routes false) true = Next st' out /\
    forall pkt port,
      In (pkt, port) out ->
      exists D c,
        pkt = RoutePacket D c /\
        In D (Dict.keys (forwarding_table (ex_routes false))).
Proof.
  split; [reflexivity|].
  exact (split_horizon_only_no_withdrawal (ex_routes false) true eq_refl).
Defined.

(** The withdrawn "C" of the example is indeed not announced. *)
Example send_routes_ex_routes_split :
  output (send_routes (ex_routes false) true)
  = [(RoutePacket "B"%string 3, 2)].
Proof. reflexivity. Qed.

Lemma forced_routes_settle st force w :
  forced_routes (settle st force w) = forced_routes st.
Proof.
  unfold forced_routes.
  destruct (settle_frame st force w) as (-> & _ & -> & -> & _). reflexivity.
Qed.

(** The example state arises from four events on a fresh router. *)
Example ex_withdrawn_reachable :
  run (init true)
    [LinkUp 1 1; LinkUp 2 5; Advertisement 0 "B"%string 1 2; LinkDown 1]
  = Some ex_withdrawn.
Proof. reflexivity. Qed.

(** C6, as stated, fails: after the withdrawal of "B" a forced pass on an
    empty forwarding table sends INFINITY for "B" once and records the pair
    in [emptyFwdTableList]; the next forced pass breaks out and sends
    nothing. *)
Lemma forced_send_routes_differ :
  ~ (forall st1 out1 st2 out2,
        send_routes ex_withdrawn true = Next st1 out1 ->
        send_routes st1 true = Next st2 out2 ->
        Permutation out1 out2).
Proof.
  intros H.
  specialize (H _ _ _ _ eq_refl eq_refl).
  apply Permutation_length in H. discriminate H.
Qed.

(** ** Data packets *)

(** C7.  [handle_data_packet] sends the packet, unchanged, out of
    [forwarding_table[packet.dst].port] exactly when [packet.dst] is in the
    forwarding table with latency below INFINITY and a port other than
    [in_port]; otherwise it sends nothing; it never raises and never changes
    the router state. *)
Theorem handle_data_packet_forwards (st : Router) (packet : DataPacket)
  (in_port : Port) :
  state_of (handle_data_packet st packet in_port) = st /\
  ~ raises (handle_data_packet st packet in_port) /\
  ((exists e,
       forwardable st packet in_port e /\
       output (handle_data_packet st packet in_port)
       = [(Data packet, fte_port e)])
   \/
   ((forall e, ~ forwardable st packet in_port e) /\
    output (handle_data_packet st packet in_port) = [])).
Proof.
  unfold handle_data_packet, forwardable.
  destruct (Dict.get (dst packet) (forwarding_table st)) as [e|] eqn:G.
  - destruct (Z.leb_spec INFINITY (fte_latency e)) as [Ge|Lt].
    + simpl. repeat split; auto. right. split; auto.
      intros e' (Ge' & Lt' & _). inversion Ge'; subst. lia.
    + destruct (Z.eqb_spec (fte_port e) in_port) as [Ep|Np].
      * simpl. repeat split; auto. right. split; auto.
        intros e' (Ge' & _ & Np'). inversion Ge'; subst. congruence.
      * simpl. repeat split; auto. left. exists e. auto.
  - simpl. repeat split; auto. right. split; auto.
    intros e' (Ge' & _). discriminate.
Qed.

(** The scenario of a packet for an unknown destination. *)
Example handle_data_packet_unknown :
  handle_data_packet ex_static (mkData "A"%string "Z"%string "hello"%string) 3
  = Ret ex_static [].
Proof. reflexivity. Qed.

(** ** Route advertisements on a port that is down *)

(** C8, as stated, fails: an advertisement on a port without a peer table
    raises [KeyError]. *)
Lemma handle_route_advertisement_not_ignored :
  ~ (forall st now dst port route_latency,
        Dict.has port (peer_tables st) = false ->
        handle_route_advertisement st now dst port route_latency
        = Next st []).
Proof.
  intros H.
  specialize (H ex_withdrawn 0 "B"%string 1 2 eq_refl). discriminate H.
Qed.

(** C8, amended.  When [port] has no peer table,
    [handle_route_advertisement] raises [KeyError] at the peer-table lookup;
    up to that point it has changed no router state and sent nothing. *)
Theorem handle_route_advertisement_port_down (st : Router) (now : Z)
  (dst : Host) (port : Port) (route_latency : Z) :
  Dict.has port (peer_tables st) = false ->
  handle_route_advertisement st now dst port route_latency
  = Exc KeyError st [].
Proof.
  intros H. apply has_false in H.
  unfold handle_route_advertisement, store_entry. now rewrite H.
Qed.

Lemma handle_route_advertisement_port_down_witness :
  Dict.has 1 (peer_tables ex_withdrawn) = false /\
  handle_route_advertisement ex_withdrawn 0 "B"%string 1 2
  = Exc KeyError ex_withdrawn [].
Proof.
  split; [reflexivity|].
  exact (handle_route_advertisement_port_down ex_withdrawn 0 "B"%string 1 2
           eq_refl).
Defined.

(** ** Expiry *)

Example ex_static_reachable :
  run (init true)
    [LinkUp 1 1; LinkUp 2 5; StaticRoute "A"%string 1;
     Advertisement 0 "B"%string 2 2]
  = Some ex_static.
Proof. reflexivity. Qed.

(** C3, on the code: at time 20 the entry for "B" (expiry 15) is overdue,
    but the loop reaches the FOREVER entry for "A" first and returns;
    nothing is removed. *)
Theorem expire_routes_stops_at_static :
  past 20 (At 15) = true /\
  expire_routes ex_static 20 = Next ex_static [] /\
  Dict.get 2 (peer_tables ex_static)
  = Some [("B"%string, PTE "B"%string 2 (At 15))].
Proof. repeat split; reflexivity. Qed.

(** When the overdue entry happens to be visited first it is removed, and
    the forwarding table is rebuilt without "B", before the same return. *)
Example expire_routes_order_dependent :
  peer_tables (state_of (expire_routes ex_static_swapped 20))
  = [(2, []); (1, [("A"%string, PTE "A"%string 0 FOREVER)])] /\
  forwarding_table (state_of (expire_routes ex_static_swapped 20))
  = [("A"%string, FTE "A"%string 1 1)].
Proof. split; reflexivity. Qed.

(** The early return in general: when the first entry visited is a FOREVER
    entry, [expire_routes] changes nothing, whatever else has expired. *)
Lemma expire_routes_static_first (st : Router) (now : Z) port host value
  table rest :
  peer_tables st = (port, (host, value) :: table) :: rest ->
  pte_expire_time value = FOREVER ->
  expire_routes st now = Next st [].
Proof.
  intros E F. unfold expire_routes. rewrite E. simpl. now rewrite F.
Qed.

(** ** Latencies of received advertisements *)

Lemma in_set {K V} `{EqKey K} (k k' : K) (v v' : V) (d : @Dict.t K V) :
  In (k', v') (Dict.set k v d) -> (k', v') = (k, v) \/ In (k', v') d.
Proof.
  induction d as [|[k0 v0] r IH]; simpl.
  - intros [E|[]]. now left.
  - destruct (keq k k0); simpl; intros [E|I]; auto.
    destruct (IH I); auto.
Qed.

Lemma keys_set_present {K V} `{EqKey K} (k : K) (v : V) (d : @Dict.t K V) :
  Dict.has k d = true -> Dict.keys (Dict.set k v d) = Dict.keys d.
Proof. intros E. now rewrite keys_set, E. Qed.

Lemma store_entry_wf st port host pte t :
  tables_wf (peer_tables st) ->
  Dict.get port (peer_tables st) = Some t ->
  tables_wf (Dict.set port (Dict.set host pte t) (peer_tables st)).
Proof.
  intros [Wp Wt] G. split.
  - now apply wf_set.
  - intros P t' I. apply in_set in I. destruct I as [[= -> ->]|I].
    + apply wf_set. apply (Wt port). now apply get_Some_In.
    + eauto.
Qed.

Lemma merged_entry st D e :
  tables_wf (peer_tables st) ->
  links_cover (link_latency st) (peer_tables st) ->
  In (D, e)
    (fold_left (keep_visit (link_latency st)) (visits (peer_tables st)) []) ->
  exists t pe l,
    Dict.get (fte_port e) (peer_tables st) = Some t /\
    Dict.get D t = Some pe /\
    Dict.get (fte_port e) (link_latency st) = Some l /\
    fte_latency e = Z.min (l + pte_latency pe) INFINITY.
Proof.
  intros W L I. destruct (merged_best st L) as [Wf B].
  apply get_In in I; auto. specialize (B D). rewrite I in B.
  destruct B as (_ & pre & post & E & _).
  apply (offers_sound st D); auto. unfold offers. rewrite E.
  apply in_app_iff. right. now left.
Qed.

(** C9, as stated, fails: a neighbour's latency of 100 is stored as 100. *)
Lemma handle_route_advertisement_not_clamped :
  ~ (forall st' out,
        handle_route_advertisement ex_up 0 "B"%string 1 100 = Next st' out ->
        forall P t D e,
          Dict.get P (peer_tables st') = Some t ->
          Dict.get D t = Some e ->
          0 <= pte_latency e <= INFINITY).
Proof.
  intros H.
  specialize (H _ _ eq_refl 1 _ "B"%string _ eq_refl eq_refl).
  simpl in H. unfold INFINITY in H. lia.
Qed.

(** A negative latency reaches the forwarding table too: the cap is only
    from above. *)
Example handle_route_advertisement_negative :
  forwarding_table
    (state_of (handle_route_advertisement ex_up 0 "B"%string 1 (-5)))
  = [("B"%string, FTE "B"%string 1 (-4))].
Proof. reflexivity. Qed.

(** C9, amended.  On an active port [handle_route_advertisement] stores the
    latency exactly as received, without clamping; after the recomputation
    every forwarding-table latency is at most INFINITY, and it is
    non-negative when the link latencies and the stored peer latencies
    are. *)
Theorem handle_route_advertisement_latencies (st : Router) (now : Z)
  (dst : Host) (port : Port) (route_latency : Z) :
  tables_wf (peer_tables st) ->
  links_cover (link_latency st) (peer_tables st) ->
  Dict.has port (peer_tables st) = true ->
  exists st' out,
    handle_route_advertisement st now dst port route_latency = Next st' out /\
    (exists t,
        Dict.get port (peer_tables st') = Some t /\
        Dict.get dst t = Some (PTE dst route_latency (At (now + ROUTE_TTL)))) /\
    (forall D e, In (D, e) (forwarding_table st') ->
                 fte_latency e <= INFINITY) /\
    ((forall P l, In (P, l) (link_latency st') -> 0 <= l) ->
     (forall P t D e,
         In (P, t) (peer_tables st') -> In (D, e) t -> 0 <= pte_latency e) ->
     forall D e, In (D, e) (forwarding_table st') -> 0 <= fte_latency e).
Proof.
  intros W L Hp. unfold handle_route_advertisement, store_entry.
  unfold Dict.has in Hp.
  destruct (Dict.get port (peer_tables st)) as [t|] eqn:G; [|discriminate].
  cbn [seq emit].
  set (pte := PTE dst route_latency (At (now + ROUTE_TTL))).
  set (st1 := with_peer_tables _ st).
  assert (W1 : tables_wf (peer_tables st1)) by now apply store_entry_wf.
  assert (L1 : links_cover (link_latency st1) (peer_tables st1)).
  { intros P I. apply L. unfold st1 in I.
    cbn [peer_tables with_peer_tables] in I.
    rewrite keys_set_present in I; auto. unfold Dict.has. now rewrite G. }
  rewrite (update_forwarding_table_fold st1 W1 L1). cbn [seq emit].
  set (st2 := with_forwarding_table _ st1).
  destruct (send_routes_shape st2 false) as (w & o2 & _ & _ & ->).
  cbn [emit app]. do 2 eexists. split; [reflexivity|].
  destruct (settle_frame st2 false w) as (_ & -> & -> & -> & _).
  assert (Ep : peer_tables st2
               = Dict.set port (Dict.set dst pte t) (peer_tables st))
    by reflexivity.
  assert (Ef : forwarding_table st2
               = fold_left (keep_visit (link_latency st1))
                   (visits (peer_tables st1)) []) by reflexivity.
  assert (El : link_latency st2 = link_latency st1) by reflexivity.
  assert (Ep1 : peer_tables st2 = peer_tables st1) by reflexivity.
  rewrite Ef, El. split; [|split].
  - exists (Dict.set dst pte t). rewrite Ep. now rewrite !get_set_same.
  - intros D e I. apply (merged_entry st1) in I; auto.
    destruct I as (t' & pe & l & _ & _ & _ & ->). lia.
  - rewrite Ep1. intros Hl Hpe D e I. apply (merged_entry st1) in I; auto.
    destruct I as (t' & pe & l & Gt & Ge & Gl & ->).
    apply get_Some_In in Gt, Ge, Gl.
    specialize (Hl _ _ Gl). specialize (Hpe _ _ _ _ Gt Ge).
    unfold INFINITY. lia.
Qed.

Lemma handle_route_advertisement_latencies_witness :
  tables_wf (peer_tables ex_up) /\
  links_cover (link_latency ex_up) (peer_tables ex_up) /\
  Dict.has 1 (peer_tables ex_up) = true /\
  exists st' out,
    handle_route_advertisement ex_up 0 "B"%string 1 100 = Next st' out /\
    (exists t,
        Dict.get 1 (peer_tables st') = Some t /\
        Dict.get "B"%string t
        = Some (PTE "B"%string 100 (At (0 + ROUTE_TTL)))) /\
    (forall D e, In (D, e) (forwarding_table st') ->
                 fte_latency e <= INFINITY) /\
    ((forall P l, In (P, l) (link_latency st') -> 0 <= l) ->
     (forall P t D e,
         In (P, t) (peer_tables st') -> In (D, e) t -> 0 <= pte_latency e) ->
     forall D e, In (D, e) (forwarding_table st') -> 0 <= fte_latency e).
Proof.
  assert (W : tables_wf (peer_tables ex_up))
    by (apply tables_wfb_sound; reflexivity).
  assert (L : links_cover (link_latency ex_up) (peer_tables ex_up))
    by (apply links_coverb_sound; reflexivity).
  split; [exact W|]. split; [exact L|]. split; [reflexivity|].
  exact (handle_route_advertisement_latencies ex_up 0 "B"%string 1 100
           W L eq_refl).
Defined.

(** ** Suppression of repeated advertisements *)

Example ex_reroute_before_reachable :
  run (init true)
    [LinkUp 1 1; LinkUp 2 5; LinkUp 4 1; Advertisement 0 "B"%string 1 2;
     LinkDown 1; Timer 1; LinkUp 3 1; Advertisement 2 "C"%string 3 1;
     Advertisement 2 "C"%string 2 1]
  = Some ex_reroute_before.
Proof. reflexivity. Qed.

(** [handle_link_down] on that state calls [send_routes] in the state
    [ex_reroute], having sent nothing before. *)
Example ex_reroute_reachable :
  handle_link_down ex_reroute_before 3 = send_routes ex_reroute false.
Proof. reflexivity. Qed.

(** The second of two unforced calls in that state is therefore not
    silent. *)
Lemma send_routes_twice_not_quiet :
  ~ (forall st1 out1 st2 out2,
        send_routes ex_reroute false = Next st1 out1 ->
        send_routes st1 false = Next st2 out2 ->
        out2 = []).
Proof.
  intros H. specialize (H _ _ _ _ eq_refl eq_refl). discriminate H.
Qed.

(** C5, on the code: in the state in which [handle_link_down] calls
    [send_routes], "C" is routed via port 2 at cost 6 and
    [emptyFwdTableList] still lists two pairs for "B".  The unforced call
    advertises "C" (INFINITY on port 2, cost 6 on port 4) and then withdraws
    it on both ports, although it is in the forwarding table and the
    history has just recorded the advertisements; the next unforced call,
    with nothing in between, sends cost 6 on port 4 again.  With
    [emptyFwdTableList] empty the same state sends each advertisement once
    and nothing the second time, and the forced call does not withdraw
    "C". *)
Theorem send_routes_resends_recorded :
  emptyFwdTableList ex_reroute = [(2, "B"%string); (4, "B"%string)] /\
  Dict.get "C"%string (forwarding_table ex_reroute)
  = Some (FTE "C"%string 2 6) /\
  output (send_routes ex_reroute false)
  = [(RoutePacket "C"%string 16, 2); (RoutePacket "C"%string 6, 4);
     (RoutePacket "C"%string 16, 2); (RoutePacket "C"%string 16, 4)] /\
  output (send_routes (state_of (send_routes ex_reroute false)) false)
  = [(RoutePacket "C"%string 6, 4)] /\
  output (send_routes (with_emptyFwdTableList [] ex_reroute) false)
  = [(RoutePacket "C"%string 16, 2); (RoutePacket "C"%string 6, 4)] /\
  output (send_routes
            (state_of (send_routes (with_emptyFwdTableList [] ex_reroute)
                         false)) false)
  = [] /\
  output (send_routes ex_reroute true)
  = [(RoutePacket "C"%string 16, 2); (RoutePacket "C"%string 6, 4);
     (RoutePacket "B"%string 16, 2); (RoutePacket "B"%string 16, 4)].
Proof. repeat split; reflexivity. Qed.

Lemma stale_set_same (h : History) (p : Port) (k : Host) (c : Z) :
  stale (Dict.set (p, k) (FTE k p c) h) p k c = false.
Proof.
  unfold stale. rewrite get_set_same. simpl.
  now rewrite keq_refl, Z.eqb_refl.
Qed.

Lemma stale_extends h h' p k c :
  extends h h' -> stale h p k c = false -> stale h' p k c = false.
Proof.
  intros X. unfold stale.
  destruct (Dict.get (p, k) h) as [e|] eqn:G; [|discriminate].
  now rewrite (X _ _ G).
Qed.

Lemma extends_refl h : extends h h.
Proof. intros k v G. exact G. Qed.

Lemma extends_trans h1 h2 h3 :
  extends h1 h2 -> extends h2 h3 -> extends h1 h3.
Proof. intros A B k v G. auto. Qed.

Lemma extends_set_absent (h : History) k e :
  Dict.has k h = false -> extends h (Dict.set k e h).
Proof.
  intros A k' v G. rewrite get_set_other; auto.
  intros <-. apply has_false in A. congruence.
Qed.

Lemma recorded_extends o h h' :
  extends h h' -> recorded o h -> recorded o h'.
Proof. intros X R host c port I. eapply stale_extends; eauto. Qed.

Lemma recorded_nil h : recorded [] h.
Proof. intros host c port []. Qed.

Lemma recorded_app o o' h :
  recorded o h -> recorded o' h -> recorded (o ++ o') h.
Proof.
  intros A B host c port I. apply in_app_iff in I. destruct I; eauto.
Qed.

(** *** First pass, not forced *)

Lemma route_step_keeps poison p k it h pp kk c :
  stale h pp kk c = false ->
  ((pp, kk) = (p, k) -> adv_cost poison p it = Some c) ->
  stale (fst (route_step poison false (p, (k, it)) h)) pp kk c = false.
Proof.
  intros S U. unfold route_step. simpl.
  destruct (adv_cost poison p it) as [c0|] eqn:A; auto.
  destruct (keq_spec (pp, kk) (p, k)) as [Hq|Ne].
  - inversion Hq; subst pp kk. specialize (U eq_refl). inversion U; subst c0.
    rewrite S. simpl. exact S.
  - destruct (stale h p k c0); simpl; auto.
    rewrite stale_set_other; auto.
Qed.

Lemma route_sweep_keeps poison ps h pp kk c :
  stale h pp kk c = false ->
  (forall it, In (pp, (kk, it)) ps -> adv_cost poison pp it = Some c) ->
  stale (fst (sweep (route_step poison false) ps h)) pp kk c = false.
Proof.
  revert h. induction ps as [|[p [k it]] r IH]; intros h S U; simpl; auto.
  pose proof (route_step_keeps poison p k it h pp kk c S) as K.
  destruct (route_step poison false (p, (k, it)) h) as [h' o]. simpl in K.
  specialize (IH h'). destruct (sweep _ r h') as [h'' o']. simpl in *.
  apply IH.
  - apply K. intros [= -> ->]. apply U. now left.
  - intros it' I. apply U. now right.
Qed.

Lemma route_step_records poison p k it h c :
  adv_cost poison p it = Some c ->
  stale (fst (route_step poison false (p, (k, it)) h)) p k c = false.
Proof.
  intros A. unfold route_step. simpl. rewrite A.
  destruct (stale h p k c) eqn:S; simpl; auto. apply stale_set_same.
Qed.

(** After an unforced first pass the history records every due
    advertisement, provided a (port, destination) pair has one entry. *)
Lemma route_sweep_settles poison ps h :
  (forall p k it it',
      In (p, (k, it)) ps -> In (p, (k, it')) ps -> it = it') ->
  settled poison ps (fst (sweep (route_step poison false) ps h)).
Proof.
  revert h. induction ps as [|[p [k it]] r IH]; intros h U; [intros ? ? ? ? []|].
  intros pp kk it' c I A. simpl.
  pose proof (route_step_records poison p k it h) as Rc.
  destruct (route_step poison false (p, (k, it)) h) as [h' o]. simpl in Rc.
  specialize (IH h').
  pose proof (route_sweep_keeps poison r h' pp kk c) as K.
  destruct (sweep _ r h') as [h'' o']. simpl in *.
  destruct I as [I|I].
  - inversion I; subst pp kk it'. apply K; auto.
    intros it2 I2.
    rewrite (U p k it2 it) by (simpl; auto). exact A.
  - apply (IH (fun p0 k0 a b Ia Ib => U p0 k0 a b (or_intror Ia)
                                        (or_intror Ib)) pp kk it' c I A).
Qed.

Lemma route_sweep_quiet poison ps h :
  settled poison ps h -> sweep (route_step poison false) ps h = (h, []).
Proof.
  induction ps as [|[p [k it]] r IH]; intros S; simpl; auto.
  unfold route_step at 1. simpl.
  destruct (adv_cost poison p it) as [c|] eqn:A.
  - rewrite (S p k it c) by (simpl; auto). rewrite IH; auto.
    intros p0 k0 it0 c0 I. apply S. now right.
  - rewrite IH; auto. intros p0 k0 it0 c0 I. apply S. now right.
Qed.

Lemma route_sweep_recorded poison ps h :
  (forall p k it it',
      In (p, (k, it)) ps -> In (p, (k, it')) ps -> it = it') ->
  recorded (snd (sweep (route_step poison false) ps h))
    (fst (sweep (route_step poison false) ps h)).
Proof.
  intros U host c port I. apply route_sweep_out in I.
  destruct I as (key & item & c' & Ip & A & [= -> ->]).
  exact (route_sweep_settles poison ps h U port key item c' Ip A).
Qed.

Lemma route_pairs_functional ports (fwd : ForwardingTable) :
  Dict.wf fwd ->
  forall p k it it',
    In (p, (k, it)) (route_pairs ports fwd) ->
    In (p, (k, it')) (route_pairs ports fwd) -> it = it'.
Proof.
  intros W p k it it' I I'. apply route_pairs_In in I, I'.
  destruct I as [_ I], I' as [_ I'].
  apply get_In in I, I'; auto. congruence.
Qed.

(** *** Second pass, not forced, [emptyFwdTableList] empty *)

Lemma poison_part_step rfp trickled port host h :
  poison_part rfp trickled port host (mkW h [] [])
  = Next (mkW (fst (wd_step rfp trickled host port h)) [] [])
         (snd (wd_step rfp trickled host port h)).
Proof.
  unfold poison_part, wd_step, covered. cbn [w_history w_empty w_temp].
  change (elem (port, host) []) with false.
  change (negb (List.length (@nil (Port * Host)) =? 0)%nat) with false.
  rewrite orb_false_r.
  destruct (Dict.has (port, host) h); cbn [negb orb]; auto.
  destruct (elem (host, port) rfp); cbn [orb]; auto.
  destruct (elem (host, port) trickled); auto.
Qed.

Lemma withdraw_inner_in fwd poisoned rfp trickled rem :
  elem rem poisoned = true ->
  forall ports h,
    for_each (withdraw_body false fwd poisoned rfp trickled rem) ports
      (mkW h [] [])
    = Next (mkW (fst (sweep (wd_step rfp trickled (fst rem)) ports h)) [] [])
           (snd (sweep (wd_step rfp trickled (fst rem)) ports h)).
Proof.
  intros E. induction ports as [|port r IH]; intros h; [reflexivity|].
  cbn [for_each sweep]. unfold withdraw_body at 1. rewrite E.
  cbn [negb andb seq emit]. rewrite emit_nil, poison_part_step.
  destruct (wd_step rfp trickled (fst rem) port h) as [h' o].
  cbn [fst snd]. rewrite IH.
  destruct (sweep _ r h') as [h'' o']. reflexivity.
Qed.

Lemma withdraw_inner_out fwd poisoned rfp trickled rem :
  elem rem poisoned = false ->
  forall ports w,
    for_each (withdraw_body false fwd poisoned rfp trickled rem) ports w
    = Next w [].
Proof.
  intros E ports w. destruct ports as [|port r]; [reflexivity|].
  cbn [for_each]. unfold withdraw_body. now rewrite E.
Qed.

Lemma withdraw_pass_sweep fwd removed poisoned rfp trickled ports h :
  withdraw_pass false fwd removed poisoned rfp trickled ports (mkW h [] [])
  = Next (mkW (fst (sweep (wd_rem poisoned rfp trickled ports) removed h))
              [] [])
         (snd (sweep (wd_rem poisoned rfp trickled ports) removed h)).
Proof.
  unfold withdraw_pass. revert h.
  induction removed as [|rem r IH]; intros h; [reflexivity|].
  cbn [for_each sweep]. unfold wd_rem at 1 3.
  destruct (elem rem poisoned) eqn:E.
  - rewrite withdraw_inner_in by exact E.
    destruct (sweep (wd_step _ _ _) ports h) as [h' o]. cbn [fst snd].
    rewrite IH. destruct (sweep _ r h') as [h'' o']. reflexivity.
  - rewrite withdraw_inner_out by exact E. rewrite IH.
    destruct (sweep _ r h) as [h'' o']. reflexivity.
Qed.

Lemma sweep_acc {X S P} (J : S -> list P -> Prop)
  (step : X -> S -> S * list P) (xs : list X) :
  (forall x s o, In x xs -> J s o ->
                 J (fst (step x s)) (o ++ snd (step x s))) ->
  forall s o, J s o ->
              J (fst (sweep step xs s)) (o ++ snd (sweep step xs s)).
Proof.
  induction xs as [|x r IH]; intros Hs s o Js; simpl.
  - now rewrite app_nil_r.
  - pose proof (Hs x s o (or_introl eq_refl) Js) as J1.
    destruct (step x s) as [s' o1]. simpl in J1.
    specialize (IH (fun y t q Iy => Hs y t q (or_intror Iy)) s' _ J1).
    destruct (sweep step r s') as [s'' o2]. simpl in *.
    now rewrite app_assoc.
Qed.

Lemma wd_step_acc rfp trickled host port h0 h o :
  extends h0 h /\ recorded o h ->
  extends h0 (fst (wd_step rfp trickled host port h)) /\
  recorded (o ++ snd (wd_step rfp trickled host port h))
    (fst (wd_step rfp trickled host port h)).
Proof.
  intros [X R]. unfold wd_step, covered.
  destruct (Dict.has (port, host) h) eqn:Hh; cbn [orb fst snd].
  - rewrite app_nil_r. auto.
  - destruct (_ || _); cbn [fst snd]; [rewrite app_nil_r; auto|].
    pose proof (extends_set_absent h (port, host) (FTE host port INFINITY) Hh)
      as X'.
    split; [eapply extends_trans; eauto|].
    apply recorded_app; [eapply recorded_extends; eauto|].
    intros host' c port' [[= <- <- <-]|[]]. apply stale_set_same.
Qed.

Lemma wd_rem_acc poisoned rfp trickled ports rem h0 h o :
  extends h0 h /\ recorded o h ->
  extends h0 (fst (wd_rem poisoned rfp trickled ports rem h)) /\
  recorded (o ++ snd (wd_rem poisoned rfp trickled ports rem h))
    (fst (wd_rem poisoned rfp trickled ports rem h)).
Proof.
  intros J. unfold wd_rem. destruct (elem rem poisoned).
  - apply (sweep_acc (fun h o => extends h0 h /\ recorded o h)); auto.
    intros port s q _. apply wd_step_acc.
  - cbn [fst snd]. now rewrite app_nil_r.
Qed.

Lemma wd_sweep_acc poisoned rfp trickled ports removed h0 h o :
  extends h0 h /\ recorded o h ->
  extends h0 (fst (sweep (wd_rem poisoned rfp trickled ports) removed h)) /\
  recorded (o ++ snd (sweep (wd_rem poisoned rfp trickled ports) removed h))
    (fst (sweep (wd_rem poisoned rfp trickled ports) removed h)).
Proof.
  apply (sweep_acc (fun h o => extends h0 h /\ recorded o h)).
  intros rem s q _. apply wd_rem_acc.
Qed.

Lemma covered_extends rfp trickled h h' host port :
  extends h h' ->
  covered rfp trickled h host port = true ->
  covered rfp trickled h' host port = true.
Proof.
  intros X C. unfold covered in *. apply orb_true_iff in C.
  destruct C as [C|C]; [apply orb_true_iff in C; destruct C as [C|C]|].
  - unfold Dict.has in *.
    destruct (Dict.get (port, host) h) as [e|] eqn:G; [|discriminate].
    now rewrite (X _ _ G).
  - rewrite C. now rewrite orb_true_r.
  - rewrite C. now rewrite orb_true_r.
Qed.

Lemma wd_step_covers rfp trickled host port h :
  covered rfp trickled (fst (wd_step rfp trickled host port h)) host port
  = true.
Proof.
  unfold wd_step. destruct (covered rfp trickled h host port) eqn:C; auto.
  cbn [fst]. unfold covered, Dict.has. now rewrite get_set_same.
Qed.

Lemma wd_ports_cover rfp trickled host ports h port :
  In port ports ->
  covered rfp trickled (fst (sweep (wd_step rfp trickled host) ports h))
    host port = true.
Proof.
  revert h. induction ports as [|p r IH]; intros h I; [destruct I|].
  simpl. pose proof (wd_step_covers rfp trickled host p h) as C.
  destruct (wd_step rfp trickled host p h) as [h' o]. simpl in C.
  specialize (IH h').
  pose proof (sweep_acc (fun s q => extends h' s /\ recorded q s)
                (wd_step rfp trickled host) r
                (fun x s q _ => wd_step_acc rfp trickled host x h' s q)
                h' [] (conj (extends_refl h') (recorded_nil h')))
    as [X _].
  destruct (sweep _ r h') as [h'' o']. simpl in *.
  destruct I as [<-|I]; auto. eapply covered_extends; eauto.
Qed.

(** After the pass no withdrawal is due for a poisoned [rem] on any port. *)
Lemma wd_sweep_covers poisoned rfp trickled ports removed h rem port :
  In rem removed -> elem rem poisoned = true -> In port ports ->
  covered rfp trickled
    (fst (sweep (wd_rem poisoned rfp trickled ports) removed h))
    (fst rem) port = true.
Proof.
  intros Ir E Ip. revert h.
  induction removed as [|x r IH]; intros h; [destruct Ir|].
  simpl.
  assert (C : x = rem ->
              covered rfp trickled
                (fst (wd_rem poisoned rfp trickled ports x h))
                (fst rem) port = true).
  { intros ->. unfold wd_rem. rewrite E. now apply wd_ports_cover. }
  destruct (wd_rem poisoned rfp trickled ports x h) as [h' o]. simpl in C.
  pose proof (wd_sweep_acc poisoned rfp trickled ports r h' h' []
                (conj (extends_refl h') (recorded_nil h')))
    as [X _].
  destruct (sweep _ r h') as [h'' o'] eqn:Hs. simpl in *.
  destruct Ir as [Hx|Ir].
  - eapply covered_extends; eauto.
  - specialize (IH Ir h'). rewrite Hs in IH. exact IH.
Qed.

Lemma wd_ports_quiet rfp trickled host ports h :
  (forall port, In port ports -> covered rfp trickled h host port = true) ->
  sweep (wd_step rfp trickled host) ports h = (h, []).
Proof.
  induction ports as [|p r IH]; intros C; simpl; auto.
  unfold wd_step at 1. rewrite C by now left.
  rewrite IH; auto. intros port I. apply C. now right.
Qed.

Lemma wd_sweep_quiet poisoned rfp trickled ports removed h :
  (forall rem port,
      In rem removed -> elem rem poisoned = true -> In port ports ->
      covered rfp trickled h (fst rem) port = true) ->
  sweep (wd_rem poisoned rfp trickled ports) removed h = (h, []).
Proof.
  induction removed as [|x r IH]; intros C; simpl; auto.
  unfold wd_rem at 1. destruct (elem x poisoned) eqn:E.
  - rewrite wd_ports_quiet by (intros port I; apply C; simpl; auto).
    rewrite IH; auto. intros rem port I. apply C. now right.
  - rewrite IH; auto. intros rem port I. apply C. now right.
Qed.

Lemma elem_incl {K} `{EqKey K} (x : K) l l' :
  incl l l' -> elem x l = true -> elem x l' = true.
Proof. intros I E. apply elem_In. apply I. now apply elem_In. Qed.

Lemma covered_incl rfp rfp' trickled h host port :
  incl rfp rfp' ->
  covered rfp trickled h host port = true ->
  covered rfp' trickled h host port = true.
Proof.
  intros I C. unfold covered in *. apply orb_true_iff in C.
  destruct C as [C|C]; [apply orb_true_iff in C; destruct C as [C|C]|].
  - now rewrite C.
  - rewrite (elem_incl _ _ _ I C). now rewrite orb_true_r.
  - rewrite C. now rewrite orb_true_r.
Qed.

Lemma remove_first_incl {K} `{EqKey K} (x : K) l : incl (remove_first x l) l.
Proof.
  induction l as [|y r IH]; simpl; [apply incl_refl|].
  destruct (keq x y).
  - apply incl_tl, incl_refl.
  - intros z [<-|I]; [now left | right; auto].
Qed.

(** The retiring loop only shrinks [poisonedHosts] and only grows
    [removedFromPoisonedHosts]. *)
Lemma retire_incl fuel removed :
  forall i p r,
    incl (fst (retire fuel removed i p r)) p /\
    incl r (snd (retire fuel removed i p r)).
Proof.
  induction fuel as [|f IH]; intros i p r; simpl.
  - split; apply incl_refl.
  - destruct (nth_error p i) as [el|]; [|split; apply incl_refl].
    destruct (elem el removed).
    + destruct (IH (S i) (remove_first el p) (r ++ [el])) as [A B]. split.
      * eapply incl_tran; [exact A | apply remove_first_incl].
      * eapply incl_tran; [|exact B]. apply incl_appl, incl_refl.
    + apply IH.
Qed.

Lemma settle_lists st w :
  incl (poisonedHosts (settle st false w)) (poisonedHosts st) /\
  incl (removedFromPoisonedHosts st)
       (removedFromPoisonedHosts (settle st false w)).
Proof.
  unfold settle. destruct (_ && _); cbn.
  - apply retire_incl.
  - split; apply incl_refl.
Qed.

(** Away from that state the suppression works: when POISON_MODE is false
    or [emptyFwdTableList] is empty, two successive unforced [send_routes]
    calls with nothing in between send nothing the second time, and every
    advertisement the first call sent is what the history records for its
    port and destination at the end of that call. *)
Theorem send_routes_twice_quiet (st : Router) :
  Dict.wf (forwarding_table st) ->
  POISON_MODE st = false \/ emptyFwdTableList st = [] ->
  exists st1 out1 st2,
    send_routes st false = Next st1 out1 /\
    send_routes st1 false = Next st2 [] /\
    recorded out1 (history st1).
Proof.
  intros W Hc.
  destruct (send_routes_shape st false) as (w & o2 & Hw & _ & E1).
  destruct (send_routes_shape (settle st false w) false)
    as (w' & o2' & Hw' & _ & E2).
  destruct (settle_frame st false w)
    as (Fp & _ & Fpeers & Ffwd & Frem & Ftr & Fh & Fe).
  destruct (settle_lists st w) as [Ipo Irf].
  rewrite Fp, Fpeers, Ffwd, Fh in E2.
  rewrite Fp, Fpeers, Ffwd, Frem, Ftr, Fh, Fe in Hw'.
  set (ps := route_pairs (Dict.keys (peer_tables st)) (forwarding_table st))
    in *.
  pose proof (route_pairs_functional (Dict.keys (peer_tables st))
                (forwarding_table st) W) as U. fold ps in U.
  pose proof (route_sweep_settles (POISON_MODE st) ps (history st) U) as St.
  pose proof (route_sweep_recorded (POISON_MODE st) ps (history st) U) as Rc.
  destruct (sweep (route_step (POISON_MODE st) false) ps (history st))
    as [h1 o1] eqn:Es.
  cbn [fst snd] in *.
  exists (settle st false w), (o1 ++ o2).
  assert (G : extends h1 (w_history w) /\ recorded (o1 ++ o2) (w_history w) /\
              o2' = [] /\
              (POISON_MODE st = true -> w_empty w = [])).
  { destruct (POISON_MODE st) eqn:Po.
    - destruct Hc as [Hc|Hc]; [discriminate|]. rewrite Hc in Hw.
      rewrite withdraw_pass_sweep in Hw.
      pose proof (wd_sweep_acc (poisonedHosts st)
                    (removedFromPoisonedHosts st) (trickledHosts st)
                    (Dict.keys (peer_tables st)) (removedHosts st) h1 h1 o1
                    (conj (extends_refl h1) Rc)) as [X R].
      pose proof (fun rem port =>
                    wd_sweep_covers (poisonedHosts st)
                      (removedFromPoisonedHosts st) (trickledHosts st)
                      (Dict.keys (peer_tables st)) (removedHosts st) h1
                      rem port) as Cv.
      destruct (sweep (wd_rem _ _ _ _) (removedHosts st) h1) as [h2 o2s].
      cbn [fst snd] in *. inversion Hw; subst w o2. cbn [w_history w_empty].
      split; [exact X|]. split; [exact R|]. split; [|auto].
      cbn [w_history w_empty] in Hw'.
      rewrite withdraw_pass_sweep in Hw'.
      rewrite wd_sweep_quiet in Hw'.
      + cbn [fst snd] in Hw'. now inversion Hw'.
      + intros rem port Ir E Ip. apply covered_incl with (1 := Irf).
        rewrite route_sweep_quiet.
        * cbn [fst]. apply Cv; auto.
          eapply elem_incl; [exact Ipo | exact E].
        * intros p k it c I A. eapply stale_extends; eauto.
    - destruct Hw as [-> ->]. cbn [w_history]. rewrite app_nil_r.
      split; [apply extends_refl|]. split; [exact Rc|].
      split; [apply Hw'|discriminate]. }
  destruct G as (X & R & -> & _).
  assert (Q : sweep (route_step (POISON_MODE st) false) ps (w_history w)
              = (w_history w, [])).
  { apply route_sweep_quiet. intros p k it c I A.
    eapply stale_extends; eauto. }
  rewrite Q in E2. cbn [snd app] in E2.
  eexists. split; [exact E1|]. split; [exact E2|].
  now rewrite Fh.
Qed.

Lemma send_routes_twice_quiet_witness :
  Dict.wf (forwarding_table (ex_routes true)) /\
  (POISON_MODE (ex_routes true) = false \/
   emptyFwdTableList (ex_routes true) = []) /\
  exists st1 out1 st2,
    send_routes (ex_routes true) false = Next st1 out1 /\
    send_routes st1 false = Next st2 [] /\
    recorded out1 (history st1).
Proof.
  assert (W : Dict.wf (forwarding_table (ex_routes true)))
    by (apply nodupb_sound; reflexivity).
  split; [exact W|]. split; [right; reflexivity|].
  exact (send_routes_twice_quiet (ex_routes true) W (or_intror eq_refl)).
Defined.

Example send_routes_twice_ex_routes :
  output (send_routes (ex_routes true) false)
  = [(RoutePacket "B"%string 16, 1); (RoutePacket "B"%string 3, 2);
     (RoutePacket "C"%string 16, 1); (RoutePacket "C"%string 16, 2)] /\
  output (send_routes (state_of (send_routes (ex_routes true) false)) false)
  = [].
Proof. split; reflexivity. Qed.

(** ** Link down *)

Example ex_relearned_reachable :
  run ex_withdrawn [LinkUp 1 1; Advertisement 0 "B"%string 1 2]
  = Some ex_relearned.
Proof. reflexivity. Qed.

(** C4, as stated, fails: "B" was withdrawn once before via port 1, so the
    pair is already in [removedHosts] and is not put back into
    [poisonedHosts]; when link 1 goes down again, the only route to "B" is
    lost but nothing is sent on the other active port, 2. *)
Lemma handle_link_down_repeat_not_poisoned :
  ~ (forall st' out,
        handle_link_down ex_relearned 1 = Next st' out ->
        In (RoutePacket "B"%string INFINITY, 2) out).
Proof.
  intros H. exact (H _ _ eq_refl).
Qed.

Example handle_link_down_ex_relearned :
  Dict.get "B"%string (forwarding_table ex_relearned)
  = Some (FTE "B"%string 1 3) /\
  Dict.get 2 (peer_tables ex_relearned) = Some [] /\
  output (handle_link_down ex_relearned 1) = [] /\
  forwarding_table (state_of (handle_link_down ex_relearned 1)) = [].
Proof. repeat split; reflexivity. Qed.

(** *** The first loop of [handle_link_down] *)

Ltac fields :=
  cbn [POISON_MODE link_latency peer_tables forwarding_table history
       removedHosts emptyFwdTableList poisonedHosts removedHostKeys
       removedFromPoisonedHosts trickledHosts
       with_link_latency with_peer_tables with_forwarding_table with_history
       with_removedHosts with_emptyFwdTableList with_poisonedHosts
       with_removedFromPoisonedHosts] in *.

Lemma elem_single {K} `{EqKey K} (x y : K) : elem x [y] = keq x y.
Proof. unfold elem. simpl. apply orb_false_r. Qed.

Lemma elem_app {K} `{EqKey K} (x : K) l l' :
  elem x (l ++ l') = elem x l || elem x l'.
Proof. unfold elem. apply existsb_app. Qed.

Lemma unroute_loop port fwd0 removed0 ks :
  NoDup ks ->
  forall st,
    (forall k, In k ks ->
               exists e, Dict.get k (forwarding_table st) = Some e /\
                         Dict.get k fwd0 = Some e /\ fte_dst e = k) ->
    (forall k, In k ks ->
               elem (k, port) (removedHosts st) = elem (k, port) removed0) ->
    exists st1,
      for_each (unroute_body port) ks st = Next st1 [] /\
      POISON_MODE st1 = POISON_MODE st /\
      link_latency st1 = link_latency st /\
      peer_tables st1 = peer_tables st /\
      history st1 = history st /\
      emptyFwdTableList st1 = emptyFwdTableList st /\
      removedFromPoisonedHosts st1 = removedFromPoisonedHosts st /\
      trickledHosts st1 = trickledHosts st /\
      removedHosts st1 = removedHosts st ++ unrouted port fwd0 removed0 ks /\
      poisonedHosts st1 = poisonedHosts st ++ unrouted port fwd0 removed0 ks.
Proof.
  induction 1 as [|k ks Nk ND IH]; intros st Hf Hr.
  - exists st. unfold unrouted. simpl. rewrite !app_nil_r.
    repeat split; reflexivity.
  - destruct (Hf k (or_introl eq_refl)) as (e & Ge & G0 & Hd).
    cbn [for_each]. unfold unroute_body at 1. rewrite Ge.
    unfold unrouted. cbn [filter]. rewrite G0.
    rewrite <- (Hr k (or_introl eq_refl)).
    destruct (fte_port e =? port) eqn:Ep; cbn [andb].
    + rewrite Hd. destruct (elem (k, port) (removedHosts st)) eqn:El;
        cbn [negb].
      * destruct (IH st) as (st1 & -> & R); auto.
        { intros; apply Hf; now right. }
        { intros; apply Hr; now right. }
        exists st1. split; [reflexivity|]. exact R.
      * fields.
        assert (Hk : Dict.has k (forwarding_table st) = true)
          by (unfold Dict.has; now rewrite Ge).
        apply del_has in Hk. destruct Hk as (f' & Df). rewrite Df.
        set (st' := with_forwarding_table f' _).
        destruct (IH st') as (st1 & -> & R).
        { intros k' I. destruct (Hf k' (or_intror I)) as (e' & A & B & C).
          exists e'. repeat split; auto. unfold st'. fields.
          rewrite (del_get_other k k' _ _ Df); auto. intros <-. contradiction. }
        { intros k' I. unfold st'. fields. rewrite elem_app, elem_single.
          rewrite (Hr k' (or_intror I)).
          assert (N : keq (k', port) (k, port) = false).
          { apply keq_neq. intros [= ->]. contradiction. }
          rewrite N. now rewrite orb_false_r. }
        exists st1. split; [reflexivity|].
        destruct R as (R1 & R2 & R3 & R4 & R5 & R6 & R7 & R8 & R9).
        unfold st' in *. fields. cbn [map].
        rewrite R8, R9, <- !app_assoc. repeat split; auto.
    + destruct (IH st) as (st1 & -> & R); auto.
      { intros; apply Hf; now right. }
      { intros; apply Hr; now right. }
      exists st1. split; [reflexivity|]. exact R.
Qed.

(** *** Removing the port's peer table *)

Lemma filter_all {A} (f : A -> bool) (l : list A) :
  (forall x, In x l -> f x = true) -> filter f l = l.
Proof.
  induction l as [|a l IH]; simpl; auto.
  intros Hf. rewrite (Hf a) by now left. f_equal. apply IH.
  intros x Hx. apply Hf. now right.
Qed.

Lemma del_filter {K V} `{EqKey K} (k : K) (d d' : @Dict.t K V) :
  Dict.wf d -> Dict.del k d = Some d' ->
  d' = filter (fun kv : K * V => negb (keq k (fst kv))) d.
Proof.
  unfold Dict.wf. revert d'.
  induction d as [|[k0 v0] r IH]; simpl; [discriminate|].
  intros d' ND. inversion ND as [|? ? Hn Hr]; subst.
  destruct (keq_spec k k0) as [->|N]; simpl.
  - intros [= <-]. symmetry. apply filter_all.
    intros [k1 v1] I. simpl. apply negb_true_iff, keq_neq. intros <-.
    apply Hn. change k0 with (fst (k0, v1)). now apply in_map.
  - destruct (Dict.del k r) as [r'|]; [|discriminate].
    intros [= <-]. f_equal. now apply IH.
Qed.

(** [if port in self.peer_tables.keys(): del self.peer_tables[port]] leaves
    the tables of the other ports, in order. *)
Lemma unplug_filter {V} (P : Port) (d : @Dict.t Port V) :
  Dict.wf d ->
  (if elem P (Dict.keys d) then
     match Dict.del P d with Some p => p | None => d end
   else d)
  = filter (fun kv : Port * V => negb (keq P (fst kv))) d.
Proof.
  intros W. destruct (elem P (Dict.keys d)) eqn:E.
  - apply elem_In, has_true, del_has in E. destruct E as (d' & D).
    rewrite D. now apply del_filter.
  - symmetry. apply filter_all. intros [Q t] I. simpl.
    apply negb_true_iff, keq_neq. intros <-.
    apply elem_not_In in E. apply E. change P with (fst (P, t)).
    now apply in_map.
Qed.

Lemma keys_filter {V} (P : Port) (d : @Dict.t Port V) :
  Dict.keys (filter (fun kv : Port * V => negb (keq P (fst kv))) d)
  = filter (fun Q => negb (keq P Q)) (Dict.keys d).
Proof.
  unfold Dict.keys. induction d as [|[Q t] r IH]; simpl; auto.
  destruct (keq P Q); simpl; now rewrite IH.
Qed.

Lemma unplug_wf (P : Port) (peers : @Dict.t Port PeerTable) :
  tables_wf peers ->
  tables_wf (filter (fun kv : Port * PeerTable => negb (keq P (fst kv)))
               peers).
Proof.
  intros [Wp Wt]. split.
  - unfold Dict.wf. rewrite keys_filter. now apply NoDup_filter.
  - intros Q t I. apply filter_In in I. destruct I as [I _]. eauto.
Qed.

Lemma unplug_cover links (P : Port) (peers : @Dict.t Port PeerTable) :
  links_cover links peers ->
  links_cover links
    (filter (fun kv : Port * PeerTable => negb (keq P (fst kv))) peers).
Proof.
  intros L Q I. rewrite keys_filter in I. apply filter_In in I.
  apply L. tauto.
Qed.

(** *** Forgetting history entries *)

Lemma del_mid {K V} `{EqKey K} (k : K) (v : V) (pre suf : @Dict.t K V) :
  (forall x, In x pre -> keq k (fst x) = false) ->
  Dict.del k (pre ++ (k, v) :: suf) = Some (pre ++ suf).
Proof.
  induction pre as [|[k0 v0] r IH]; intros Hp; simpl.
  - now rewrite keq_refl.
  - pose proof (Hp (k0, v0) (or_introl eq_refl)) as E. simpl in E.
    rewrite E, IH; auto. intros x I. apply Hp. now right.
Qed.

Lemma purge_inner el (suf : History) :
  forall pre : History,
    (forall x, In x pre -> purged el (fst x) = false) ->
    for_each (purge_body el) (Dict.keys suf) (pre ++ suf)
    = Next (pre ++ filter (fun kv : (Port * Host) * ForwardingTableEntry =>
                             negb (purged el (fst kv))) suf) [].
Proof.
  induction suf as [|[k v] suf IH]; intros pre Hp; [reflexivity|].
  cbn [Dict.keys map fst for_each filter]. unfold purge_body at 1.
  fold (purged el k). destruct (purged el k) eqn:Pk; cbn [negb].
  - rewrite del_mid.
    + cbn [emit]. rewrite emit_nil. now apply IH.
    + intros x I. apply keq_neq. intros ->. rewrite (Hp x I) in Pk.
      discriminate.
  - rewrite emit_nil.
    replace (pre ++ (k, v) :: suf) with ((pre ++ [(k, v)]) ++ suf)
      by (rewrite <- app_assoc; reflexivity).
    fold (Dict.keys suf). rewrite IH.
    + now rewrite <- app_assoc.
    + intros x I. apply in_app_iff in I. destruct I as [I|[<-|[]]]; auto.
Qed.

(** [purge_history] completes, and no entry it leaves matches any element
    of [removedHosts]. *)
Lemma purge_history_spec removed :
  forall h : History,
  exists h1,
    purge_history removed h = Next h1 [] /\
    incl h1 h /\
    forall el k, In el removed -> In k (Dict.keys h1) -> purged el k = false.
Proof.
  unfold purge_history.
  induction removed as [|el r IH]; intros h.
  - exists h. repeat split; [apply incl_refl | intros el k []].
  - cbn [for_each].
    pose proof (purge_inner el h []) as E. cbn [app] in E.
    rewrite E by (intros x []). clear E.
    destruct (IH (filter (fun kv : (Port * Host) * ForwardingTableEntry =>
                            negb (purged el (fst kv))) h))
      as (h1 & -> & I1 & P1).
    exists h1. cbn [emit app]. split; [reflexivity|]. split.
    + intros x Hx. apply I1 in Hx. apply filter_In in Hx. tauto.
    + intros el' k [<-|I] Hk; [|eauto].
      apply in_map_iff in Hk. destruct Hk as ([k' v] & <- & Hx).
      apply I1, filter_In in Hx. destruct Hx as [_ Hx].
      now apply negb_true_iff in Hx.
Qed.

(** *** The advertisement pass after a link went down *)

Lemma route_sweep_absent poison force ps h (Q : Port) (B : Host) :
  (forall p k it, In (p, (k, it)) ps -> k <> B) ->
  Dict.get (Q, B) (fst (sweep (route_step poison force) ps h))
  = Dict.get (Q, B) h.
Proof.
  revert h. induction ps as [|[p [k it]] r IH]; intros h N; simpl; auto.
  assert (E : Dict.get (Q, B) (fst (route_step poison force (p, (k, it)) h))
              = Dict.get (Q, B) h).
  { unfold route_step. simpl. destruct (adv_cost poison p it); auto.
    destruct (force || stale h p k z); auto. simpl.
    apply get_set_other. intros [= -> ->].
    eapply N; [left; reflexivity | reflexivity]. }
  destruct (route_step poison force (p, (k, it)) h) as [h' o]. simpl in E.
  specialize (IH h'). destruct (sweep _ r h') as [h'' o']. simpl in *.
  rewrite IH; auto. intros p0 k0 it0 I. apply (N p0 k0 it0). now right.
Qed.

Lemma route_sweep_not_for poison force ps h (B : Host) :
  (forall p k it, In (p, (k, it)) ps -> k <> B) ->
  filter (route_for B) (snd (sweep (route_step poison force) ps h)) = [].
Proof.
  intros N. apply filter_none. intros [pkt port] I.
  apply route_sweep_out in I. destruct I as (k & it & c & Ip & _ & ->).
  unfold route_for. simpl. apply keq_neq. eauto.
Qed.

Lemma for_each_never_breaks {X S P} (body : X -> S -> @Ctl P S) xs s s' o :
  for_each body xs s <> Brk s' o.
Proof.
  revert s s' o. induction xs as [|x r IH]; intros s s' o; simpl;
    [discriminate|].
  destruct (body x s); try discriminate.
  specialize (IH s0 s'). destruct (for_each body r s0); simpl;
    try discriminate.
  intros [= <- E]. eapply IH. reflexivity.
Qed.

Lemma withdraw_body_other (B : Host) qs fwd poisoned rfp trickled rem port
  w :
  fst rem <> B ->
  unannounced B qs w ->
  good (unannounced B qs) (fun x => route_for B x = false)
    (withdraw_body false fwd poisoned rfp trickled rem port w).
Proof.
  intros N [Ut Uh]. unfold withdraw_body. cbn [negb andb].
  destruct (negb (elem rem poisoned)); [simpl; repeat split; auto|].
  cbn [seq]. rewrite emit_nil. unfold poison_part.
  assert (G0 : good (unannounced B qs) (fun x => route_for B x = false)
                 (Next w [])) by (simpl; repeat split; auto).
  destruct (_ || _); auto.
  destruct (elem (port, fst rem) (w_temp w)); auto.
  destruct (elem (fst rem, port) rfp); auto.
  destruct (elem (fst rem, port) trickled); auto.
  simpl. split; [split|].
  - exact Ut.
  - intros Q I. cbn [w_history]. rewrite get_set_other; auto.
    intros [= _ E]. contradiction.
  - repeat constructor. unfold route_for. simpl. now apply keq_neq.
Qed.

Lemma withdraw_others (B : Host) qs fwd poisoned rfp trickled ports rems w :
  (forall rem, In rem rems -> fst rem <> B) ->
  unannounced B qs w ->
  good_next (unannounced B qs) (fun x => route_for B x = false)
    (for_each
       (fun rem w =>
          for_each (withdraw_body false fwd poisoned rfp trickled rem)
            ports w) rems w).
Proof.
  intros N U. apply for_each_good; auto.
  intros rem s I Us. apply good_next_good. apply for_each_good; auto.
  intros port s' _ Us'. apply withdraw_body_other; auto.
Qed.

Lemma withdraw_host (B : Host) (P : Port) fwd poisoned rfp trickled :
  elem (B, P) poisoned = true ->
  (forall Q, elem (B, Q) rfp = false) ->
  (forall Q, elem (B, Q) trickled = false) ->
  forall ports w,
    NoDup ports ->
    unannounced B ports w ->
    exists w',
      for_each (withdraw_body false fwd poisoned rfp trickled (B, P)) ports w
      = Next w' (map (fun Q => (RoutePacket B INFINITY, Q)) ports) /\
      w_temp w' = [].
Proof.
  intros E Hr Ht. induction ports as [|Q r IH]; intros w ND [Ut Uh].
  - exists w. auto.
  - inversion ND as [|? ? Nq NDr]; subst.
    cbn [for_each map]. unfold withdraw_body at 1. rewrite E.
    cbn [negb andb seq fst]. rewrite emit_nil. unfold poison_part.
    unfold Dict.has. rewrite (Uh Q) by now left.
    cbn [negb orb]. rewrite Ut.
    change (elem (Q, B) []) with false. cbn iota. rewrite Hr, Ht.
    destruct (IH (mkW (Dict.set (Q, B) (FTE B Q INFINITY) (w_history w))
                      (w_empty w) [])) as (w' & -> & T); auto.
    { split; auto. intros Q' I. cbn [w_history].
      rewrite get_set_other; [apply Uh; now right|].
      intros [= ->]. contradiction. }
    exists w'. auto.
Qed.

Lemma filter_map_all {A B} (f : B -> bool) (g : A -> B) (l : list A) :
  (forall a, f (g a) = true) -> filter f (map g l) = map g l.
Proof.
  intros H. apply filter_all. intros x I. apply in_map_iff in I.
  destruct I as (a & <- & _). apply H.
Qed.

(** With [B] withdrawn for the first time and no withdrawal recorded for
    it, the second pass sends INFINITY for [B] exactly once on every
    active port. *)
Lemma withdraw_pass_host (B : Host) (P : Port) fwd pre post poisoned rfp
  trickled ports w :
  (forall rem, In rem (pre ++ post) -> fst rem <> B) ->
  elem (B, P) poisoned = true ->
  (forall Q, elem (B, Q) rfp = false) ->
  (forall Q, elem (B, Q) trickled = false) ->
  NoDup ports ->
  unannounced B ports w ->
  exists w' o,
    withdraw_pass false fwd (pre ++ (B, P) :: post) poisoned rfp trickled
      ports w = Next w' o /\
    filter (route_for B) o
    = map (fun Q => (RoutePacket B INFINITY, Q)) ports.
Proof.
  intros N E Hr Ht ND U. unfold withdraw_pass.
  rewrite for_each_app by (intros x s s' o; apply for_each_never_breaks).
  pose proof (withdraw_others B ports fwd poisoned rfp trickled ports pre w)
    as G1.
  apply good_next_inv in G1; auto.
  2:{ intros rem I. apply N. apply in_app_iff. now left. }
  destruct G1 as (w1 & o1 & -> & U1 & Q1). cbn [seq for_each].
  destruct (withdraw_host B P fwd poisoned rfp trickled E Hr Ht ports w1
              ND U1) as (w2 & -> & T2).
  pose proof (withdraw_others B [] fwd poisoned rfp trickled ports post w2)
    as G3.
  apply good_next_inv in G3.
  2:{ intros rem I. apply N. apply in_app_iff. now right. }
  2:{ split; auto. intros Q []. }
  destruct G3 as (w3 & o3 & -> & _ & Q3). cbn [emit].
  do 2 eexists. split; [reflexivity|].
  rewrite !filter_app.
  rewrite (filter_none (route_for B) o1) by (apply Forall_forall; exact Q1).
  rewrite (filter_none (route_for B) o3) by (apply Forall_forall; exact Q3).
  rewrite app_nil_r. cbn [app]. apply filter_map_all.
  intros Q. unfold route_for. simpl. apply keq_refl.
Qed.

Lemma unrouted_split (B : Host) (P : Port) (fwd : ForwardingTable) removed e :
  Dict.wf fwd ->
  Dict.get B fwd = Some e -> fte_port e = P ->
  (forall Q, ~ In (B, Q) removed) ->
  exists pre post,
    removed ++ unrouted P fwd removed (Dict.keys fwd)
    = pre ++ (B, P) :: post /\
    forall rem, In rem (pre ++ post) -> fst rem <> B.
Proof.
  intros W G EP NR. unfold unrouted.
  set (f := fun k => match Dict.get k fwd with
                     | Some e => (fte_port e =? P)
                                 && negb (elem (k, P) removed)
                     | None => false
                     end).
  assert (I : In B (filter f (Dict.keys fwd))).
  { apply filter_In. split.
    - apply has_true. unfold Dict.has. now rewrite G.
    - unfold f. rewrite G, EP, Z.eqb_refl. cbn [andb].
      apply negb_true_iff, elem_not_In, NR. }
  assert (ND : NoDup (filter f (Dict.keys fwd))) by now apply NoDup_filter.
  apply in_split in I. destruct I as (l1 & l2 & E). rewrite E in *.
  apply NoDup_remove_2 in ND.
  exists (removed ++ map (fun k => (k, P)) l1), (map (fun k => (k, P)) l2).
  split.
  - rewrite map_app, <- app_assoc. reflexivity.
  - intros [h q] I. simpl. intros ->.
    rewrite <- app_assoc in I. apply in_app_iff in I.
    destruct I as [I|I]; [exact (NR q I)|].
    rewrite <- map_app in I. apply in_map_iff in I.
    destruct I as (k & [= -> _] & I). contradiction.
Qed.

(** C4, amended.  In poison mode, when a link-down on port [P] removes [B]
    from the forwarding table, [B] has no remaining route and [B] has not
    been withdrawn before (no pair for [B] is in [removedHosts],
    [removedFromPoisonedHosts] or [trickledHosts]), the handler's
    advertisement pass sends exactly one RoutePacket for [B], with cost
    INFINITY, on every other active port, sends no other packet for [B],
    and [B] is absent from the forwarding table afterwards. *)
Theorem handle_link_down_poisons (st : Router) (P : Port) (B : Host)
  (e : ForwardingTableEntry) :
  POISON_MODE st = true ->
  tables_wf (peer_tables st) ->
  links_cover (link_latency st) (peer_tables st) ->
  Dict.wf (forwarding_table st) ->
  fwd_keyed (forwarding_table st) ->
  Dict.get B (forwarding_table st) = Some e ->
  fte_port e = P ->
  (forall Q t, In (Q, t) (peer_tables st) -> Q <> P -> Dict.get B t = None) ->
  (forall Q, ~ In (B, Q) (removedHosts st)) ->
  (forall Q, ~ In (B, Q) (removedFromPoisonedHosts st)) ->
  (forall Q, ~ In (B, Q) (trickledHosts st)) ->
  exists st' out,
    handle_link_down st P = Next st' out /\
    Dict.get B (forwarding_table st') = None /\
    Dict.keys (peer_tables st')
    = filter (fun Q => negb (keq P Q)) (Dict.keys (peer_tables st)) /\
    NoDup (Dict.keys (peer_tables st')) /\
    filter (route_for B) out
    = map (fun Q => (RoutePacket B INFINITY, Q)) (Dict.keys (peer_tables st')).
Proof.
  intros Po Wt L Wf Kf G EP NoRoute NR NRfp NTr.
  unfold handle_link_down.
  (* the loop over the forwarding table *)
  assert (Hf : forall k,
             In k (Dict.keys (forwarding_table st)) ->
             exists e0, Dict.get k (forwarding_table st) = Some e0 /\
                        Dict.get k (forwarding_table st) = Some e0 /\
                        fte_dst e0 = k).
  { intros k I. apply in_map_iff in I. destruct I as ([k' e'] & <- & I).
    exists e'. simpl. repeat split; auto; now apply get_In. }
  destruct (unroute_loop P (forwarding_table st) (removedHosts st)
              (Dict.keys (forwarding_table st)) Wf st Hf
              (fun k _ => eq_refl))
    as (st1 & -> & F1p & F1l & F1t & F1h & F1e & F1r & F1tr & F1rem & F1po).
  cbn [seq]. rewrite emit_nil.
  (* the port's peer table goes *)
  set (st2 := if elem P (Dict.keys (peer_tables st1)) then _ else st1).
  set (peers1 := filter (fun kv : Port * PeerTable => negb (keq P (fst kv)))
                   (peer_tables st)).
  assert (F2 : peer_tables st2 = peers1 /\
               POISON_MODE st2 = true /\
               link_latency st2 = link_latency st /\
               history st2 = history st /\
               emptyFwdTableList st2 = emptyFwdTableList st /\
               removedFromPoisonedHosts st2 = removedFromPoisonedHosts st /\
               trickledHosts st2 = trickledHosts st /\
               removedHosts st2 = removedHosts st1 /\
               poisonedHosts st2 = poisonedHosts st1).
  { split.
    - unfold peers1. rewrite <- unplug_filter by apply Wt.
      rewrite <- F1t. unfold st2.
      destruct (elem P (Dict.keys (peer_tables st1)));
        [destruct (Dict.del P (peer_tables st1))|]; reflexivity.
    - unfold st2.
      destruct (elem P (Dict.keys (peer_tables st1)));
        [destruct (Dict.del P (peer_tables st1))|]; fields;
        repeat split; congruence. }
  clearbody st2.
  destruct F2 as (F2t & F2p & F2l & F2h & F2e & F2r & F2tr & F2rem & F2po).
  assert (W1 : tables_wf peers1) by now apply unplug_wf.
  assert (L1 : links_cover (link_latency st) peers1) by now apply unplug_cover.
  assert (K1 : Dict.keys peers1
               = filter (fun Q => negb (keq P Q)) (Dict.keys (peer_tables st)))
    by apply keys_filter.
  (* the history forgets other ports' entries for the removed hosts *)
  destruct (purge_history_spec (removedHosts st2) (history st2))
    as (h1 & -> & _ & Pg).
  cbn [lift seq]. rewrite emit_nil.
  set (st3 := with_history h1 st2).
  (* the forwarding table is rebuilt *)
  assert (W3 : tables_wf (peer_tables st3)) by (unfold st3; fields; congruence).
  assert (L3 : links_cover (link_latency st3) (peer_tables st3))
    by (unfold st3; fields; rewrite F2l, F2t; exact L1).
  rewrite (update_forwarding_table_fold st3 W3 L3). cbn [seq].
  rewrite emit_nil.
  set (fwd2 := fold_left _ _ _) in *.
  assert (NB : forall e', ~ In (B, e') fwd2).
  { intros e' I. apply (merged_entry st3) in I; auto.
    destruct I as (t & pe & l & Gt & Ge & _).
    unfold st3 in Gt. fields. rewrite F2t in Gt.
    apply get_Some_In, filter_In in Gt. destruct Gt as [It Np].
    simpl in Np. apply negb_true_iff, keq_neq in Np.
    rewrite (NoRoute _ _ It) in Ge; [discriminate|congruence]. }
  set (st4 := with_forwarding_table fwd2 st3).
  (* the advertisement pass *)
  destruct (send_routes_shape st4 false) as (w & o2 & Hw & _ & ->).
  destruct (settle_frame st4 false w) as (_ & _ & Sp & Sf & _).
  exists (settle st4 false w). eexists. split; [reflexivity|].
  rewrite Sp, Sf.
  assert (E4t : peer_tables st4 = peers1) by (unfold st4, st3; fields; auto).
  assert (E4f : forwarding_table st4 = fwd2) by reflexivity.
  rewrite E4t, E4f.
  split; [|split; [exact K1|split; [apply W1|]]].
  { destruct (Dict.get B fwd2) as [e'|] eqn:Gb; auto.
    apply get_Some_In in Gb. now apply NB in Gb. }
  assert (NK : forall p k it,
             In (p, (k, it)) (route_pairs (Dict.keys peers1) fwd2) -> k <> B).
  { intros p k it I. apply route_pairs_In in I. destruct I as [_ I].
    intros ->. now apply NB in I. }
  rewrite filter_app. rewrite route_sweep_not_for by exact NK.
  cbn [app].
  assert (E4p : POISON_MODE st4 = true) by (unfold st4, st3; fields; auto).
  rewrite E4p, E4t, E4f in Hw.
  assert (E4rem : removedHosts st4
                  = removedHosts st
                    ++ unrouted P (forwarding_table st) (removedHosts st)
                         (Dict.keys (forwarding_table st)))
    by (unfold st4, st3; fields; congruence).
  assert (E4po : poisonedHosts st4
                 = poisonedHosts st
                   ++ unrouted P (forwarding_table st) (removedHosts st)
                        (Dict.keys (forwarding_table st)))
    by (unfold st4, st3; fields; congruence).
  assert (E4rfp : removedFromPoisonedHosts st4 = removedFromPoisonedHosts st)
    by (unfold st4, st3; fields; congruence).
  assert (E4tr : trickledHosts st4 = trickledHosts st)
    by (unfold st4, st3; fields; congruence).
  assert (E4h : history st4 = h1) by reflexivity.
  destruct (unrouted_split B P (forwarding_table st) (removedHosts st) e
              Wf G EP NR) as (pre & post & Esp & Nsp).
  assert (Irem : In (B, P) (removedHosts st4)).
  { rewrite E4rem, Esp. apply in_app_iff. right. now left. }
  assert (Ipo : elem (B, P) (poisonedHosts st4) = true).
  { apply elem_In. rewrite E4po. rewrite E4rem, Esp in Irem.
    apply in_app_iff. right.
    assert (X : In (B, P) (removedHosts st ++ unrouted P (forwarding_table st)
                             (removedHosts st)
                             (Dict.keys (forwarding_table st)))).
    { rewrite Esp. apply in_app_iff. right. now left. }
    apply in_app_iff in X. destruct X as [X|X]; auto. now apply NR in X. }
  rewrite E4rem, Esp in Hw.
  destruct (withdraw_pass_host B P fwd2 pre post (poisonedHosts st4)
              (removedFromPoisonedHosts st4) (trickledHosts st4)
              (Dict.keys peers1)
              (mkW (fst (sweep (route_step true false)
                           (route_pairs (Dict.keys peers1) fwd2)
                           (history st4)))
                   (emptyFwdTableList st4) []))
    as (w' & o & Ew & Eo); auto.
  - intros Q. apply elem_not_In. rewrite E4rfp. apply NRfp.
  - intros Q. apply elem_not_In. rewrite E4tr. apply NTr.
  - apply W1.
  - split; [reflexivity|]. intros Q IQ. cbn [w_history].
    rewrite route_sweep_absent by exact NK. rewrite E4h.
    destruct (Dict.get (Q, B) h1) as [x|] eqn:Gq; auto. exfalso.
    assert (Hk : In (Q, B) (Dict.keys h1)).
    { apply has_true. unfold Dict.has. now rewrite Gq. }
    assert (Irem2 : In (B, P) (removedHosts st2)).
    { rewrite F2rem, F1rem, Esp. apply in_app_iff. right. now left. }
    pose proof (Pg (B, P) (Q, B) Irem2 Hk) as Pq.
    unfold purged in Pq. simpl in Pq. rewrite keq_refl, andb_true_r in Pq.
    rewrite K1 in IQ. apply filter_In in IQ. destruct IQ as [_ IQ].
    rewrite IQ in Pq. discriminate.
  - rewrite Ew in Hw. injection Hw as _ Eo2. rewrite <- Eo2. exact Eo.
Qed.

Lemma fwd_keyedb_sound fwd : fwd_keyedb fwd = true -> fwd_keyed fwd.
Proof.
  unfold fwd_keyedb, fwd_keyed. rewrite forallb_forall. intros H k e I.
  apply keq_eq. exact (H (k, e) I).
Qed.

Lemma sole_routeb_sound B P peers :
  sole_routeb B P peers = true ->
  forall Q t, In (Q, t) peers -> Q <> P -> Dict.get B t = None.
Proof.
  unfold sole_routeb. rewrite forallb_forall. intros H Q t I N.
  specialize (H (Q, t) I). simpl in H. apply orb_true_iff in H.
  destruct H as [H|H].
  - apply keq_eq in H. contradiction.
  - apply negb_true_iff in H. now apply has_false.
Qed.

Lemma unlistedb_sound B l :
  unlistedb B l = true -> forall Q, ~ In (B, Q) l.
Proof.
  unfold unlistedb. rewrite forallb_forall. intros H Q I.
  specialize (H (B, Q) I). simpl in H. now rewrite keq_refl in H.
Qed.

Lemma handle_link_down_poisons_witness :
  exists st' out,
    handle_link_down ex_three 1 = Next st' out /\
    Dict.get "B"%string (forwarding_table st') = None /\
    Dict.keys (peer_tables st')
    = filter (fun Q => negb (keq 1 Q)) (Dict.keys (peer_tables ex_three)) /\
    NoDup (Dict.keys (peer_tables st')) /\
    filter (route_for "B"%string) out
    = map (fun Q => (RoutePacket "B"%string INFINITY, Q))
        (Dict.keys (peer_tables st')).
Proof.
  apply (handle_link_down_poisons ex_three 1 "B"%string
           (FTE "B"%string 1 3)).
  - reflexivity.
  - apply tables_wfb_sound; reflexivity.
  - apply links_coverb_sound; reflexivity.
  - apply nodupb_sound; reflexivity.
  - apply fwd_keyedb_sound; reflexivity.
  - reflexivity.
  - reflexivity.
  - apply sole_routeb_sound; reflexivity.
  - apply unlistedb_sound; reflexivity.
  - apply unlistedb_sound; reflexivity.
  - apply unlistedb_sound; reflexivity.
Defined.

(** The scenario of the specification: "B" is withdrawn on ports 2
    and 3, each exactly once; the route to "C" is unaffected and only its
    history entry on the downed port is left alone. *)
Example handle_link_down_ex_three :
  output (handle_link_down ex_three 1)
  = [(RoutePacket "B"%string 16, 2); (RoutePacket "B"%string 16, 3)] /\
  forwarding_table (state_of (handle_link_down ex_three 1))
  = [("C"%string, FTE "C"%string 2 6)].
Proof. split; reflexivity. Qed.

(** ** Adequacy of the examples and of the loop fuel *)

Example ex_up_reachable : run (init true) [LinkUp 1 1] = Some ex_up.
Proof. reflexivity. Qed.

Example ex_three_reachable :
  run (init true)
    [LinkUp 1 1; LinkUp 2 5; LinkUp 3 2; Advertisement 0 "B"%string 1 2;
     Advertisement 0 "C"%string 2 1]
  = Some ex_three.
Proof. reflexivity. Qed.

Lemma remove_first_length {K} `{EqKey K} (x : K) l :
  (List.length (remove_first x l) <= List.length l)%nat.
Proof.
  induction l as [|y r IH]; simpl; auto.
  destruct (keq x y); simpl; lia.
Qed.

(** The retiring loop stops by itself within [length poisonedHosts] steps:
    more fuel changes nothing. *)
Lemma retire_fuel_enough removed n :
  forall fuel i p r,
    (List.length p <= fuel + i)%nat ->
    retire (fuel + n) removed i p r = retire fuel removed i p r.
Proof.
  induction fuel as [|f IH]; intros i p r Hl.
  - simpl. assert (E : nth_error p i = None) by (apply nth_error_None; lia).
    destruct n; simpl; auto. now rewrite E.
  - simpl. destruct (nth_error p i) as [el|]; auto.
    destruct (elem el removed).
    + apply IH. pose proof (remove_first_length el p). lia.
    + apply IH. lia.
Qed.

(** ** Reachable routers are well formed *)

Lemma straight_safe {S P} (I : S -> Prop) (c : @Ctl P S) :
  straight I c -> safe I c.
Proof. destruct c; simpl; tauto. Qed.

Lemma straight_emit {S P} (I : S -> Prop) o (c : @Ctl P S) :
  straight I c -> straight I (emit o c).
Proof. destruct c; simpl; tauto. Qed.

Lemma safe_emit {S P} (I : S -> Prop) o (c : @Ctl P S) :
  safe I c -> safe I (emit o c).
Proof. destruct c; simpl; tauto. Qed.

Lemma straight_weaken {S P} (I J : S -> Prop) (c : @Ctl P S) :
  (forall s, I s -> J s) -> straight I c -> straight J c.
Proof. intros H. destruct c; simpl; auto. Qed.

Lemma seq_straight {S P} (I J : S -> Prop) (a : @Ctl P S) b :
  straight I a -> (forall s, I s -> straight J (b s)) ->
  straight J (seq a b).
Proof.
  destruct a; simpl; try tauto. intros Is Hb. apply straight_emit. auto.
Qed.

Lemma for_each_straight {X S P} (I : S -> Prop) (body : X -> S -> @Ctl P S)
  xs :
  (forall x s, I s -> straight I (body x s)) ->
  forall s, I s -> straight I (for_each body xs s).
Proof.
  intros Hb. induction xs as [|x r IH]; intros s Is; simpl; auto.
  specialize (Hb x s Is). destruct (body x s); simpl in *; try tauto.
  apply straight_emit. auto.
Qed.

Lemma for_each_safe {X S P} (I : S -> Prop) (body : X -> S -> @Ctl P S) xs :
  (forall x s, I s -> safe I (body x s)) ->
  forall s, I s -> safe I (for_each body xs s).
Proof.
  intros Hb. induction xs as [|x r IH]; intros s Is; simpl; auto.
  specialize (Hb x s Is). destruct (body x s); simpl in *; try tauto.
  apply safe_emit. auto.
Qed.

Lemma call_straight {S P} (I : S -> Prop) (c : @Ctl P S) :
  safe I c -> straight I (call c).
Proof. destruct c; simpl; tauto. Qed.

Lemma lift_straight {S T P} (I : T -> Prop) (inj : S -> T) (c : @Ctl P S) :
  straight (fun s => I (inj s)) c -> straight I (lift inj c).
Proof. destruct c; simpl; tauto. Qed.

Lemma has_set {K V} `{EqKey K} (k k' : K) (v : V) (d : @Dict.t K V) :
  Dict.has k' (Dict.set k v d) = keq k k' || Dict.has k' d.
Proof.
  unfold Dict.has. destruct (keq_spec k k') as [<-|N].
  - now rewrite get_set_same.
  - now rewrite get_set_other.
Qed.

Lemma update_forwarding_table_wf st :
  links_wf st -> straight router_wf (update_forwarding_table st).
Proof.
  intros [W L]. rewrite (update_forwarding_table_fold st W L). simpl.
  destruct (merged_best st L) as [Wf B].
  split; [split; assumption|]. split; [exact Wf|].
  intros k e I. apply get_In in I; auto. specialize (B k).
  cbn [forwarding_table with_forwarding_table] in I.
  rewrite I in B. tauto.
Qed.

Lemma send_routes_wf st force :
  router_wf st -> straight router_wf (send_routes st force).
Proof.
  intros ((W & L) & Wf & Kf).
  destruct (send_routes_shape st force) as (w & o2 & _ & _ & ->). simpl.
  destruct (settle_frame st force w) as (_ & El & Ep & Ef & _).
  unfold router_wf, links_wf. now rewrite El, Ep, Ef.
Qed.

Lemma recompute_and_send_wf st force :
  links_wf st ->
  straight router_wf
    (seq (update_forwarding_table st) (fun st => send_routes st force)).
Proof.
  intros H. apply seq_straight with (I := router_wf).
  - now apply update_forwarding_table_wf.
  - intros s. apply send_routes_wf.
Qed.

Lemma store_entry_links_wf st port host pte :
  links_wf st -> straight links_wf (store_entry st port host pte).
Proof.
  intros [W L]. unfold store_entry.
  destruct (Dict.get port (peer_tables st)) as [t|] eqn:G;
    [|exact Logic.I].
  cbn [straight]. unfold links_wf. fields. split.
  - now apply store_entry_wf.
  - intros P I. apply L. rewrite keys_set_present in I; auto.
    unfold Dict.has. now rewrite G.
Qed.

Lemma handle_link_up_wf st port latency :
  router_wf st -> straight router_wf (handle_link_up st port latency).
Proof.
  intros ((W & L) & Wf & Kf). unfold handle_link_up.
  apply lift_straight.
  apply straight_weaken with (I := fun _ : History => True).
  2:{ apply for_each_straight; auto. intros key h _.
      destruct (Dict.get key _); simpl; auto. }
  intros h _. unfold router_wf, links_wf. fields. split; [split|].
  - destruct W as [Wp Wt]. split; [now apply wf_set|].
    intros P t I. apply in_set in I. destruct I as [[= -> ->]|I]; eauto.
    constructor.
  - intros P I. apply in_keys_set in I. rewrite has_set.
    destruct I as [->|I]; [now rewrite keq_refl|].
    rewrite (L P I). apply orb_true_r.
  - auto.
Qed.

Lemma handle_route_advertisement_wf st now dst port route_latency :
  router_wf st ->
  straight router_wf
    (handle_route_advertisement st now dst port route_latency).
Proof.
  intros (H & _). unfold handle_route_advertisement.
  apply seq_straight with (I := links_wf).
  - now apply store_entry_links_wf.
  - intros s. apply recompute_and_send_wf.
Qed.

Lemma add_static_route_wf st host port :
  router_wf st -> straight router_wf (add_static_route st host port).
Proof.
  intros (H & _). unfold add_static_route.
  destruct (negb (Dict.has port (peer_tables st))); [exact Logic.I|].
  apply seq_straight with (I := links_wf).
  - now apply store_entry_links_wf.
  - intros s. apply recompute_and_send_wf.
Qed.

Lemma handle_link_down_wf st port :
  router_wf st -> straight router_wf (handle_link_down st port).
Proof.
  intros (H & _). unfold handle_link_down.
  apply seq_straight with (I := links_wf).
  - apply for_each_straight; auto.
    intros x s Hs. unfold unroute_body.
    destruct (Dict.get x (forwarding_table s)) as [e|]; simpl; auto.
    destruct (fte_port e =? port); simpl; auto.
    destruct (negb (elem (fte_dst e, port) (removedHosts s))); simpl; auto.
    destruct (Dict.del x (forwarding_table s)); simpl; auto.
  - intros s [W L].
    set (s2 := if elem port (Dict.keys (peer_tables s)) then _ else s).
    assert (H2 : links_wf s2).
    { assert (E : peer_tables s2
                  = filter (fun kv : Port * PeerTable =>
                              negb (keq port (fst kv))) (peer_tables s)
                  /\ link_latency s2 = link_latency s).
      { rewrite <- unplug_filter by apply W. unfold s2.
        destruct (elem port (Dict.keys (peer_tables s)));
          [destruct (Dict.del port (peer_tables s))|]; split; reflexivity. }
      destruct E as [Ep El]. unfold links_wf. rewrite Ep, El.
      split; [now apply unplug_wf | now apply unplug_cover]. }
    clearbody s2.
    apply seq_straight with (I := links_wf).
    + apply lift_straight.
      destruct (purge_history_spec (removedHosts s2) (history s2))
        as (h1 & -> & _). exact H2.
    + intros s3. apply recompute_and_send_wf.
Qed.

Lemma del_wf {K V} `{EqKey K} (k : K) (d d' : @Dict.t K V) :
  Dict.wf d -> Dict.del k d = Some d' -> Dict.wf d'.
Proof.
  intros W D. rewrite (del_filter k d d' W D). unfold Dict.wf, Dict.keys.
  clear D. induction d as [|[k0 v0] r IH]; simpl; [constructor|].
  inversion W as [|? ? Hn Hr]; subst.
  destruct (keq k k0); simpl; auto.
  constructor; auto. intros I. apply Hn. apply in_map_iff in I.
  destruct I as ([k1 v1] & E & I). apply filter_In in I. simpl in E. subst.
  change k0 with (fst (k0, v1)). apply in_map. tauto.
Qed.

Lemma drop_entry_wf st port dest :
  router_wf st -> straight router_wf (drop_entry st port dest).
Proof.
  intros (([Wp Wt] & L) & Wf & Kf). unfold drop_entry.
  destruct (Dict.get port (peer_tables st)) as [t|] eqn:G;
    [|exact Logic.I].
  destruct (Dict.del dest t) as [t'|] eqn:D; [|exact Logic.I].
  cbn [straight]. unfold router_wf, links_wf. fields. split; [split|auto].
  - split; [now apply wf_set|].
    intros P t0 I. apply in_set in I. destruct I as [[= -> ->]|I]; eauto.
    apply (del_wf dest t); auto. apply (Wt port). now apply get_Some_In.
  - intros P I. apply L. rewrite keys_set_present in I; auto.
    unfold Dict.has. now rewrite G.
Qed.

Lemma expire_routes_wf st now :
  router_wf st -> straight router_wf (expire_routes st now).
Proof.
  intros H. unfold expire_routes. apply call_straight.
  apply for_each_safe; auto.
  intros [port table] s Hs. apply for_each_safe; auto.
  intros [host value] s' Hs'. unfold expire_entry.
  destruct (is_FOREVER (pte_expire_time value)); [exact Hs'|].
  destruct (past now (pte_expire_time value)); [|exact Hs'].
  apply straight_safe. apply seq_straight with (I := router_wf).
  - apply for_each_straight; auto.
    intros [dest fe] s2 Hs2. unfold expire_body.
    destruct (keq dest host); [|exact Hs2].
    apply drop_entry_wf.
    destruct (negb (elem (dest, port) (removedHosts s2))); exact Hs2.
  - intros s3 (H3 & _). now apply update_forwarding_table_wf.
Qed.

Lemma handle_wf st ev : router_wf st -> straight router_wf (handle st ev).
Proof.
  intros H. unfold handle. apply call_straight.
  destruct ev.
  - now apply straight_safe, handle_link_up_wf.
  - now apply straight_safe, handle_link_down_wf.
  - now apply straight_safe, add_static_route_wf.
  - now apply straight_safe, handle_route_advertisement_wf.
  - apply straight_safe.
    unfold handle_timer. apply seq_straight with (I := router_wf).
    + now apply expire_routes_wf.
    + intros s. apply send_routes_wf.
  - unfold handle_data_packet.
    destruct (Dict.get _ _) as [e|]; simpl; auto.
    destruct (INFINITY <=? fte_latency e); simpl; auto.
    destruct (fte_port e =? in_port); simpl; auto.
Qed.

Lemma init_wf poison : router_wf (init poison).
Proof.
  unfold router_wf, links_wf, tables_wf, links_cover, fwd_keyed, Dict.wf.
  simpl. repeat split; try constructor; intros; contradiction.
Qed.

(** X17.  Every state a fresh router reaches by handling events is well
    formed: the peer tables, each peer table and the forwarding table have
    one entry per key, every active port has a link latency, and every
    forwarding-table entry names the destination it is filed under.  These
    are the hypotheses of the theorems about single handlers. *)
Theorem reachable_router_wf (poison : bool) (evs : list Event) (st : Router) :
  run (init poison) evs = Some st -> router_wf st.
Proof.
  assert (G : forall evs s s', router_wf s -> run s evs = Some s' ->
                               router_wf s').
  { clear. induction evs as [|ev r IH]; intros s s' H; simpl.
    - now intros [= <-].
    - pose proof (handle_wf s ev H) as Hh.
      destruct (handle s ev); try discriminate. eauto. }
  apply G. apply init_wf.
Qed.

(** ** Two forced passes *)

Lemma get_del_same {K V} `{EqKey K} (k : K) (d d' : @Dict.t K V) :
  Dict.wf d -> Dict.del k d = Some d' -> Dict.get k d' = None.
Proof.
  intros W D. rewrite (del_filter k d d' W D). clear.
  induction d as [|[k0 v0] r IH]; simpl; [reflexivity|].
  destruct (keq k k0) eqn:E; simpl; [exact IH|]. now rewrite E.
Qed.

Lemma finite_loop (port : Port) (host : Host) items :
  forall w : Wd,
    Dict.wf (w_history w) ->
    exists h',
      for_each (finite_body port host) items w
      = Next (mkW h' (w_empty w)
                (w_temp w
                 ++ map (fun kv : Host * ForwardingTableEntry =>
                           (port, fst kv))
                      (filter (fun kv : Host * ForwardingTableEntry =>
                                 keq host (fst kv)) items))) [] /\
      Dict.wf h' /\
      (forall k', k' <> (port, host) ->
                  Dict.get k' h' = Dict.get k' (w_history w)) /\
      (forallb (fun kv : Host * ForwardingTableEntry => keq host (fst kv))
         items = true -> h' = w_history w) /\
      (forallb (fun kv : Host * ForwardingTableEntry => keq host (fst kv))
         items = false -> Dict.has (port, host) h' = false) /\
      (Dict.has (port, host) (w_history w) = false -> h' = w_history w).
Proof.
  induction items as [|[key value] r IH]; intros [h e t] W;
    cbn [w_history w_empty w_temp] in *.
  - exists h. cbn [for_each filter map forallb]. rewrite app_nil_r.
    repeat split; auto. discriminate.
  - cbn [for_each finite_body filter forallb fst w_history w_empty w_temp].
    destruct (keq host key) eqn:Ek; cbn [negb andb].
    + destruct (IH (mkW h e (t ++ [(port, key)])) W)
        as (h' & -> & W' & Fr & A & B & C).
      cbn [w_history w_empty w_temp emit app] in *.
      exists h'. cbn [map fst]. rewrite <- app_assoc. cbn [app].
      repeat split; auto.
    + destruct (Dict.has (port, host) h) eqn:Hh.
      * unfold drop_history. cbn [w_history w_empty w_temp].
        destruct (del_has _ _ Hh) as (hd & D). rewrite D.
        pose proof (del_wf _ _ _ W D) as Wd.
        pose proof (get_del_same _ _ _ W D) as Gd.
        destruct (IH (mkW hd e t) Wd) as (h' & -> & W' & Fr & A & B & C).
        cbn [w_history w_empty w_temp emit app] in *.
        assert (Eh : h' = hd) by (apply C; unfold Dict.has; now rewrite Gd).
        exists h'. repeat split; auto; try discriminate.
        -- intros k' N. rewrite Fr by exact N.
           apply (del_get_other _ _ _ _ D). congruence.
        -- intros _. rewrite Eh. unfold Dict.has. now rewrite Gd.
      * destruct (IH (mkW h e t) W) as (h' & -> & W' & Fr & A & B & C).
        cbn [w_history w_empty w_temp emit app] in *.
        exists h'. repeat split; auto; try discriminate.
        intros _. now rewrite (C Hh).
Qed.

Lemma infinite_loop (rfp : list (Host * Port)) (port : Port) (host : Host)
  items :
  forall w : Wd,
    Dict.wf (w_history w) ->
    exists h',
      for_each (infinite_body rfp port host) items w
      = Next (mkW h' (w_empty w)
                (w_temp w
                 ++ map (fun kv : Host * ForwardingTableEntry =>
                           (port, fst kv))
                      (filter (fun kv : Host * ForwardingTableEntry =>
                                 keq (fst kv) host
                                 && (fte_port (snd kv) =? port)) items))) []
      /\
      Dict.wf h' /\
      (forall k', k' <> (port, host) ->
                  Dict.get k' h' = Dict.get k' (w_history w)) /\
      (forallb (fun kv : Host * ForwardingTableEntry =>
                  keq (fst kv) host && (fte_port (snd kv) =? port)) items
       || elem (host, port) rfp = true -> h' = w_history w) /\
      (forallb (fun kv : Host * ForwardingTableEntry =>
                  keq (fst kv) host && (fte_port (snd kv) =? port)) items
       || elem (host, port) rfp = false ->
       Dict.has (port, host) h' = false) /\
      (Dict.has (port, host) (w_history w) = false -> h' = w_history w).
Proof.
  induction items as [|[key value] r IH]; intros [h e t] W;
    cbn [w_history w_empty w_temp] in *.
  - exists h. cbn [for_each filter map forallb orb]. rewrite app_nil_r.
    repeat split; auto. discriminate.
  - cbn [for_each infinite_body filter forallb fst snd w_history w_empty
         w_temp].
    destruct (keq key host && (fte_port value =? port)) eqn:Ek;
      cbn [andb].
    + destruct (IH (mkW h e (t ++ [(port, key)])) W)
        as (h' & -> & W' & Fr & A & B & C).
      cbn [w_history w_empty w_temp emit app] in *.
      exists h'. cbn [map fst]. rewrite <- app_assoc. cbn [app].
      repeat split; auto.
    + cbn [orb].
      destruct (Dict.has (port, host) h) eqn:Hh.
      * destruct (elem (host, port) rfp) eqn:Er.
        -- destruct (IH (mkW h e t) W) as (h' & -> & W' & Fr & A & B & C).
           cbn [w_history w_empty w_temp emit app] in *.
           exists h'. repeat split; auto; try discriminate.
           intros _. apply A. apply orb_true_r.
        -- unfold drop_history. cbn [w_history w_empty w_temp].
           destruct (del_has _ _ Hh) as (hd & D). rewrite D.
           pose proof (del_wf _ _ _ W D) as Wd.
           pose proof (get_del_same _ _ _ W D) as Gd.
           destruct (IH (mkW hd e t) Wd) as (h' & -> & W' & Fr & A & B & C).
           cbn [w_history w_empty w_temp emit app] in *.
           assert (Eh : h' = hd)
             by (apply C; unfold Dict.has; now rewrite Gd).
           exists h'. repeat split; auto; try discriminate.
           ++ intros k' N. rewrite Fr by exact N.
              apply (del_get_other _ _ _ _ D). congruence.
           ++ intros _. rewrite Eh. unfold Dict.has. now rewrite Gd.
      * destruct (IH (mkW h e t) W) as (h' & -> & W' & Fr & A & B & C).
        cbn [w_history w_empty w_temp emit app] in *.
        exists h'. repeat split; auto; try discriminate.
        all: intros _; now rewrite (C Hh).
Qed.

(** The forced branch for [host] on [port] when the forwarding table is
    not empty: what it does depends on the history entry of the pair
    alone. *)
Lemma forced_part_spec (fwd : ForwardingTable) (rfp : list (Host * Port))
  (port : Port) (host : Host) (w : Wd) :
  fwd <> [] -> Dict.wf (w_history w) ->
  exists h',
    forced_part fwd rfp port host w
    = Next (mkW h' (w_empty w)
              (w_temp w
               ++ forced_temp fwd port host
                    (Dict.get (port, host) (w_history w)))) [] /\
    Dict.wf h' /\
    (forall k', k' <> (port, host) ->
                Dict.get k' h' = Dict.get k' (w_history w)) /\
    (forced_keeps fwd rfp port host (Dict.get (port, host) (w_history w))
     = true -> h' = w_history w) /\
    (forced_keeps fwd rfp port host (Dict.get (port, host) (w_history w))
     = false -> Dict.has (port, host) h' = false).
Proof.
  intros Ne W. unfold forced_part, forced_temp, forced_keeps.
  destruct (Dict.get (port, host) (w_history w)) as [val|] eqn:G.
  - assert (Ec : empty_table_check fwd port host w = Next w []).
    { unfold empty_table_check. destruct fwd; [congruence | reflexivity]. }
    rewrite Ec. cbn [seq]. rewrite !emit_nil. unfold Dict.items.
    destruct (negb (fte_latency val =? INFINITY)).
    + destruct (finite_loop port host fwd w W)
        as (h' & -> & W' & Fr & A & B & _).
      exists h'. repeat split; auto.
    + destruct (infinite_loop rfp port host fwd w W)
        as (h' & -> & W' & Fr & A & B & _).
      exists h'. repeat split; auto.
  - exists (w_history w). rewrite app_nil_r. destruct w.
    repeat split; auto. discriminate.
Qed.

(** The last [if] of the loop body, on two states that agree on the
    pair. *)
Lemma poison_part_sim (rfp trickled : list (Host * Port)) (port : Port)
  (host : Host) (w1 w2 : Wd) :
  w_empty w1 = w_empty w2 -> w_temp w1 = w_temp w2 ->
  Dict.has (port, host) (w_history w1)
  = Dict.has (port, host) (w_history w2) ->
  exists o f,
    poison_part rfp trickled port host w1
    = Next (mkW (f (w_history w1)) (w_empty w1) (w_temp w1)) o /\
    poison_part rfp trickled port host w2
    = Next (mkW (f (w_history w2)) (w_empty w2) (w_temp w2)) o /\
    (f = (fun h => h) \/
     f = Dict.set (port, host) (FTE host port INFINITY)).
Proof.
  intros Ee Et Eh. unfold poison_part. rewrite <- Ee, <- Et, <- Eh.
  destruct w1 as [h1 e1 t1], w2 as [h2 e2 t2].
  cbn [w_history w_empty w_temp] in *.
  destruct (negb (Dict.has (port, host) h1)
            || negb (List.length e1 =? 0)%nat).
  - destruct (elem (port, host) t1);
      [exists [], (fun h => h); subst; auto|].
    destruct (elem (host, port) rfp);
      [exists [], (fun h => h); subst; auto|].
    destruct (elem (host, port) trickled);
      [exists [], (fun h => h); subst; auto|].
    eexists _, (Dict.set (port, host) (FTE host port INFINITY)).
    subst. auto.
  - exists [], (fun h => h). subst. auto.
Qed.

(** The same on a state where the pair is in the history only if it is in
    [removedFromPoisonedHosts]: the history entry does not matter. *)
Lemma poison_part_rfp (rfp trickled : list (Host * Port)) (port : Port)
  (host : Host) (w : Wd) :
  (Dict.has (port, host) (w_history w) = true ->
   elem (host, port) rfp = true) ->
  exists f,
    poison_part rfp trickled port host w
    = Next (mkW (f (w_history w)) (w_empty w) (w_temp w))
        (if elem (port, host) (w_temp w) || elem (host, port) rfp
            || elem (host, port) trickled
         then [] else [(RoutePacket host INFINITY, port)]) /\
    (f = (fun h => h) \/
     f = Dict.set (port, host) (FTE host port INFINITY)).
Proof.
  intros R. unfold poison_part. destruct w as [h e t].
  cbn [w_history w_empty w_temp] in *.
  destruct (Dict.has (port, host) h) eqn:Hh; cbn [negb orb].
  - rewrite (R eq_refl). rewrite orb_true_r. cbn [orb].
    destruct (negb (List.length e =? 0)%nat);
      [destruct (elem (port, host) t)|]; exists (fun h => h); auto.
  - destruct (elem (port, host) t); [exists (fun h => h); auto|].
    destruct (elem (host, port) rfp); [exists (fun h => h); auto|].
    destruct (elem (host, port) trickled); [exists (fun h => h); auto|].
    cbn [orb]. eexists (Dict.set (port, host) (FTE host port INFINITY)).
    auto.
Qed.

Lemma forced_absent (fwd : ForwardingTable) (rfp : list (Host * Port))
  (port : Port) (host : Host) (e : option ForwardingTableEntry) :
  fwd <> [] -> ~ In host (Dict.keys fwd) ->
  forced_temp fwd port host e = [] /\
  (forced_keeps fwd rfp port host e = true ->
   e = None \/ elem (host, port) rfp = true).
Proof.
  intros Ne Ni. unfold forced_temp, forced_keeps.
  destruct e as [val|]; [|auto].
  assert (Ek : forall kv : Host * ForwardingTableEntry,
             In kv fwd -> keq host (fst kv) = false).
  { intros kv I. apply keq_neq. intros ->. apply Ni. now apply in_map. }
  assert (Ek' : forall kv : Host * ForwardingTableEntry,
             In kv fwd -> keq (fst kv) host = false).
  { intros kv I. rewrite keq_sym. now apply Ek. }
  split.
  - replace (filter _ fwd) with (@nil (Host * ForwardingTableEntry));
      [reflexivity|].
    symmetry. clear Ne Ni. induction fwd as [|kv r IH]; [reflexivity|].
    cbn [filter]. rewrite (Ek kv), (Ek' kv) by now left. cbn [andb].
    replace (if negb (fte_latency val =? INFINITY) then false else false)
      with false by now destruct (negb _).
    apply IH; intros x I; [apply Ek | apply Ek']; now right.
  - destruct fwd as [|kv r]; [congruence|]. cbn [forallb].
    rewrite (Ek kv), (Ek' kv) by now left. cbn [andb orb].
    destruct (negb (fte_latency val =? INFINITY)); [discriminate | auto].
Qed.

(** One iteration of the forced second pass keeps two such states in
    step, and sends the same. *)
Lemma withdraw_body_sim (ports : list Port) (fwd : ForwardingTable)
  (poisoned rfp trickled : list (Host * Port)) (rem : Host * Port)
  (port : Port) (w1 w2 : Wd) :
  fwd <> [] -> In port ports -> wd_sim ports fwd w1 w2 ->
  exists o w1' w2',
    withdraw_body true fwd poisoned rfp trickled rem port w1 = Next w1' o /\
    withdraw_body true fwd poisoned rfp trickled rem port w2 = Next w2' o /\
    wd_sim ports fwd w1' w2' /\ w_empty w1' = w_empty w1.
Proof.
  intros Ne Ip (Ee & Et & W1 & W2 & Ag). unfold withdraw_body.
  cbn [negb andb]. set (host := fst rem).
  destruct (forced_part_spec fwd rfp port host w1 Ne W1)
    as (h1 & -> & Wh1 & Fr1 & K1 & D1).
  destruct (forced_part_spec fwd rfp port host w2 Ne W2)
    as (h2 & -> & Wh2 & Fr2 & K2 & D2).
  cbn [seq]. rewrite !emit_nil.
  destruct (elem host (Dict.keys fwd)) eqn:Eh.
  - apply elem_In in Eh. pose proof (Ag port host Ip Eh) as G.
    rewrite <- G in K2, D2. rewrite <- G, <- Et, <- Ee.
    assert (Gh : Dict.get (port, host) h1 = Dict.get (port, host) h2).
    { destruct (forced_keeps fwd rfp port host
                  (Dict.get (port, host) (w_history w1))).
      - now rewrite K1, K2.
      - specialize (D1 eq_refl). specialize (D2 eq_refl).
        apply has_false in D1, D2. congruence. }
    match goal with
    | |- context [poison_part _ _ _ _ (mkW h1 ?e ?t)] =>
        destruct (poison_part_sim rfp trickled port host
                    (mkW h1 e t) (mkW h2 e t) eq_refl eq_refl)
          as (o & f & E1 & E2 & Hf)
    end.
    { cbn [w_history]. unfold Dict.has. now rewrite Gh. }
    rewrite E1, E2. cbn [w_history w_empty w_temp].
    eexists _, _, _. split; [reflexivity|]. split; [reflexivity|].
    split; [|reflexivity].
    unfold wd_sim. cbn [w_history w_empty w_temp].
    split; [reflexivity|]. split; [reflexivity|].
    destruct Hf as [->| ->].
    + split; [exact Wh1|]. split; [exact Wh2|].
      intros p k Ip' Ik.
      destruct (keq_spec (p, k) (port, host)) as [E|N].
      * now rewrite E.
      * rewrite Fr1, Fr2 by exact N. now apply Ag.
    + split; [now apply wf_set|]. split; [now apply wf_set|].
      intros p k Ip' Ik.
      destruct (keq_spec (p, k) (port, host)) as [E|N].
      * rewrite E. now rewrite !get_set_same.
      * rewrite !get_set_other by congruence.
        rewrite Fr1, Fr2 by exact N. now apply Ag.
  - apply elem_not_In in Eh.
    destruct (forced_absent fwd rfp port host
                (Dict.get (port, host) (w_history w1)) Ne Eh) as [T1 R1].
    destruct (forced_absent fwd rfp port host
                (Dict.get (port, host) (w_history w2)) Ne Eh) as [T2 R2].
    rewrite T1, T2, !app_nil_r.
    assert (P1 : Dict.has (port, host) h1 = true ->
                 elem (host, port) rfp = true).
    { intros Hh.
      destruct (forced_keeps fwd rfp port host
                  (Dict.get (port, host) (w_history w1))) eqn:Ek.
      - destruct (R1 eq_refl) as [En|Er]; [|exact Er].
        rewrite (K1 eq_refl) in Hh. unfold Dict.has in Hh.
        rewrite En in Hh. discriminate Hh.
      - rewrite (D1 eq_refl) in Hh. discriminate Hh. }
    assert (P2 : Dict.has (port, host) h2 = true ->
                 elem (host, port) rfp = true).
    { intros Hh.
      destruct (forced_keeps fwd rfp port host
                  (Dict.get (port, host) (w_history w2))) eqn:Ek.
      - destruct (R2 eq_refl) as [En|Er]; [|exact Er].
        rewrite (K2 eq_refl) in Hh. unfold Dict.has in Hh.
        rewrite En in Hh. discriminate Hh.
      - rewrite (D2 eq_refl) in Hh. discriminate Hh. }
    destruct (poison_part_rfp rfp trickled port host
                (mkW h1 (w_empty w1) (w_temp w1)) P1) as (f1 & E1 & Hf1).
    destruct (poison_part_rfp rfp trickled port host
                (mkW h2 (w_empty w2) (w_temp w2)) P2) as (f2 & E2 & Hf2).
    rewrite E1, E2. cbn [w_history w_empty w_temp]. rewrite <- Et.
    eexists _, _, _. split; [reflexivity|]. split; [reflexivity|].
    split; [|reflexivity].
    unfold wd_sim. cbn [w_history w_empty w_temp].
    split; [exact Ee|]. split; [reflexivity|].
    assert (Nk : forall p k, In k (Dict.keys fwd) ->
                             (port, host) <> (p, k)).
    { intros p k Ik [= -> ->]. now apply Eh. }
    split; [destruct Hf1 as [->| ->]; [exact Wh1 | now apply wf_set]|].
    split; [destruct Hf2 as [->| ->]; [exact Wh2 | now apply wf_set]|].
    intros p k Ip' Ik. specialize (Nk p k Ik).
    assert (G1 : Dict.get (p, k) (f1 h1) = Dict.get (p, k) h1)
      by (destruct Hf1 as [->| ->]; [reflexivity | now apply get_set_other]).
    assert (G2 : Dict.get (p, k) (f2 h2) = Dict.get (p, k) h2)
      by (destruct Hf2 as [->| ->]; [reflexivity | now apply get_set_other]).
    rewrite G1, G2, Fr1, Fr2 by congruence. now apply Ag.
Qed.

Lemma withdraw_ports_sim (ports : list Port) (fwd : ForwardingTable)
  (poisoned rfp trickled : list (Host * Port)) (rem : Host * Port) :
  fwd <> [] ->
  forall qs,
    incl qs ports ->
    forall w1 w2,
      wd_sim ports fwd w1 w2 ->
      exists o w1' w2',
        for_each (withdraw_body true fwd poisoned rfp trickled rem) qs w1
        = Next w1' o /\
        for_each (withdraw_body true fwd poisoned rfp trickled rem) qs w2
        = Next w2' o /\
        wd_sim ports fwd w1' w2' /\ w_empty w1' = w_empty w1.
Proof.
  intros Ne. induction qs as [|q r IH]; intros I w1 w2 Sm.
  - exists [], w1, w2. auto.
  - cbn [for_each].
    destruct (withdraw_body_sim ports fwd poisoned rfp trickled rem q w1 w2
                Ne (I q (or_introl eq_refl)) Sm)
      as (o & a1 & a2 & -> & -> & Sa & Ea).
    destruct (IH (fun x Hx => I x (or_intror Hx)) a1 a2 Sa)
      as (o' & b1 & b2 & -> & -> & Sb & Eb).
    exists (o ++ o'), b1, b2. cbn [emit].
    repeat split; auto; try apply Sb. congruence.
Qed.

(** The forced second pass on two such states sends the same packets. *)
Lemma withdraw_pass_sim (ports : list Port) (fwd : ForwardingTable)
  (poisoned rfp trickled : list (Host * Port)) :
  fwd <> [] ->
  forall removed w1 w2,
    wd_sim ports fwd w1 w2 ->
    exists o w1' w2',
      withdraw_pass true fwd removed poisoned rfp trickled ports w1
      = Next w1' o /\
      withdraw_pass true fwd removed poisoned rfp trickled ports w2
      = Next w2' o /\
      wd_sim ports fwd w1' w2' /\ w_empty w1' = w_empty w1.
Proof.
  intros Ne. unfold withdraw_pass.
  induction removed as [|rem r IH]; intros w1 w2 Sm.
  - exists [], w1, w2. auto.
  - cbn [for_each].
    destruct (withdraw_ports_sim ports fwd poisoned rfp trickled rem Ne
                ports (incl_refl ports) w1 w2 Sm)
      as (o & a1 & a2 & -> & -> & Sa & Ea).
    destruct (IH a1 a2 Sa) as (o' & b1 & b2 & -> & -> & Sb & Eb).
    exists (o ++ o'), b1, b2. cbn [emit].
    repeat split; auto; try apply Sb. congruence.
Qed.

Lemma route_sweep_wf poison force ps :
  forall h : History,
    Dict.wf h -> Dict.wf (fst (sweep (route_step poison force) ps h)).
Proof.
  induction ps as [|x r IH]; intros h W; [exact W|].
  cbn [sweep].
  destruct (route_step poison force x h) as [h' o] eqn:E.
  specialize (IH h'). destruct (sweep _ r h') as [h'' o']. cbn [fst] in *.
  apply IH. unfold route_step in E.
  destruct (adv_cost poison (fst x) (snd (snd x))) as [c|].
  - destruct (force || stale h (fst x) (fst (snd x)) c); inversion E; subst;
      [now apply wf_set | exact W].
  - inversion E; subst. exact W.
Qed.

(** A forced first pass in poison mode overwrites the history entry of
    every pair it visits, so two such passes leave the same entries
    there. *)
Lemma route_sweep_overwrites ps :
  forall (h1 h2 : History) (S : Port * Host -> Prop),
    (forall key, S key -> Dict.get key h1 = Dict.get key h2) ->
    forall key,
      S key \/
      In key (map (fun p : Port * (Host * ForwardingTableEntry) =>
                     (fst p, fst (snd p))) ps) ->
      Dict.get key (fst (sweep (route_step true true) ps h1))
      = Dict.get key (fst (sweep (route_step true true) ps h2)).
Proof.
  induction ps as [|[p [k it]] r IH]; intros h1 h2 S Ag key I.
  - destruct I as [I|[]]. now apply Ag.
  - cbn [sweep route_step adv_cost fst snd orb].
    set (e0 := FTE k p (if p =? fte_port it then INFINITY
                        else fte_latency it)).
    specialize (IH (Dict.set (p, k) e0 h1) (Dict.set (p, k) e0 h2)
                   (fun x => S x \/ x = (p, k))).
    destruct (sweep (route_step true true) r (Dict.set (p, k) e0 h1))
      as [a1 o1].
    destruct (sweep (route_step true true) r (Dict.set (p, k) e0 h2))
      as [a2 o2].
    cbn [fst] in *. apply IH.
    + intros x [Sx| ->].
      * destruct (keq_spec (p, k) x) as [<-|N];
          [now rewrite !get_set_same|].
        rewrite !get_set_other by exact N. now apply Ag.
      * now rewrite !get_set_same.
    + cbn [map fst snd] in I. destruct I as [I|[I|I]]; auto.
Qed.

Lemma settle_forced st w :
  settle st true w
  = with_emptyFwdTableList (w_empty w) (with_history (w_history w) st).
Proof. unfold settle. cbn [negb]. now rewrite andb_false_r. Qed.

(** C6, amended.  Two successive forced [send_routes] calls send the same
    forwarding-table advertisements, in the same order: one per active port
    and table entry (INFINITY on the route's own port in poison mode,
    nothing there otherwise).  Each call may add INFINITY withdrawals of
    hosts in [removedHosts].  There are none when POISON_MODE is false or
    [removedHosts] is empty, and when the forwarding table is not empty the
    withdrawals of the two calls are the same, in the same order: in all
    these cases the two outputs are equal.  Only on an empty forwarding
    table in poison mode may the withdrawals differ. *)
Theorem send_routes_forced_twice (st : Router) :
  exists st1 w1 st2 w2,
    send_routes st true = Next st1 (forced_routes st ++ w1) /\
    send_routes st1 true = Next st2 (forced_routes st ++ w2) /\
    Forall (withdrawal (removedHosts st) (Dict.keys (peer_tables st)))
      (w1 ++ w2) /\
    (POISON_MODE st = false \/ removedHosts st = [] -> w1 = [] /\ w2 = []) /\
    (Dict.wf (history st) -> forwarding_table st <> [] -> w1 = w2).
Proof.
  destruct (send_routes_shape st true) as (w & o1 & Hw & Q1 & E1).
  destruct (send_routes_shape (settle st true w) true)
    as (w' & o2 & Hw' & Q2 & E2).
  exists (settle st true w), o1, (settle (settle st true w) true w'), o2.
  destruct (settle_frame st true w)
    as (Fp & _ & Fpeers & Ffwd & Frem & Ftr & Fh & Fe).
  rewrite route_sweep_forced in E1, E2. fold (forced_routes st) in E1.
  fold (forced_routes (settle st true w)) in E2.
  rewrite forced_routes_settle in E2.
  split; [exact E1|]. split; [exact E2|].
  rewrite Frem, Fpeers in Q2. split; [apply Forall_app; auto|].
  assert (Frfp : removedFromPoisonedHosts (settle st true w)
                 = removedFromPoisonedHosts st)
    by (rewrite settle_forced; reflexivity).
  assert (Fpo : poisonedHosts (settle st true w) = poisonedHosts st)
    by (rewrite settle_forced; reflexivity).
  rewrite Fp, Fpeers, Ffwd, Frem, Ftr, Fh, Fe, Frfp, Fpo in Hw'.
  split.
  - intros [NP|NR].
    + rewrite NP in Hw, Hw'. destruct Hw as [_ ->], Hw' as [_ ->]. auto.
    + destruct (POISON_MODE st).
      * rewrite NR in Hw, Hw'. simpl in Hw, Hw'.
        inversion Hw; inversion Hw'; auto.
      * destruct Hw as [_ ->], Hw' as [_ ->]. auto.
  - intros Wh Ne. destruct (POISON_MODE st) eqn:Po.
    2:{ destruct Hw as [_ ->], Hw' as [_ ->]. reflexivity. }
    set (ports := Dict.keys (peer_tables st)) in *.
    set (fwd := forwarding_table st) in *.
    set (ps := route_pairs ports fwd) in *.
    set (h1 := fst (sweep (route_step true true) ps (history st))) in *.
    assert (Wh1 : Dict.wf h1) by now apply route_sweep_wf.
    assert (S0 : wd_sim ports fwd (mkW h1 (emptyFwdTableList st) [])
                   (mkW h1 (emptyFwdTableList st) [])).
    { repeat split; auto. }
    destruct (withdraw_pass_sim ports fwd (poisonedHosts st)
                (removedFromPoisonedHosts st) (trickledHosts st) Ne
                (removedHosts st) _ _ S0)
      as (o & a1 & a2 & Ea1 & _ & (_ & _ & Wa & _) & Ee).
    rewrite Hw in Ea1. inversion Ea1; subst a1 o. cbn [w_empty] in Ee.
    rewrite Ee in Hw'.
    set (h2 := fst (sweep (route_step true true) ps (w_history w))) in *.
    assert (Sm : wd_sim ports fwd (mkW h1 (emptyFwdTableList st) [])
                   (mkW h2 (emptyFwdTableList st) [])).
    { split; [reflexivity|]. split; [reflexivity|]. split; [exact Wh1|].
      split; [now apply route_sweep_wf|].
      intros p k Ip Ik. cbn [w_history].
      apply (route_sweep_overwrites ps (history st) (w_history w)
               (fun _ => False)); [tauto|].
      right. apply in_map_iff in Ik. destruct Ik as ([k' it] & <- & Ik).
      apply in_map_iff. exists (p, (k', it)). split; [reflexivity|].
      apply route_pairs_In. auto. }
    destruct (withdraw_pass_sim ports fwd (poisonedHosts st)
                (removedFromPoisonedHosts st) (trickledHosts st) Ne
                (removedHosts st) _ _ Sm)
      as (o & b1 & b2 & Eb1 & Eb2 & _).
    rewrite Hw in Eb1. rewrite Hw' in Eb2.
    inversion Eb1; inversion Eb2; congruence.
Qed.

Lemma send_routes_forced_twice_witness :
  Dict.wf (history ex_reroute) /\
  forwarding_table ex_reroute <> [] /\
  exists st1 w1 st2 w2,
    send_routes ex_reroute true = Next st1 (forced_routes ex_reroute ++ w1) /\
    send_routes st1 true = Next st2 (forced_routes ex_reroute ++ w2) /\
    Forall (withdrawal (removedHosts ex_reroute)
              (Dict.keys (peer_tables ex_reroute))) (w1 ++ w2) /\
    (POISON_MODE ex_reroute = false \/ removedHosts ex_reroute = [] ->
     w1 = [] /\ w2 = []) /\
    (Dict.wf (history ex_reroute) -> forwarding_table ex_reroute <> [] ->
     w1 = w2).
Proof.
  split; [apply nodupb_sound; reflexivity|].
  split; [discriminate|].
  exact (send_routes_forced_twice ex_reroute).
Defined.

(** On the example both forced calls advertise "C" and withdraw "B" on
    ports 2 and 4. *)
Example send_routes_forced_twice_ex_reroute :
  output (send_routes ex_reroute true)
  = [(RoutePacket "C"%string 16, 2); (RoutePacket "C"%string 6, 4);
     (RoutePacket "B"%string 16, 2); (RoutePacket "B"%string 16, 4)] /\
  output (send_routes (state_of (send_routes ex_reroute true)) true)
  = output (send_routes ex_reroute true).
Proof. split; reflexivity. Qed.

(** * Further properties *)

(** ** Handlers that complete *)

Lemma completes_inv {S P} (I : S -> Prop) (c : @Ctl P S) :
  completes I c -> exists s o, c = Next s o /\ I s.
Proof. destruct c; simpl; try contradiction. eauto. Qed.

Lemma completes_emit {S P} (I : S -> Prop) o (c : @Ctl P S) :
  completes I c -> completes I (emit o c).
Proof. destruct c; simpl; tauto. Qed.

Lemma completes_seq {S P} (I J : S -> Prop) (a : @Ctl P S) b :
  completes I a -> (forall s, I s -> completes J (b s)) ->
  completes J (seq a b).
Proof.
  destruct a; simpl; try tauto. intros Is Hb. apply completes_emit. auto.
Qed.

Lemma completes_lift {S T P} (I : T -> Prop) (inj : S -> T) (c : @Ctl P S) :
  completes (fun s => I (inj s)) c -> completes I (lift inj c).
Proof. destruct c; simpl; tauto. Qed.

Lemma completes_weaken {S P} (I J : S -> Prop) (c : @Ctl P S) :
  (forall s, I s -> J s) -> completes I c -> completes J c.
Proof. intros H. destruct c; simpl; auto. Qed.

Lemma completes_for_each {X S P} (I : S -> Prop)
  (body : X -> S -> @Ctl P S) xs :
  (forall x s, In x xs -> I s -> completes I (body x s)) ->
  forall s, I s -> completes I (for_each body xs s).
Proof.
  induction xs as [|x r IH]; intros Hb s Is; simpl; auto.
  pose proof (Hb x s (or_introl eq_refl) Is) as Hx.
  destruct (body x s); simpl in *; try tauto.
  apply completes_emit. apply IH; auto.
Qed.

Lemma recomputed_ok st :
  links_wf st -> router_ok (with_forwarding_table (recomputed st) st).
Proof.
  intros [W L]. destruct (merged_best st L) as [Wf B].
  fold (recomputed st) in Wf, B.
  unfold router_ok, router_wf, links_wf, routes_active, fwd_covers. fields.
  split; [split; [split; assumption | split; [exact Wf|]] | split].
  - intros k e I. apply get_In in I; auto. specialize (B k).
    rewrite I in B. tauto.
  - intros D e I. apply (merged_entry st) in I; auto.
    destruct I as (t & pe & l & Gt & _). unfold Dict.has. now rewrite Gt.
  - intros P t h pe It Ih.
    assert (Hk : In P (Dict.keys (peer_tables st))).
    { change P with (fst (P, t)). now apply in_map. }
    apply L in Hk. unfold Dict.has in Hk.
    destruct (Dict.get P (link_latency st)) as [l|] eqn:Gl; [|discriminate].
    destruct W as [Wp Wt].
    pose proof (offers_complete st h P t pe l (get_In _ _ _ Wp It)
                  (get_In _ _ _ (Wt _ _ It) Ih) Gl) as Io.
    specialize (B h). unfold Dict.has. fold (offers st h) in B.
    destruct (Dict.get h (recomputed st)); auto.
    rewrite B in Io. destruct Io.
Qed.

Lemma update_forwarding_table_completes st :
  links_wf st -> completes router_ok (update_forwarding_table st).
Proof.
  intros H. destruct H as [W L].
  rewrite (update_forwarding_table_fold st W L). simpl.
  apply recomputed_ok. now split.
Qed.

Lemma send_routes_router_ok st force :
  router_ok st -> completes router_ok (send_routes st force).
Proof.
  intros H.
  destruct (send_routes_shape st force) as (w & o2 & _ & _ & ->). simpl.
  destruct (settle_frame st force w) as (_ & El & Ep & Ef & _).
  unfold router_ok, router_wf, links_wf, routes_active, fwd_covers in *.
  now rewrite El, Ep, Ef.
Qed.

Lemma recompute_and_send_completes st force :
  links_wf st ->
  completes router_ok
    (seq (update_forwarding_table st) (fun st => send_routes st force)).
Proof.
  intros H. apply completes_seq with (I := router_ok).
  - now apply update_forwarding_table_completes.
  - intros s. apply send_routes_router_ok.
Qed.

Lemma store_entry_completes st port host pte :
  links_wf st -> Dict.has port (peer_tables st) = true ->
  completes links_wf (store_entry st port host pte).
Proof.
  intros [W L] Hp. unfold store_entry, Dict.has in *.
  destruct (Dict.get port (peer_tables st)) as [t|] eqn:G; [|discriminate].
  cbn [completes]. unfold links_wf. fields. split.
  - now apply store_entry_wf.
  - intros P I. apply L. rewrite keys_set_present in I; auto.
    unfold Dict.has. now rewrite G.
Qed.

Lemma handle_route_advertisement_completes st now dst port route_latency :
  router_ok st -> Dict.has port (peer_tables st) = true ->
  completes router_ok
    (handle_route_advertisement st now dst port route_latency).
Proof.
  intros ((H & _) & _) Hp. unfold handle_route_advertisement.
  apply completes_seq with (I := links_wf).
  - now apply store_entry_completes.
  - intros s. apply recompute_and_send_completes.
Qed.

Lemma add_static_route_completes st host port :
  router_ok st -> Dict.has port (peer_tables st) = true ->
  completes router_ok (add_static_route st host port).
Proof.
  intros ((H & _) & _) Hp. unfold add_static_route. rewrite Hp.
  cbn [negb]. apply completes_seq with (I := links_wf).
  - now apply store_entry_completes.
  - intros s. apply recompute_and_send_completes.
Qed.

Lemma handle_link_up_completes st port latency :
  router_ok st -> completes router_ok (handle_link_up st port latency).
Proof.
  intros (((W & L) & Wf & Kf) & Ra & Fc). unfold handle_link_up.
  apply completes_lift.
  apply completes_weaken with (I := fun _ : History => True).
  2:{ apply completes_for_each; auto. intros key h I _.
      cbn [forwarding_table with_peer_tables with_link_latency] in *.
      destruct (Dict.get key (forwarding_table st)) eqn:G; simpl; auto.
      now apply get_None_keys in G. }
  intros h _.
  unfold router_ok, router_wf, links_wf, routes_active, fwd_covers. fields.
  destruct W as [Wp Wt]. repeat split; auto.
  - now apply wf_set.
  - intros P t I. apply in_set in I. destruct I as [[= -> ->]|I]; eauto.
    constructor.
  - intros P I. apply in_keys_set in I. rewrite has_set.
    destruct I as [->|I]; [now rewrite keq_refl|].
    rewrite (L P I). apply orb_true_r.
  - intros D e I. rewrite has_set. rewrite (Ra D e I). apply orb_true_r.
  - intros P t h' pe I Ih. apply in_set in I.
    destruct I as [[= -> ->]|I]; [destruct Ih | eauto].
Qed.

Lemma handle_link_down_completes st port :
  router_ok st -> completes router_ok (handle_link_down st port).
Proof.
  intros (((W & L) & Wf & Kf) & _). unfold handle_link_down.
  assert (Hf : forall k,
             In k (Dict.keys (forwarding_table st)) ->
             exists e0, Dict.get k (forwarding_table st) = Some e0 /\
                        Dict.get k (forwarding_table st) = Some e0 /\
                        fte_dst e0 = k).
  { intros k I. apply in_map_iff in I. destruct I as ([k' e'] & <- & I).
    exists e'. simpl. repeat split; auto; now apply get_In. }
  destruct (unroute_loop port (forwarding_table st) (removedHosts st)
              (Dict.keys (forwarding_table st)) Wf st Hf
              (fun k _ => eq_refl))
    as (s & -> & _ & F1l & F1t & _).
  cbn [seq]. rewrite emit_nil.
  set (s2 := if elem port (Dict.keys (peer_tables s)) then _ else s).
  assert (H2 : links_wf s2).
  { assert (E : peer_tables s2
                = filter (fun kv : Port * PeerTable =>
                            negb (keq port (fst kv))) (peer_tables st)
                /\ link_latency s2 = link_latency st).
    { rewrite <- unplug_filter by apply W. rewrite <- F1t, <- F1l.
      unfold s2.
      destruct (elem port (Dict.keys (peer_tables s)));
        [destruct (Dict.del port (peer_tables s))|]; split; reflexivity. }
    destruct E as [Ep El]. unfold links_wf. rewrite Ep, El.
    split; [now apply unplug_wf | now apply unplug_cover]. }
  clearbody s2.
  destruct (purge_history_spec (removedHosts s2) (history s2))
    as (h1 & -> & _).
  cbn [lift seq]. rewrite emit_nil.
  apply recompute_and_send_completes. exact H2.
Qed.

(** ** [expire_routes] in a well-formed router *)

Lemma set_same {K V} `{EqKey K} (k : K) (v : V) (d : @Dict.t K V) :
  Dict.get k d = Some v -> Dict.set k v d = d.
Proof.
  induction d as [|[k0 v0] r IH]; simpl; [discriminate|].
  destruct (keq_spec k k0) as [->|N].
  - now intros [= ->].
  - intros G. now rewrite IH.
Qed.

Lemma set_set {K V} `{EqKey K} (k : K) (v v' : V) (d : @Dict.t K V) :
  Dict.set k v (Dict.set k v' d) = Dict.set k v d.
Proof.
  induction d as [|[k0 v0] r IH]; simpl.
  - now rewrite keq_refl.
  - destruct (keq k k0) eqn:E; simpl.
    + now rewrite keq_refl.
    + now rewrite E, IH.
Qed.

Lemma set_mid {K V} `{EqKey K} (k : K) (v v0 : V) (pre suf : @Dict.t K V) :
  ~ In k (Dict.keys pre) ->
  Dict.set k v (pre ++ (k, v0) :: suf) = pre ++ (k, v) :: suf.
Proof.
  induction pre as [|[k1 v1] r IH]; simpl; intros N.
  - now rewrite keq_refl.
  - destruct (keq_spec k k1) as [->|Ne]; [exfalso; apply N; now left|].
    rewrite IH; auto.
Qed.

Lemma get_mid {K V} `{EqKey K} (k : K) (v : V) (pre suf : @Dict.t K V) :
  ~ In k (Dict.keys pre) ->
  Dict.get k (pre ++ (k, v) :: suf) = Some v.
Proof.
  induction pre as [|[k1 v1] r IH]; simpl; intros N.
  - now rewrite keq_refl.
  - destruct (keq_spec k k1) as [->|Ne]; [exfalso; apply N; now left|].
    auto.
Qed.

Lemma wf_mid {K V} `{EqKey K} (k : K) (v : V) (pre suf : @Dict.t K V) :
  Dict.wf (pre ++ (k, v) :: suf) ->
  ~ In k (Dict.keys pre) /\ ~ In k (Dict.keys suf).
Proof.
  unfold Dict.wf, Dict.keys. rewrite map_app. simpl. intros ND.
  apply NoDup_remove_2 in ND. rewrite in_app_iff in ND. tauto.
Qed.

Lemma expiry_frame_refl s : expiry_frame s s.
Proof. unfold expiry_frame. repeat split; auto using incl_refl. Qed.

Lemma expiry_frame_trans s1 s2 s3 :
  expiry_frame s1 s2 -> expiry_frame s2 s3 -> expiry_frame s1 s3.
Proof.
  unfold expiry_frame.
  intros (A1 & A2 & A3 & A4 & A5 & A6 & A7 & A8)
         (B1 & B2 & B3 & B4 & B5 & B6 & B7 & B8).
  repeat split; try congruence; eapply incl_tran; eauto.
Qed.

Lemma noted_frame st port host :
  expiry_frame st (noted st port host) /\
  peer_tables (noted st port host) = peer_tables st /\
  forwarding_table (noted st port host) = forwarding_table st.
Proof.
  unfold noted, expiry_frame.
  destruct (negb (elem (host, port) (removedHosts st))); fields;
    repeat split; auto using incl_refl, incl_appl.
Qed.

Lemma expire_body_misses port host (f : ForwardingTable) st :
  (forall x, In x f -> fst x <> host) ->
  for_each (expire_body port host) f st = Next st [].
Proof.
  induction f as [|[dest fe] r IH]; intros N; [reflexivity|].
  cbn [for_each]. unfold expire_body at 1.
  assert (E : keq dest host = false).
  { apply keq_neq. apply (N (dest, fe)). now left. }
  rewrite E. cbn [emit]. rewrite emit_nil. apply IH.
  intros x I. apply N. now right.
Qed.

Lemma expire_body_no_break port host : no_break (expire_body port host).
Proof.
  intros [dest fe] s s' o. unfold expire_body.
  destruct (keq dest host); [|discriminate].
  unfold drop_entry. destruct (Dict.get port _); [|discriminate].
  destruct (Dict.del dest _); discriminate.
Qed.

(** The loop over the forwarding table deletes the entry once, at the
    table's entry for [host]. *)
Lemma expire_body_hits port host (fwd : ForwardingTable) st st2 :
  Dict.wf fwd -> Dict.has host fwd = true ->
  drop_entry (noted st port host) port host = Next st2 [] ->
  for_each (expire_body port host) fwd st = Next st2 [].
Proof.
  intros W Hh D. apply has_true in Hh. apply in_map_iff in Hh.
  destruct Hh as ([h fe] & Eh & I). simpl in Eh. subst h.
  apply in_split in I. destruct I as (f1 & f2 & ->).
  destruct (wf_mid host fe f1 f2 W) as [N1 N2].
  assert (M : forall f, ~ In host (Dict.keys f) ->
                        forall x : Host * ForwardingTableEntry,
                          In x f -> fst x <> host).
  { intros f N x Ix E. apply N. rewrite <- E. now apply in_map. }
  rewrite for_each_app by apply expire_body_no_break.
  rewrite expire_body_misses by (apply M; exact N1).
  cbn [seq for_each]. rewrite emit_nil. unfold expire_body at 1.
  rewrite keq_refl. unfold noted in D. fields. rewrite D. cbn [emit].
  rewrite emit_nil. apply expire_body_misses. apply M. exact N2.
Qed.

Lemma noted_wf st port host :
  router_wf st -> router_wf (noted st port host).
Proof.
  intros H. destruct (noted_frame st port host) as ((_ & El & _) & Ep & Ef).
  unfold router_wf, links_wf in *. now rewrite El, Ep, Ef.
Qed.

Lemma recomputed_same s s' :
  link_latency s' = link_latency s -> peer_tables s' = peer_tables s ->
  recomputed s' = recomputed s.
Proof. unfold recomputed. now intros -> ->. Qed.

(** The loop over one peer table, started in the middle: [kept] holds the
    entries visited and retained so far, [suf] those still to visit. *)
Lemma expire_inner now p :
  forall suf kept s,
    router_wf s -> fwd_covers s ->
    Dict.get p (peer_tables s) = Some (kept ++ suf) ->
    exists s',
      for_each (expire_entry now p) suf s
      = (if snd (expire_table now suf) then Ret s' [] else Next s' []) /\
      peer_tables s'
      = Dict.set p (kept ++ fst (expire_table now suf)) (peer_tables s) /\
      router_wf s' /\ fwd_covers s' /\ expiry_frame s s' /\
      ((peer_tables s' = peer_tables s /\
        forwarding_table s' = forwarding_table s)
       \/ forwarding_table s' = recomputed s').
Proof.
  induction suf as [|[h e] r IH]; intros kept s Wf Fc G.
  - exists s. cbn [for_each expire_table fst snd].
    rewrite set_same by exact G.
    split; [reflexivity|]. split; [reflexivity|]. split; [exact Wf|].
    split; [exact Fc|]. split; [apply expiry_frame_refl|]. left. auto.
  - cbn [for_each expire_table]. unfold expire_entry at 1.
    destruct (is_FOREVER (pte_expire_time e)) eqn:Ef.
    + exists s. cbn [fst snd]. rewrite set_same by exact G.
      split; [reflexivity|]. split; [reflexivity|]. split; [exact Wf|].
      split; [exact Fc|]. split; [apply expiry_frame_refl|]. left. auto.
    + destruct (past now (pte_expire_time e)) eqn:Ep.
      * (* the entry is overdue *)
        pose proof Wf as ((Wt & L) & Wfwd & Kf).
        assert (It : In (p, kept ++ (h, e) :: r) (peer_tables s))
          by now apply get_Some_In.
        assert (Wtab : Dict.wf (kept ++ (h, e) :: r))
          by (destruct Wt as [_ Wt]; eapply Wt; eauto).
        assert (Hh : Dict.has h (forwarding_table s) = true).
        { apply (Fc p _ h e It). apply in_app_iff. right. now left. }
        destruct (noted_frame s p h) as (Fr1 & Ep1 & Ef1).
        assert (Hd : drop_entry (noted s p h) p h
                     = Next (with_peer_tables
                               (Dict.set p (kept ++ r) (peer_tables s))
                               (noted s p h)) []).
        { unfold drop_entry. rewrite Ep1, G.
          rewrite del_mid; [reflexivity|].
          intros x Ix. apply keq_neq. intros ->.
          apply (proj1 (wf_mid (fst x) e kept r Wtab)).
          now apply in_map. }
        unfold Dict.items.
        rewrite (expire_body_hits p h (forwarding_table s) s _ Wfwd Hh Hd).
        cbn [seq]. rewrite emit_nil.
        set (s2 := with_peer_tables _ (noted s p h)) in *.
        assert (W2 : router_wf s2).
        { pose proof (drop_entry_wf (noted s p h) p h (noted_wf s p h Wf))
            as X. rewrite Hd in X. exact X. }
        destruct W2 as ((Wt2 & L2) & _).
        rewrite (update_forwarding_table_fold s2 Wt2 L2).
        fold (recomputed s2). cbn [emit app].
        set (s3 := with_forwarding_table (recomputed s2) s2).
        destruct (recomputed_ok s2 (conj Wt2 L2)) as (W3 & _ & F3).
        fold s3 in W3, F3.
        assert (G3 : Dict.get p (peer_tables s3) = Some (kept ++ r)).
        { unfold s3, s2. fields. apply get_set_same. }
        destruct (IH kept s3 W3 F3 G3) as (s' & E & Ep' & W' & F' & Fr' & D').
        destruct (expire_table now r) as [r' stop]. cbn [fst snd] in *.
        exists s'. split; [rewrite emit_nil; exact E|].
        assert (Fr3 : expiry_frame s s3).
        { apply expiry_frame_trans with (1 := Fr1).
          unfold s3, s2, expiry_frame. fields.
          repeat split; auto using incl_refl. }
        split; [|split; [exact W'|split; [exact F'|split]]].
        -- rewrite Ep'. unfold s3, s2. fields. apply set_set.
        -- apply expiry_frame_trans with (1 := Fr3). exact Fr'.
        -- right. destruct D' as [[Dp Df]|D']; [|exact D'].
           rewrite Df. unfold s3 at 1. fields. symmetry.
           apply recomputed_same; auto. apply Fr'.
      * (* the entry is still valid *)
        rewrite emit_nil.
        assert (G' : Dict.get p (peer_tables s)
                     = Some ((kept ++ [(h, e)]) ++ r))
          by (rewrite <- app_assoc; exact G).
        destruct (IH (kept ++ [(h, e)]) s Wf Fc G')
          as (s' & E & Ep' & R).
        destruct (expire_table now r) as [r' stop]. cbn [fst snd] in *.
        exists s'. split; [exact E|]. split; [|exact R].
        rewrite Ep', <- app_assoc. reflexivity.
Qed.

Lemma router_wfb_sound st : router_wfb st = true -> router_wf st.
Proof.
  unfold router_wfb. intros E.
  apply andb_true_iff in E. destruct E as [E E4].
  apply andb_true_iff in E. destruct E as [E E3].
  apply andb_true_iff in E. destruct E as [E1 E2].
  split; [split|split].
  - now apply tables_wfb_sound.
  - now apply links_coverb_sound.
  - now apply nodupb_sound.
  - now apply fwd_keyedb_sound.
Qed.

Lemma fwd_coversb_sound st : fwd_coversb st = true -> fwd_covers st.
Proof.
  unfold fwd_coversb, fwd_covers. rewrite forallb_forall.
  intros H P t h pe It Ih. specialize (H (P, t) It). simpl in H.
  rewrite forallb_forall in H. exact (H (h, pe) Ih).
Qed.

Lemma routes_activeb_sound st : routes_activeb st = true -> routes_active st.
Proof.
  unfold routes_activeb, routes_active. rewrite forallb_forall.
  intros H D e I. exact (H (D, e) I).
Qed.

Lemma no_staticb_sound peers : no_staticb peers = true -> no_static peers.
Proof.
  unfold no_staticb, no_static. rewrite forallb_forall.
  intros H P t h e It Ih. specialize (H (P, t) It). simpl in H.
  rewrite forallb_forall in H. specialize (H (h, e) Ih). simpl in H.
  now apply negb_true_iff in H.
Qed.

(** The loop over the ports, started in the middle: [done] holds the
    tables of the ports already visited. *)
Lemma expire_outer now :
  forall todo done s,
    router_wf s -> fwd_covers s ->
    peer_tables s = done ++ todo ->
    exists s',
      call (for_each
              (fun (pt : Port * PeerTable) st =>
                 let (port, peer_table) := pt in
                 for_each (expire_entry now port) (Dict.items peer_table) st)
              todo s)
      = Next s' [] /\
      peer_tables s' = done ++ expire_tables now todo /\
      router_wf s' /\ fwd_covers s' /\ expiry_frame s s' /\
      ((peer_tables s' = peer_tables s /\
        forwarding_table s' = forwarding_table s)
       \/ forwarding_table s' = recomputed s').
Proof.
  induction todo as [|[p t] rest IH]; intros done s Wf Fc Ep.
  - exists s. cbn [for_each call expire_tables].
    split; [reflexivity|]. split; [exact Ep|]. split; [exact Wf|].
    split; [exact Fc|]. split; [apply expiry_frame_refl|]. left. auto.
  - pose proof Wf as (((Wp & _) & _) & _). rewrite Ep in Wp.
    destruct (wf_mid p t done rest Wp) as [Nd _].
    assert (G : Dict.get p (peer_tables s) = Some ([] ++ t)).
    { rewrite Ep. now apply get_mid. }
    destruct (expire_inner now p t [] s Wf Fc G)
      as (s1 & E1 & Ep1 & W1 & F1 & Fr1 & D1).
    cbn [app] in Ep1. rewrite Ep, set_mid in Ep1 by exact Nd.
    cbn [for_each expire_tables]. unfold Dict.items at 1. rewrite E1.
    destruct (snd (expire_table now t)).
    + exists s1. cbn [call]. split; [reflexivity|]. split; [exact Ep1|].
      split; [exact W1|]. split; [exact F1|]. split; [exact Fr1|].
      exact D1.
    + rewrite emit_nil.
      assert (Ep1' : peer_tables s1
                     = (done ++ [(p, fst (expire_table now t))]) ++ rest)
        by (rewrite <- app_assoc; exact Ep1).
      destruct (IH _ s1 W1 F1 Ep1') as (s' & E & Ep' & W' & F' & Fr' & D').
      exists s'. split; [exact E|].
      split; [rewrite Ep', <- app_assoc; reflexivity|].
      split; [exact W'|]. split; [exact F'|].
      split; [eapply expiry_frame_trans; eauto|].
      destruct D' as [[Dp Df]|D']; [|right; exact D'].
      destruct D1 as [[Dp1 Df1]|D1].
      * left. split; congruence.
      * right. rewrite Df, D1. symmetry. apply recomputed_same; auto.
        apply Fr'.
Qed.

(** [expire_routes] in a well-formed router whose forwarding table covers
    the peer tables. *)
Lemma expire_routes_spec st now :
  router_wf st -> fwd_covers st ->
  exists st',
    expire_routes st now = Next st' [] /\
    peer_tables st' = expire_tables now (peer_tables st) /\
    router_wf st' /\ fwd_covers st' /\ expiry_frame st st' /\
    ((peer_tables st' = peer_tables st /\
      forwarding_table st' = forwarding_table st)
     \/ forwarding_table st' = recomputed st').
Proof.
  intros Wf Fc. unfold expire_routes, Dict.items.
  exact (expire_outer now (peer_tables st) [] st Wf Fc eq_refl).
Qed.

(** *** What the expiry keeps and what it drops *)

Lemma expire_table_keeps now t h e :
  In (h, e) t -> past now (pte_expire_time e) = false ->
  In (h, e) (fst (expire_table now t)).
Proof.
  induction t as [|[h0 e0] r IH]; intros I Np; [destruct I|].
  cbn [expire_table].
  destruct (is_FOREVER (pte_expire_time e0)); [exact I|].
  destruct (expire_table now r) as [r' stop]. cbn [fst] in *.
  destruct I as [[= -> ->]|I].
  - rewrite Np. now left.
  - destruct (past now (pte_expire_time e0)); [auto | right; auto].
Qed.

Lemma expire_table_incl now t : incl (fst (expire_table now t)) t.
Proof.
  induction t as [|[h0 e0] r IH]; [apply incl_refl|].
  cbn [expire_table].
  destruct (is_FOREVER (pte_expire_time e0)); [apply incl_refl|].
  destruct (expire_table now r) as [r' stop]. cbn [fst] in *.
  destruct (past now (pte_expire_time e0)).
  - now apply incl_tl.
  - intros x [<-|I]; [now left | right; auto].
Qed.

Lemma expire_tables_keys now peers :
  Dict.keys (expire_tables now peers) = Dict.keys peers.
Proof.
  induction peers as [|[p t] r IH]; [reflexivity|].
  cbn [expire_tables Dict.keys map fst].
  destruct (snd (expire_table now t)); [reflexivity|].
  f_equal. exact IH.
Qed.

Lemma expire_tables_keeps now peers P t h e :
  In (P, t) peers -> In (h, e) t -> past now (pte_expire_time e) = false ->
  exists t', In (P, t') (expire_tables now peers) /\ In (h, e) t'.
Proof.
  induction peers as [|[p0 t0] r IH]; intros It Ih Np; [destruct It|].
  cbn [expire_tables]. destruct It as [[= -> ->]|It].
  - exists (fst (expire_table now t)). split; [now left|].
    now apply expire_table_keeps.
  - destruct (snd (expire_table now t0)).
    + exists t. split; [now right | exact Ih].
    + destruct (IH It Ih Np) as (t' & I' & Ih'). exists t'.
      split; [now right | exact Ih'].
Qed.

Lemma expire_tables_incl now peers P t' :
  In (P, t') (expire_tables now peers) ->
  exists t, In (P, t) peers /\ incl t' t.
Proof.
  induction peers as [|[p0 t0] r IH]; intros I; [destruct I|].
  cbn [expire_tables] in I. destruct I as [[= <- <-]|I].
  - exists t0. split; [now left | apply expire_table_incl].
  - destruct (snd (expire_table now t0)).
    + exists t'. split; [now right | apply incl_refl].
    + destruct (IH I) as (t & It & Hi). exists t. split; [now right|auto].
Qed.

Lemma expire_table_no_static now t :
  (forall h e, In (h, e) t -> is_FOREVER (pte_expire_time e) = false) ->
  expire_table now t
  = (filter (fun he : Host * PeerTableEntry =>
               negb (past now (pte_expire_time (snd he)))) t, false).
Proof.
  induction t as [|[h0 e0] r IH]; intros N; [reflexivity|].
  cbn [expire_table filter snd].
  rewrite (N h0 e0) by now left.
  rewrite IH by (intros h e I; apply (N h e); now right).
  now destruct (past now (pte_expire_time e0)).
Qed.

Lemma expire_tables_no_static now peers :
  no_static peers -> expire_tables now peers = without_overdue now peers.
Proof.
  unfold no_static, without_overdue.
  induction peers as [|[p t] r IH]; intros N; [reflexivity|].
  cbn [expire_tables map fst snd].
  rewrite expire_table_no_static by (intros h e I; apply (N p t h e); auto;
                                     now left).
  cbn [fst snd]. f_equal. apply IH.
  intros P t0 h e It. apply (N P t0 h e). now right.
Qed.

(** X1.  In a well-formed router whose forwarding table covers the peer
    tables, [expire_routes] completes without raising and sends nothing; it
    removes no port, changes no link latency and no history entry; an entry
    that is not overdue (a FOREVER entry in particular) is still in its
    table afterwards, and every entry present afterwards was there
    before. *)
Theorem expire_routes_keeps_valid (st : Router) (now : Z) :
  router_wf st -> fwd_covers st ->
  exists st',
    expire_routes st now = Next st' [] /\
    Dict.keys (peer_tables st') = Dict.keys (peer_tables st) /\
    link_latency st' = link_latency st /\
    history st' = history st /\
    (forall P t h e,
        Dict.get P (peer_tables st) = Some t -> Dict.get h t = Some e ->
        past now (pte_expire_time e) = false ->
        exists t', Dict.get P (peer_tables st') = Some t' /\
                   Dict.get h t' = Some e) /\
    (forall P t' h e,
        Dict.get P (peer_tables st') = Some t' -> Dict.get h t' = Some e ->
        exists t, Dict.get P (peer_tables st) = Some t /\
                  Dict.get h t = Some e).
Proof.
  intros Wf Fc.
  destruct (expire_routes_spec st now Wf Fc)
    as (st' & E & Ep & W' & _ & Fr & _).
  exists st'. split; [exact E|].
  split; [rewrite Ep; apply expire_tables_keys|].
  split; [apply Fr|]. split; [apply Fr|].
  destruct Wf as (([Wp Wt] & _) & _). destruct W' as (([Wp' Wt'] & _) & _).
  split.
  - intros P t h e Gt Ge Np. apply get_Some_In in Gt, Ge.
    destruct (expire_tables_keeps now _ P t h e Gt Ge Np) as (t' & It & Ih).
    rewrite <- Ep in It. exists t'. split; [now apply get_In|].
    apply get_In; eauto.
  - intros P t' h e Gt Ge. apply get_Some_In in Gt, Ge.
    rewrite Ep in Gt.
    destruct (expire_tables_incl now _ P t' Gt) as (t & It & Hi).
    exists t. split; [now apply get_In|]. apply get_In; eauto.
Qed.

Lemma expire_routes_keeps_valid_witness :
  exists st',
    expire_routes ex_static 20 = Next st' [] /\
    Dict.keys (peer_tables st') = Dict.keys (peer_tables ex_static) /\
    link_latency st' = link_latency ex_static /\
    history st' = history ex_static /\
    (forall P t h e,
        Dict.get P (peer_tables ex_static) = Some t ->
        Dict.get h t = Some e ->
        past 20 (pte_expire_time e) = false ->
        exists t', Dict.get P (peer_tables st') = Some t' /\
                   Dict.get h t' = Some e) /\
    (forall P t' h e,
        Dict.get P (peer_tables st') = Some t' -> Dict.get h t' = Some e ->
        exists t, Dict.get P (peer_tables ex_static) = Some t /\
                  Dict.get h t = Some e).
Proof.
  apply (expire_routes_keeps_valid ex_static 20).
  - apply router_wfb_sound; reflexivity.
  - apply fwd_coversb_sound; reflexivity.
Defined.

(** X2.  In such a router [expire_routes] removes exactly the overdue
    entries it visits before the first FOREVER entry: the tables of the
    ports after that entry, and the entries after it in its own table, are
    left as they are.  Unless nothing was removed, the forwarding table is
    afterwards the one recomputed from the remaining entries. *)
Theorem expire_routes_until_static (st : Router) (now : Z) :
  router_wf st -> fwd_covers st ->
  exists st',
    expire_routes st now = Next st' [] /\
    peer_tables st' = expire_tables now (peer_tables st) /\
    ((peer_tables st' = peer_tables st /\
      forwarding_table st' = forwarding_table st)
     \/ forwarding_table st' = recomputed st').
Proof.
  intros Wf Fc.
  destruct (expire_routes_spec st now Wf Fc) as (st' & E & Ep & _ & _ & _ & D).
  exists st'. auto.
Qed.

Lemma expire_routes_until_static_witness :
  exists st',
    expire_routes ex_static_swapped 20 = Next st' [] /\
    peer_tables st' = expire_tables 20 (peer_tables ex_static_swapped) /\
    ((peer_tables st' = peer_tables ex_static_swapped /\
      forwarding_table st' = forwarding_table ex_static_swapped)
     \/ forwarding_table st' = recomputed st').
Proof.
  apply (expire_routes_until_static ex_static_swapped 20).
  - apply router_wfb_sound; reflexivity.
  - apply fwd_coversb_sound; reflexivity.
Defined.

(** X3.  When no peer table holds a FOREVER entry, one call of
    [expire_routes] in such a router removes every overdue entry of every
    active port and nothing else, so no remaining entry is overdue; unless
    nothing was overdue, the forwarding table is afterwards the one
    recomputed from the remaining entries. *)
Theorem expire_routes_without_static (st : Router) (now : Z) :
  router_wf st -> fwd_covers st -> no_static (peer_tables st) ->
  exists st',
    expire_routes st now = Next st' [] /\
    peer_tables st' = without_overdue now (peer_tables st) /\
    (forall P t h e,
        In (P, t) (peer_tables st') -> In (h, e) t ->
        past now (pte_expire_time e) = false) /\
    ((peer_tables st' = peer_tables st /\
      forwarding_table st' = forwarding_table st)
     \/ forwarding_table st' = recomputed st').
Proof.
  intros Wf Fc Ns.
  destruct (expire_routes_spec st now Wf Fc) as (st' & E & Ep & _ & _ & _ & D).
  rewrite expire_tables_no_static in Ep by exact Ns.
  exists st'. split; [exact E|]. split; [exact Ep|]. split; [|exact D].
  intros P t h e It Ih. rewrite Ep in It. unfold without_overdue in It.
  apply in_map_iff in It. destruct It as ([P0 t0] & [= <- <-] & _).
  apply filter_In in Ih. destruct Ih as [_ Ih]. simpl in Ih.
  now apply negb_true_iff in Ih.
Qed.

Lemma expire_routes_without_static_witness :
  exists st',
    expire_routes ex_three 20 = Next st' [] /\
    peer_tables st' = without_overdue 20 (peer_tables ex_three) /\
    (forall P t h e,
        In (P, t) (peer_tables st') -> In (h, e) t ->
        past 20 (pte_expire_time e) = false) /\
    ((peer_tables st' = peer_tables ex_three /\
      forwarding_table st' = forwarding_table ex_three)
     \/ forwarding_table st' = recomputed st').
Proof.
  apply (expire_routes_without_static ex_three 20).
  - apply router_wfb_sound; reflexivity.
  - apply fwd_coversb_sound; reflexivity.
  - apply no_staticb_sound; reflexivity.
Defined.

(** On the example both entries are overdue at time 20 and the forwarding
    table ends up empty. *)
Example expire_routes_ex_three :
  peer_tables (state_of (expire_routes ex_three 20))
  = [(1, []); (2, []); (3, [])] /\
  forwarding_table (state_of (expire_routes ex_three 20)) = [].
Proof. split; reflexivity. Qed.

(** X4.  [handle_timer] in such a router completes without raising: after
    the expiry it sends the forced advertisements of the whole forwarding
    table on every active port, followed at most by INFINITY withdrawals of
    hosts in [removedHosts]. *)
Theorem handle_timer_readvertises (st : Router) (now : Z) :
  router_wf st -> fwd_covers st ->
  exists st' w,
    handle_timer st now = Next st' (forced_routes st' ++ w) /\
    peer_tables st' = expire_tables now (peer_tables st) /\
    Forall (withdrawal (removedHosts st') (Dict.keys (peer_tables st'))) w.
Proof.
  intros Wf Fc.
  destruct (expire_routes_spec st now Wf Fc) as (s1 & E & Ep & _).
  unfold handle_timer. rewrite E. cbn [seq]. rewrite emit_nil.
  destruct (send_routes_shape s1 true) as (w & o2 & _ & Q & ->).
  destruct (settle_frame s1 true w)
    as (_ & _ & Fpeers & _ & Frem & _).
  exists (settle s1 true w), o2.
  rewrite route_sweep_forced. fold (forced_routes s1).
  rewrite forced_routes_settle, Fpeers, Frem. auto.
Qed.

Lemma handle_timer_readvertises_witness :
  exists st' w,
    handle_timer ex_static 20 = Next st' (forced_routes st' ++ w) /\
    peer_tables st' = expire_tables 20 (peer_tables ex_static) /\
    Forall (withdrawal (removedHosts st') (Dict.keys (peer_tables st'))) w.
Proof.
  apply (handle_timer_readvertises ex_static 20).
  - apply router_wfb_sound; reflexivity.
  - apply fwd_coversb_sound; reflexivity.
Defined.

(** ** The router stays live *)

Lemma routes_active_recomputed st :
  links_wf st -> forwarding_table st = recomputed st -> routes_active st.
Proof.
  intros H E. destruct (recomputed_ok st H) as (_ & Ra & _).
  unfold routes_active in *. fields. now rewrite E.
Qed.

Lemma expire_routes_completes st now :
  router_ok st -> completes router_ok (expire_routes st now).
Proof.
  intros (Wf & Ra & Fc).
  destruct (expire_routes_spec st now Wf Fc)
    as (st' & -> & _ & W' & F' & _ & D).
  cbn [completes]. split; [exact W'|]. split; [|exact F'].
  destruct D as [[Dp Df]|D].
  - unfold routes_active in *. now rewrite Dp, Df.
  - apply routes_active_recomputed; auto. apply W'.
Qed.

Lemma handle_completes st ev :
  router_ok st -> deliverable st ev -> completes router_ok (handle st ev).
Proof.
  intros H Dv. unfold handle.
  assert (C : forall c : Out Router,
             completes router_ok c -> completes router_ok (call c)).
  { intros c. destruct c; simpl; tauto. }
  destruct ev; unfold deliverable in Dv; cbn [port_needed] in Dv.
  - apply C. now apply handle_link_up_completes.
  - apply C. now apply handle_link_down_completes.
  - apply C. now apply add_static_route_completes.
  - apply C. now apply handle_route_advertisement_completes.
  - apply C. unfold handle_timer.
    apply completes_seq with (I := router_ok).
    + now apply expire_routes_completes.
    + intros s. apply send_routes_router_ok.
  - unfold handle_data_packet.
    destruct (Dict.get _ _) as [e|]; [|exact H].
    destruct (INFINITY <=? fte_latency e); [exact H|].
    destruct (fte_port e =? in_port); exact H.
Qed.

Lemma handle_undeliverable st ev :
  ~ deliverable st ev -> raises (handle st ev).
Proof.
  unfold deliverable, handle.
  destruct ev; cbn [port_needed]; try tauto; intros N;
    apply not_true_is_false in N.
  - unfold add_static_route. rewrite N. exact Logic.I.
  - apply has_false in N.
    unfold handle_route_advertisement, store_entry. rewrite N. exact Logic.I.
Qed.

Lemma handle_router_ok st ev st' out :
  router_ok st -> handle st ev = Next st' out -> router_ok st'.
Proof.
  intros H E.
  assert (Dv : deliverable st ev).
  { unfold deliverable. destruct (port_needed ev) as [port|] eqn:Pn; auto.
    destruct (Dict.has port (peer_tables st)) eqn:Hp; auto. exfalso.
    assert (N : ~ deliverable st ev)
      by (unfold deliverable; rewrite Pn, Hp; discriminate).
    apply handle_undeliverable in N. rewrite E in N. exact N. }
  pose proof (handle_completes st ev H Dv) as C. rewrite E in C. exact C.
Qed.

Lemma run_router_ok evs :
  forall st st', router_ok st -> run st evs = Some st' -> router_ok st'.
Proof.
  induction evs as [|ev r IH]; intros st st' H; simpl.
  - now intros [= <-].
  - destruct (handle st ev) as [s o| | |] eqn:E; try discriminate.
    apply IH. eapply handle_router_ok; eauto.
Qed.

Lemma init_ok poison : router_ok (init poison).
Proof.
  split; [apply init_wf|]. split.
  - intros D e [].
  - intros P t h pe [].
Qed.

(** X5.  No event is fatal to a router that has handled events from a
    fresh start: every handler completes without raising, except that a
    route advertisement or a static route for a port without a peer table
    raises (and only then). *)
Theorem handlers_stay_live (poison : bool) (evs : list Event) (st : Router)
  (ev : Event) :
  run (init poison) evs = Some st ->
  (deliverable st ev -> exists st' out, handle st ev = Next st' out) /\
  (~ deliverable st ev -> raises (handle st ev)).
Proof.
  intros R. pose proof (run_router_ok evs _ _ (init_ok poison) R) as H.
  split.
  - intros Dv. pose proof (handle_completes st ev H Dv) as C.
    apply completes_inv in C. destruct C as (s & o & E & _). eauto.
  - apply handle_undeliverable.
Qed.

Lemma handlers_stay_live_witness :
  (deliverable ex_three (Timer 20) ->
   exists st' out, handle ex_three (Timer 20) = Next st' out) /\
  (~ deliverable ex_three (Timer 20) -> raises (handle ex_three (Timer 20))).
Proof.
  exact (handlers_stay_live true
           [LinkUp 1 1; LinkUp 2 5; LinkUp 3 2;
            Advertisement 0 "B"%string 1 2; Advertisement 0 "C"%string 2 1]
           ex_three (Timer 20) eq_refl).
Defined.

(** X6.  In every state a fresh router reaches by handling events, every
    route of the forwarding table leaves by a port that has a peer table,
    and every destination found in a peer table has a forwarding-table
    entry. *)
Theorem reachable_routes_consistent (poison : bool) (evs : list Event)
  (st : Router) :
  run (init poison) evs = Some st -> routes_active st /\ fwd_covers st.
Proof.
  intros R. exact (proj2 (run_router_ok evs _ _ (init_ok poison) R)).
Qed.

Lemma reachable_routes_consistent_witness :
  routes_active ex_three /\ fwd_covers ex_three.
Proof.
  exact (reachable_routes_consistent true
           [LinkUp 1 1; LinkUp 2 5; LinkUp 3 2;
            Advertisement 0 "B"%string 1 2; Advertisement 0 "C"%string 2 1]
           ex_three eq_refl).
Defined.

Lemma reachable_router_wf_witness : router_wf ex_three.
Proof.
  exact (reachable_router_wf true
           [LinkUp 1 1; LinkUp 2 5; LinkUp 3 2;
            Advertisement 0 "B"%string 1 2; Advertisement 0 "C"%string 2 1]
           ex_three eq_refl).
Defined.

(** ** [update_forwarding_table], further *)

Lemma merge_entry_outcome links peers port hv fwd :
  match Dict.get port links with
  | Some _ => exists fwd', merge_entry links peers port hv fwd = Next fwd' []
  | None => merge_entry links peers port hv fwd = Exc KeyError fwd []
  end.
Proof.
  destruct hv as [host value]. unfold merge_entry.
  destruct (Dict.get port links) as [l|]; [|reflexivity].
  destruct (Dict.get host fwd) as [prev|]; [|eauto].
  destruct (_ <? fte_latency prev); eauto.
Qed.

Lemma merge_flat_outcome links peers vs :
  forall fwd,
    (exists fwd',
        for_each (fun (p : Port * (Host * PeerTableEntry)) s =>
                    merge_entry links peers (fst p) (snd p) s) vs fwd
        = Next fwd' [] /\
        forall v, In v vs -> Dict.get (fst v) links <> None)
    \/
    (exists fwd',
        for_each (fun (p : Port * (Host * PeerTableEntry)) s =>
                    merge_entry links peers (fst p) (snd p) s) vs fwd
        = Exc KeyError fwd' [] /\
        exists v, In v vs /\ Dict.get (fst v) links = None).
Proof.
  induction vs as [|[P hv] r IH]; intros fwd.
  - left. exists fwd. split; [reflexivity | intros v []].
  - cbn [for_each fst snd].
    pose proof (merge_entry_outcome links peers P hv fwd) as O.
    destruct (Dict.get P links) as [l|] eqn:G.
    + destruct O as (fwd1 & ->). cbn [emit]. rewrite emit_nil.
      destruct (IH fwd1) as [(f' & E & A)|(f' & E & v & Iv & Gv)].
      * left. exists f'. split; [exact E|].
        intros v [<-|Iv]; [simpl; congruence | auto].
      * right. exists f'. split; [exact E|]. exists v. split; [now right|auto].
    + rewrite O. right. exists fwd. split; [reflexivity|].
      exists (P, hv). split; [now left | exact G].
Qed.

Lemma merge_tables_flat links peers fwd :
  merge_tables links peers fwd
  = for_each (fun (p : Port * (Host * PeerTableEntry)) s =>
                merge_entry links peers (fst p) (snd p) s)
      (visits peers) fwd.
Proof.
  unfold merge_tables, Dict.items, visits.
  rewrite <- (for_each_nested (merge_entry links peers)).
  - apply for_each_ext. now intros [port peer_table] s.
  - intros a. apply merge_entry_no_break.
Qed.

Lemma link_missing_visits st :
  link_missing st <->
  exists v, In v (visits (peer_tables st)) /\
            Dict.get (fst v) (link_latency st) = None.
Proof.
  unfold link_missing. split.
  - intros (P & t & It & Ne & G). destruct t as [|[h e] t]; [congruence|].
    exists (P, (h, e)). split; [|exact G].
    apply visits_In. exists ((h, e) :: t). split; [exact It | now left].
  - intros ([P [h e]] & Iv & G). apply visits_In in Iv.
    destruct Iv as (t & It & Ih). exists P, t. split; [exact It|].
    split; [|exact G]. intros ->. destruct Ih.
Qed.

(** X7.  [update_forwarding_table] raises [KeyError] exactly when some
    active port with a non-empty peer table has no link latency, and
    completes normally exactly when there is none; it sends nothing either
    way, and needs no other condition on the state. *)
Theorem update_forwarding_table_link_missing (st : Router) :
  (link_missing st <->
   exists st', update_forwarding_table st = Exc KeyError st' []) /\
  (~ link_missing st <->
   exists st', update_forwarding_table st = Next st' []).
Proof.
  unfold update_forwarding_table. rewrite merge_tables_flat.
  rewrite link_missing_visits.
  destruct (merge_flat_outcome (link_latency st) (peer_tables st)
              (visits (peer_tables st)) [])
    as [(f' & -> & A)|(f' & -> & v & Iv & Gv)]; cbn [lift].
  - split; split.
    + intros (v & Iv & Gv). now apply A in Gv.
    + intros (st' & E). discriminate E.
    + eauto.
    + intros _ (v & Iv & Gv). now apply A in Gv.
  - split; split.
    + eauto.
    + eauto.
    + intros N. exfalso. apply N. eauto.
    + intros (st' & E). discriminate E.
Qed.

(** A port whose latency was never recorded makes the recomputation
    fail. *)
Example update_forwarding_table_no_latency :
  update_forwarding_table
    (with_link_latency [] (with_forwarding_table [] ex_up))
  = Next (with_link_latency [] (with_forwarding_table [] ex_up)) [] /\
  raises (update_forwarding_table (with_link_latency [(2, 5)] ex_static)).
Proof. split; [reflexivity | exact Logic.I]. Qed.

Lemma recomputed_bound st P t D pe l :
  links_wf st ->
  Dict.get P (peer_tables st) = Some t -> Dict.get D t = Some pe ->
  Dict.get P (link_latency st) = Some l ->
  exists e,
    Dict.get D (recomputed st) = Some e /\
    fte_latency e <= Z.min (l + pte_latency pe) INFINITY.
Proof.
  intros [W L] Gt Ge Gl. destruct (merged_best st L) as [_ B].
  fold (recomputed st) in B. specialize (B D). fold (offers st D) in B.
  pose proof (offers_complete st D P t pe l Gt Ge Gl) as Io.
  destruct (Dict.get D (recomputed st)) as [e|].
  2:{ rewrite B in Io. destruct Io. }
  exists e. split; [reflexivity|].
  destruct B as (_ & pre & post & E & Hpre & Hpost).
  rewrite E in Io. apply in_app_iff in Io.
  destruct Io as [Io|[Io|Io]].
  - apply Hpre in Io. simpl in Io. lia.
  - inversion Io. lia.
  - apply Hpost in Io. exact Io.
Qed.

(** X8.  After [update_forwarding_table] in a well-formed router, the
    forwarding table holds no route that the peer tables do not back: each
    entry is filed under its own destination, leaves by an active port
    whose peer table holds that destination, and costs that port's link
    latency plus the advertised latency, capped at INFINITY.  With all peer
    tables empty the forwarding table is empty. *)
Theorem update_forwarding_table_backed (st : Router) :
  tables_wf (peer_tables st) ->
  links_cover (link_latency st) (peer_tables st) ->
  exists fwd,
    update_forwarding_table st = Next (with_forwarding_table fwd st) [] /\
    (forall D e,
        In (D, e) fwd ->
        fte_dst e = D /\
        exists t pe l,
          Dict.get (fte_port e) (peer_tables st) = Some t /\
          Dict.get D t = Some pe /\
          Dict.get (fte_port e) (link_latency st) = Some l /\
          fte_latency e = Z.min (l + pte_latency pe) INFINITY) /\
    ((forall P t, In (P, t) (peer_tables st) -> t = []) -> fwd = []).
Proof.
  intros W L. exists (recomputed st).
  split; [now apply update_forwarding_table_fold|].
  destruct (recomputed_ok st (conj W L)) as ((_ & _ & Kf) & _).
  assert (B : forall D e,
             In (D, e) (recomputed st) ->
             fte_dst e = D /\
             exists t pe l,
               Dict.get (fte_port e) (peer_tables st) = Some t /\
               Dict.get D t = Some pe /\
               Dict.get (fte_port e) (link_latency st) = Some l /\
               fte_latency e = Z.min (l + pte_latency pe) INFINITY).
  { intros D e I. split; [now apply Kf|]. now apply merged_entry. }
  split; [exact B|].
  intros Em. destruct (recomputed st) as [|[D e] r]; [reflexivity|].
  destruct (B D e (or_introl eq_refl)) as (_ & t & pe & l & Gt & Ge & _).
  apply get_Some_In in Gt. rewrite (Em _ _ Gt) in Ge. discriminate Ge.
Qed.

Lemma update_forwarding_table_backed_witness :
  exists fwd,
    update_forwarding_table ex_merge
    = Next (with_forwarding_table fwd ex_merge) [] /\
    (forall D e,
        In (D, e) fwd ->
        fte_dst e = D /\
        exists t pe l,
          Dict.get (fte_port e) (peer_tables ex_merge) = Some t /\
          Dict.get D t = Some pe /\
          Dict.get (fte_port e) (link_latency ex_merge) = Some l /\
          fte_latency e = Z.min (l + pte_latency pe) INFINITY) /\
    ((forall P t, In (P, t) (peer_tables ex_merge) -> t = []) -> fwd = []).
Proof.
  apply (update_forwarding_table_backed ex_merge).
  - apply tables_wfb_sound; reflexivity.
  - apply links_coverb_sound; reflexivity.
Defined.

(** ** [send_routes], further *)

Lemma adv_cost_cases poison port item c :
  adv_cost poison port item = Some c ->
  c = INFINITY \/ (c = fte_latency item /\ fte_port item <> port).
Proof.
  unfold adv_cost.
  destruct poison; destruct (Z.eqb_spec port (fte_port item)) as [E|N];
    intros [= <-]; auto; right; split; auto.
Qed.

Lemma send_routes_frame (st : Router) (force : bool) :
  exists st' out,
    send_routes st force = Next st' out /\
    POISON_MODE st' = POISON_MODE st /\
    link_latency st' = link_latency st /\
    peer_tables st' = peer_tables st /\
    forwarding_table st' = forwarding_table st /\
    removedHosts st' = removedHosts st /\
    trickledHosts st' = trickledHosts st /\
    Forall (advert st) out.
Proof.
  destruct (send_routes_shape st force) as (w & o2 & _ & Qo & E).
  destruct (settle_frame st force w) as (F1 & F2 & F3 & F4 & F5 & F6 & _).
  eexists _, _. split; [exact E|]. repeat (split; [assumption|]).
  apply Forall_app. split.
  - apply Forall_forall. intros [pkt port] I.
    apply route_sweep_out in I. destruct I as (k & it & c & Ip & A & ->).
    apply route_pairs_In in Ip. destruct Ip as [Ip If].
    split; [exact Ip|]. exists k, c. split; [reflexivity|].
    apply adv_cost_cases in A. destruct A as [->|[-> N]]; [now left|].
    right. exists it. auto.
  - eapply Forall_impl; [|exact Qo].
    intros x (host & port & -> & _ & Ip). split; [exact Ip|].
    exists host, INFINITY. split; [reflexivity | now left].
Qed.

(** X9.  [send_routes] never raises, whatever the state and the [force]
    flag.  It leaves the poison mode, the link latencies, the peer tables,
    the forwarding table, [removedHosts] and [trickledHosts] as they were.
    Every packet it sends is a route packet on an active port whose cost is
    INFINITY or the latency of a forwarding-table entry for that destination
    that leaves by another port. *)
Theorem send_routes_total (st : Router) (force : bool) :
  exists st' out,
    send_routes st force = Next st' out /\
    POISON_MODE st' = POISON_MODE st /\
    link_latency st' = link_latency st /\
    peer_tables st' = peer_tables st /\
    forwarding_table st' = forwarding_table st /\
    removedHosts st' = removedHosts st /\
    trickledHosts st' = trickledHosts st /\
    Forall (advert st) out.
Proof. exact (send_routes_frame st force). Qed.

Lemma flat_map_ext_in {A B} (f g : A -> list B) l :
  (forall a, In a l -> f a = g a) -> flat_map f l = flat_map g l.
Proof.
  induction l as [|a r IH]; intros E; simpl; [reflexivity|].
  rewrite (E a) by now left. f_equal. apply IH. intros x I. apply E.
  now right.
Qed.

Lemma route_pairs_keys ports (fwd : ForwardingTable) :
  NoDup ports -> Dict.wf fwd ->
  NoDup (map (fun p : Port * (Host * ForwardingTableEntry) =>
                (fst p, fst (snd p))) (route_pairs ports fwd)).
Proof.
  intros Np Wf. induction Np as [|p r Hn Hr IH]; [constructor|].
  change (route_pairs (p :: r) fwd)
    with (map (pair p) fwd ++ route_pairs r fwd).
  rewrite map_app. apply NoDup_app.
  - rewrite map_map. cbn [fst snd].
    unfold Dict.wf, Dict.keys in Wf. clear -Wf.
    induction fwd as [|[k e] f IHf]; [constructor|].
    inversion Wf as [|? ? N ND]; subst. simpl. constructor; [|auto].
    intros I. apply in_map_iff in I. destruct I as ([k' e'] & [= <-] & I).
    apply N. change k' with (fst (k', e')). now apply in_map.
  - exact IH.
  - intros [q k] I1 I2. apply in_map_iff in I1, I2.
    destruct I1 as (x & E1 & I1), I2 as ([q' [k' e']] & E2 & I2).
    apply in_map_iff in I1. destruct I1 as (ke & <- & _).
    apply route_pairs_In in I2. simpl in E1, E2.
    inversion E1; subst. inversion E2; subst. tauto.
Qed.

(** The unforced first pass decides on each pair by the history of the
    start of the pass: what it records on the way concerns other pairs. *)
Lemma route_sweep_due poison ps :
  forall h,
    NoDup (map (fun p : Port * (Host * ForwardingTableEntry) =>
                  (fst p, fst (snd p))) ps) ->
    snd (sweep (route_step poison false) ps h) = flat_map (due poison h) ps.
Proof.
  induction ps as [|[p [k it]] r IH]; intros h N; [reflexivity|].
  cbn [map fst snd] in N. inversion N as [|? ? Hn Hr]; subst.
  cbn [sweep flat_map].
  destruct (route_step poison false (p, (k, it)) h) as [h' o] eqn:E.
  specialize (IH h' Hr). destruct (sweep _ r h') as [h'' o'].
  cbn [snd] in *. subst o'.
  assert (Eo : o = due poison h (p, (k, it)) /\
               forall q k' c,
                 (q, k') <> (p, k) -> stale h' q k' c = stale h q k' c).
  { unfold route_step, due in *. cbn [fst snd orb] in *.
    destruct (adv_cost poison p it) as [c|].
    - destruct (stale h p k c); inversion E; subst; split; auto.
      intros q k' c' Ne. apply stale_set_other. congruence.
    - inversion E; subst. auto. }
  destruct Eo as [-> St]. f_equal. apply flat_map_ext_in.
  intros [q [k' it']] I. unfold due. cbn [fst snd].
  destruct (adv_cost poison q it') as [c|]; [|reflexivity].
  rewrite St; [reflexivity|].
  intros [= -> ->]. apply Hn.
  change (p, k) with ((fun x : Port * (Host * ForwardingTableEntry) =>
                         (fst x, fst (snd x))) (p, (k, it'))).
  now apply in_map.
Qed.

(** X10.  An unforced [send_routes] in a router with one entry per port
    and per destination first sends exactly the advertisements that the
    history at the start of the call does not record: for every active port
    and forwarding-table entry, in iteration order, the due cost if the
    history has no entry for (port, destination) or one with another
    cost.  What follows are withdrawals, and none outside poison mode. *)
Theorem send_routes_sends_unrecorded (st : Router) :
  Dict.wf (peer_tables st) -> Dict.wf (forwarding_table st) ->
  exists st' w,
    send_routes st false = Next st' (unrecorded st ++ w) /\
    Forall (withdrawal (removedHosts st) (Dict.keys (peer_tables st))) w /\
    (POISON_MODE st = false -> w = []).
Proof.
  intros Wp Wf.
  destruct (send_routes_shape st false) as (w & o2 & C & Qo & E).
  exists (settle st false w), o2. split; [|split; [exact Qo|]].
  - rewrite E. f_equal. f_equal. unfold unrecorded.
    apply route_sweep_due. now apply route_pairs_keys.
  - intros Pm. rewrite Pm in C. now destruct C as [_ ->].
Qed.

Lemma send_routes_sends_unrecorded_witness :
  exists st' w,
    send_routes (ex_routes false) false
    = Next st' (unrecorded (ex_routes false) ++ w) /\
    Forall (withdrawal (removedHosts (ex_routes false))
              (Dict.keys (peer_tables (ex_routes false)))) w /\
    (POISON_MODE (ex_routes false) = false -> w = []).
Proof.
  apply (send_routes_sends_unrecorded (ex_routes false)).
  - apply nodupb_sound. reflexivity.
  - apply nodupb_sound. reflexivity.
Defined.

(** ** [handle_link_up], further *)

Lemma link_up_loop (port : Port) (fwd : ForwardingTable) items :
  forall h : History,
    (forall k e, In (k, e) items -> Dict.get k fwd = Some e) ->
    for_each
      (fun key h =>
         match Dict.get key fwd with
         | None => Exc AttributeError h []
         | Some e =>
             Next (Dict.set (port, key) (FTE key port (fte_latency e)) h)
                  [(RoutePacket key (fte_latency e), port)]
         end)
      (map fst items) h
    = Next (dumped port items h) (dump port items).
Proof.
  induction items as [|[k e] r IH]; intros h G; [reflexivity|].
  cbn [map fst for_each]. rewrite (G k e) by now left.
  rewrite IH by (intros k' e' I; apply G; now right).
  reflexivity.
Qed.

Lemma dumped_other (port : Port) items :
  forall (h : History) q k,
    q <> port \/ ~ In k (map fst items) ->
    Dict.get (q, k) (dumped port items h) = Dict.get (q, k) h.
Proof.
  induction items as [|[k0 e0] r IH]; intros h q k N; [reflexivity|].
  change (dumped port ((k0, e0) :: r) h)
    with (dumped port r
            (Dict.set (port, k0) (FTE k0 port (fte_latency e0)) h)).
  rewrite IH.
  - apply get_set_other. intros [= -> ->].
    destruct N as [N|N]; [now apply N | apply N; now left].
  - destruct N as [N|N]; [now left | right].
    intros I. apply N. now right.
Qed.

Lemma dumped_in (port : Port) items :
  forall (h : History) k e,
    NoDup (map fst items) -> In (k, e) items ->
    Dict.get (port, k) (dumped port items h)
    = Some (FTE k port (fte_latency e)).
Proof.
  induction items as [|[k0 e0] r IH]; intros h k e N I; [destruct I|].
  cbn [map fst] in N. inversion N as [|? ? Hn Hr]; subst.
  change (dumped port ((k0, e0) :: r) h)
    with (dumped port r
            (Dict.set (port, k0) (FTE k0 port (fte_latency e0)) h)).
  destruct I as [[= -> ->]|I].
  - rewrite dumped_other by now right. apply get_set_same.
  - now apply IH.
Qed.

(** X11.  [handle_link_up] on a router with one forwarding-table entry
    per destination never raises.  It records the link latency, gives the
    port an empty peer table and leaves the forwarding table as it was.  It
    sends the whole forwarding table on the new port, one packet per entry
    in table order at the entry's real cost, also for entries that leave by
    this very port, and records each in the history under (port,
    destination); the history of other ports is unchanged. *)
Theorem handle_link_up_dumps (st : Router) (port : Port) (latency : Z) :
  Dict.wf (forwarding_table st) ->
  exists st',
    handle_link_up st port latency
    = Next st' (dump port (forwarding_table st)) /\
    link_latency st' = Dict.set port latency (link_latency st) /\
    peer_tables st' = Dict.set port [] (peer_tables st) /\
    forwarding_table st' = forwarding_table st /\
    POISON_MODE st' = POISON_MODE st /\
    removedHosts st' = removedHosts st /\
    poisonedHosts st' = poisonedHosts st /\
    (forall k e,
        In (k, e) (forwarding_table st) ->
        Dict.get (port, k) (history st')
        = Some (FTE k port (fte_latency e))) /\
    (forall q k,
        q <> port \/ Dict.has k (forwarding_table st) = false ->
        Dict.get (q, k) (history st') = Dict.get (q, k) (history st)).
Proof.
  intros Wf. unfold handle_link_up.
  cbn [forwarding_table history with_peer_tables with_link_latency
       link_latency peer_tables].
  unfold Dict.keys.
  rewrite (link_up_loop port (forwarding_table st) (forwarding_table st))
    by (intros k e I; now apply get_In).
  cbn [lift]. eexists. split; [reflexivity|].
  destruct st as [poison links peers fwd h removed empty poisoned keys rfp
                    trickled].
  cbn [with_history with_peer_tables with_link_latency link_latency
       peer_tables forwarding_table POISON_MODE removedHosts poisonedHosts
       history] in *.
  repeat (split; [reflexivity|]). split.
  - intros k e I. now apply dumped_in.
  - intros q k N. apply dumped_other.
    destruct N as [N|N]; [now left | right].
    apply has_false, get_None_keys in N. exact N.
Qed.

Lemma handle_link_up_dumps_witness :
  exists st',
    handle_link_up ex_static 3 2
    = Next st' (dump 3 (forwarding_table ex_static)) /\
    link_latency st' = Dict.set 3 2 (link_latency ex_static) /\
    peer_tables st' = Dict.set 3 [] (peer_tables ex_static) /\
    forwarding_table st' = forwarding_table ex_static /\
    POISON_MODE st' = POISON_MODE ex_static /\
    removedHosts st' = removedHosts ex_static /\
    poisonedHosts st' = poisonedHosts ex_static /\
    (forall k e,
        In (k, e) (forwarding_table ex_static) ->
        Dict.get (3, k) (history st')
        = Some (FTE k 3 (fte_latency e))) /\
    (forall q k,
        q <> 3 \/ Dict.has k (forwarding_table ex_static) = false ->
        Dict.get (q, k) (history st') = Dict.get (q, k) (history ex_static)).
Proof.
  apply (handle_link_up_dumps ex_static 3 2).
  apply nodupb_sound. reflexivity.
Defined.

(** ** Retiring poisoned hosts *)

Lemma remove_first_mid {K} `{EqKey K} (x : K) kept rest :
  ~ In x kept -> remove_first x (kept ++ x :: rest) = kept ++ rest.
Proof.
  induction kept as [|y r IH]; intros N; cbn [app remove_first].
  - now rewrite keq_refl.
  - destruct (keq_spec x y) as [->|Ne]; [exfalso; apply N; now left|].
    f_equal. apply IH. intros I. apply N. now right.
Qed.

Lemma nth_error_mid {A} (kept : list A) x rest :
  nth_error (kept ++ x :: rest) (List.length kept) = Some x.
Proof. induction kept; simpl; auto. Qed.

Lemma nth_error_end {A} (kept : list A) :
  nth_error kept (List.length kept) = None.
Proof. induction kept; simpl; auto. Qed.

(** The loop removes the element under its index and then moves the index
    on, so the element that slid into the freed position is skipped. *)
Lemma retire_skips removed fuel :
  forall rest kept rfp,
    NoDup (kept ++ rest) ->
    (forall x, In x rest -> elem x removed = true) ->
    (List.length rest <= fuel)%nat ->
    retire fuel removed (List.length kept) (kept ++ rest) rfp
    = (kept ++ odds rest, rfp ++ evens rest).
Proof.
  induction fuel as [|f IH]; intros rest kept rfp N R L.
  - destruct rest; [|simpl in L; lia]. simpl. now rewrite !app_nil_r.
  - destruct rest as [|x rest1].
    + cbn [retire]. rewrite app_nil_r, nth_error_end. simpl.
      now rewrite !app_nil_r.
    + cbn [retire]. rewrite nth_error_mid, (R x) by now left.
      rewrite remove_first_mid.
      2:{ apply NoDup_remove_2 in N. intros I. apply N.
          apply in_app_iff. now left. }
      destruct rest1 as [|y rest2].
      * cbn [odds evens]. rewrite !app_nil_r.
        destruct f; cbn [retire]; [reflexivity|].
        assert (E : nth_error kept (S (List.length kept)) = None).
        { apply nth_error_None. lia. }
        now rewrite E.
      * replace (S (List.length kept)) with (List.length (kept ++ [y]))
          by (rewrite length_app; simpl; lia).
        replace (kept ++ y :: rest2) with ((kept ++ [y]) ++ rest2)
          by (now rewrite <- app_assoc).
        rewrite IH.
        -- cbn [odds evens]. now rewrite <- !app_assoc.
        -- rewrite <- app_assoc. cbn [app].
           apply NoDup_remove_1 in N. exact N.
        -- intros z I. apply R. now right; right.
        -- simpl in L. lia.
Qed.

(** X12.  The loop of an unforced [send_routes] in poison mode that moves
    the withdrawn hosts from [poisonedHosts] to [removedFromPoisonedHosts]
    deletes from the list it iterates over.  When the list has no repeated
    pair and each pair is in [removedHosts], one call moves only the pairs
    at positions 0, 2, 4, ... and leaves those at positions 1, 3, 5, ... in
    [poisonedHosts]. *)
Theorem send_routes_retires_alternately (st : Router) :
  POISON_MODE st = true ->
  NoDup (poisonedHosts st) ->
  incl (poisonedHosts st) (removedHosts st) ->
  exists st' out,
    send_routes st false = Next st' out /\
    poisonedHosts st' = odds (poisonedHosts st) /\
    removedFromPoisonedHosts st'
    = removedFromPoisonedHosts st ++ evens (poisonedHosts st).
Proof.
  intros Pm N I.
  destruct (send_routes_shape st false) as (w & o2 & _ & _ & E).
  eexists _, _. split; [exact E|].
  unfold settle.
  cbn [POISON_MODE with_emptyFwdTableList with_history poisonedHosts
       removedHosts removedFromPoisonedHosts].
  destruct st as [poison links peers fwd h removed empty poisoned keys rfp
                    trickled].
  cbn [POISON_MODE with_emptyFwdTableList with_history poisonedHosts
       removedHosts removedFromPoisonedHosts] in *.
  subst poison. cbn [andb negb].
  pose proof (retire_skips removed (List.length poisoned) poisoned [] rfp)
    as Rt.
  cbn [app List.length] in Rt. rewrite Rt; [split; reflexivity|exact N| |lia].
  intros x Ix. apply elem_In. now apply I.
Qed.

Lemma send_routes_retires_alternately_witness :
  exists st' out,
    send_routes
      (with_poisonedHosts [("B"%string, 1); ("C"%string, 3)] ex_reroute)
      false
    = Next st' out /\
    poisonedHosts st'
    = odds (poisonedHosts
              (with_poisonedHosts [("B"%string, 1); ("C"%string, 3)]
                 ex_reroute)) /\
    removedFromPoisonedHosts st'
    = removedFromPoisonedHosts
        (with_poisonedHosts [("B"%string, 1); ("C"%string, 3)] ex_reroute)
      ++ evens (poisonedHosts
                  (with_poisonedHosts [("B"%string, 1); ("C"%string, 3)]
                     ex_reroute)).
Proof.
  apply (send_routes_retires_alternately
           (with_poisonedHosts [("B"%string, 1); ("C"%string, 3)]
              ex_reroute)).
  - reflexivity.
  - apply nodupb_sound. reflexivity.
  - intros x I. exact I.
Defined.

(** ** Learning a route *)

(** What [handle_route_advertisement] and [add_static_route] share once the
    port is known to be active: store the entry, recompute, advertise. *)
Lemma store_recompute_send st port host pte t l :
  links_wf st ->
  Dict.get port (peer_tables st) = Some t ->
  Dict.get port (link_latency st) = Some l ->
  exists st' out e,
    seq (store_entry st port host pte)
      (fun st => seq (update_forwarding_table st)
                   (fun st => send_routes st false))
    = Next st' out /\
    peer_tables st'
    = Dict.set port (Dict.set host pte t) (peer_tables st) /\
    link_latency st' = link_latency st /\
    forwarding_table st' = recomputed st' /\
    Dict.get host (forwarding_table st') = Some e /\
    fte_latency e <= Z.min (l + pte_latency pte) INFINITY /\
    (fte_port e = port ->
     fte_latency e = Z.min (l + pte_latency pte) INFINITY) /\
    Forall (advert st') out.
Proof.
  intros [W L] G Gl. unfold store_entry. rewrite G. cbn [seq emit].
  set (st1 := with_peer_tables _ st).
  assert (W1 : tables_wf (peer_tables st1)) by now apply store_entry_wf.
  assert (L1 : links_cover (link_latency st1) (peer_tables st1)).
  { intros P I. apply L. unfold st1 in I.
    cbn [peer_tables with_peer_tables] in I.
    rewrite keys_set_present in I; auto. unfold Dict.has. now rewrite G. }
  rewrite (update_forwarding_table_fold st1 W1 L1). cbn [seq emit].
  fold (recomputed st1).
  set (st2 := with_forwarding_table _ st1).
  assert (G1 : Dict.get port (peer_tables st1)
               = Some (Dict.set host pte t)).
  { unfold st1. cbn [peer_tables with_peer_tables]. apply get_set_same. }
  assert (Gl1 : Dict.get port (link_latency st1) = Some l) by exact Gl.
  destruct (recomputed_bound st1 port (Dict.set host pte t) host pte l
              (conj W1 L1) G1 (get_set_same host pte t) Gl1)
    as (e & Ge & Le).
  destruct (send_routes_frame st2 false)
    as (st' & out & -> & _ & Fl & Fp & Ff & _ & _ & Fo).
  exists st', out, e. cbn [emit app].
  assert (Er : recomputed st' = recomputed st1)
    by (apply recomputed_same; [rewrite Fl | rewrite Fp]; reflexivity).
  split; [reflexivity|]. split; [exact Fp|]. split; [exact Fl|].
  split; [now rewrite Ff, Er|]. split; [now rewrite Ff|].
  split; [exact Le|]. split.
  - intros Ep.
    destruct (merged_entry st1 host e W1 L1 (get_Some_In _ _ _ Ge))
      as (t' & pe' & l' & Gt' & Gp' & Gl' & ->).
    rewrite Ep in Gt', Gl'. rewrite G1 in Gt'. inversion Gt'; subst t'.
    rewrite get_set_same in Gp'. inversion Gp'; subst pe'.
    rewrite Gl1 in Gl'. now inversion Gl'.
  - eapply Forall_impl; [|exact Fo].
    intros x (Ip & D & c & Ex & Hc). split; [now rewrite Fp|].
    exists D, c. split; [exact Ex|]. now rewrite Ff.
Qed.

(** X13.  [handle_route_advertisement] for [dst] on an active port of a
    well-formed router replaces that port's entry for [dst] and leaves the
    other peer-table entries and the link latencies alone.  Afterwards the
    forwarding table is the one recomputed from the new peer tables; it
    holds a route to [dst] that costs at most the link latency plus the
    advertised latency, capped at INFINITY, and exactly that when it leaves
    by the advertising port.  Every packet sent is an advertisement of the
    new forwarding table. *)
Theorem handle_route_advertisement_learns (st : Router) (now : Z)
  (dst : Host) (port : Port) (route_latency : Z) (t : PeerTable) (l : Z) :
  links_wf st ->
  Dict.get port (peer_tables st) = Some t ->
  Dict.get port (link_latency st) = Some l ->
  exists st' out e,
    handle_route_advertisement st now dst port route_latency
    = Next st' out /\
    peer_tables st'
    = Dict.set port
        (Dict.set dst (PTE dst route_latency (At (now + ROUTE_TTL))) t)
        (peer_tables st) /\
    link_latency st' = link_latency st /\
    forwarding_table st' = recomputed st' /\
    Dict.get dst (forwarding_table st') = Some e /\
    fte_latency e <= Z.min (l + route_latency) INFINITY /\
    (fte_port e = port ->
     fte_latency e = Z.min (l + route_latency) INFINITY) /\
    Forall (advert st') out.
Proof.
  intros H G Gl. unfold handle_route_advertisement.
  exact (store_recompute_send st port dst
           (PTE dst route_latency (At (now + ROUTE_TTL))) t l H G Gl).
Qed.

Lemma handle_route_advertisement_learns_witness :
  exists st' out e,
    handle_route_advertisement ex_static 3 "B"%string 1 1 = Next st' out /\
    peer_tables st'
    = Dict.set 1
        (Dict.set "B"%string (PTE "B"%string 1 (At (3 + ROUTE_TTL)))
           [("A"%string, PTE "A"%string 0 FOREVER)])
        (peer_tables ex_static) /\
    link_latency st' = link_latency ex_static /\
    forwarding_table st' = recomputed st' /\
    Dict.get "B"%string (forwarding_table st') = Some e /\
    fte_latency e <= Z.min (1 + 1) INFINITY /\
    (fte_port e = 1 -> fte_latency e = Z.min (1 + 1) INFINITY) /\
    Forall (advert st') out.
Proof.
  apply (handle_route_advertisement_learns ex_static 3 "B"%string 1 1
           [("A"%string, PTE "A"%string 0 FOREVER)] 1).
  - split; [apply tables_wfb_sound | apply links_coverb_sound]; reflexivity.
  - reflexivity.
  - reflexivity.
Defined.

(** X14.  [add_static_route] raises [AssertionError], leaving the router
    as it was and sending nothing, when the port is not active.  On an
    active port of a well-formed router it stores the host in that port's
    peer table with latency 0 and no expiry; afterwards the forwarding
    table is the recomputed one and holds a route to the host that costs at
    most the link latency capped at INFINITY, and exactly that when it
    leaves by this port. *)
Theorem add_static_route_attaches (st : Router) (host : Host)
  (port : Port) :
  links_wf st ->
  (Dict.has port (peer_tables st) = false ->
   add_static_route st host port = Exc AssertionError st []) /\
  (forall t l,
      Dict.get port (peer_tables st) = Some t ->
      Dict.get port (link_latency st) = Some l ->
      exists st' out e,
        add_static_route st host port = Next st' out /\
        peer_tables st'
        = Dict.set port (Dict.set host (PTE host 0 FOREVER) t)
            (peer_tables st) /\
        link_latency st' = link_latency st /\
        forwarding_table st' = recomputed st' /\
        Dict.get host (forwarding_table st') = Some e /\
        fte_latency e <= Z.min l INFINITY /\
        (fte_port e = port -> fte_latency e = Z.min l INFINITY) /\
        Forall (advert st') out).
Proof.
  intros H. unfold add_static_route. split.
  - intros ->. reflexivity.
  - intros t l G Gl. unfold Dict.has. rewrite G. cbn [negb].
    destruct (store_recompute_send st port host (PTE host 0 FOREVER) t l
                H G Gl)
      as (st' & out & e & E & X).
    exists st', out, e. split; [exact E|].
    cbn [pte_latency] in X. now rewrite Z.add_0_r in X.
Qed.

Lemma add_static_route_attaches_witness :
  exists st' out e,
    add_static_route ex_up "A"%string 1 = Next st' out /\
    peer_tables st'
    = Dict.set 1 (Dict.set "A"%string (PTE "A"%string 0 FOREVER) [])
        (peer_tables ex_up) /\
    link_latency st' = link_latency ex_up /\
    forwarding_table st' = recomputed st' /\
    Dict.get "A"%string (forwarding_table st') = Some e /\
    fte_latency e <= Z.min 1 INFINITY /\
    (fte_port e = 1 -> fte_latency e = Z.min 1 INFINITY) /\
    Forall (advert st') out.
Proof.
  apply (proj2 (add_static_route_attaches ex_up "A"%string 1
                  (conj (tables_wfb_sound (peer_tables ex_up) eq_refl)
                        (links_coverb_sound (link_latency ex_up)
                           (peer_tables ex_up) eq_refl)))
           [] 1); reflexivity.
Defined.

(** ** [handle_link_down], further *)

Lemma handle_link_down_shape (st : Router) (P : Port) :
  router_wf st ->
  exists st' out,
    handle_link_down st P = Next st' out /\
    peer_tables st'
    = filter (fun kv : Port * PeerTable => negb (keq P (fst kv)))
        (peer_tables st) /\
    link_latency st' = link_latency st /\
    forwarding_table st' = recomputed st' /\
    (forall D e, In (D, e) (forwarding_table st') -> fte_port e <> P) /\
    removedHosts st'
    = removedHosts st
      ++ unrouted P (forwarding_table st) (removedHosts st)
           (Dict.keys (forwarding_table st)) /\
    Forall (fun x => snd x <> P /\ advert st' x) out.
Proof.
  intros ((W & L) & Wf & Kf). unfold handle_link_down.
  assert (Hf : forall k,
             In k (Dict.keys (forwarding_table st)) ->
             exists e0, Dict.get k (forwarding_table st) = Some e0 /\
                        Dict.get k (forwarding_table st) = Some e0 /\
                        fte_dst e0 = k).
  { intros k I. apply in_map_iff in I. destruct I as ([k' e'] & <- & I).
    exists e'. simpl. repeat split; auto; now apply get_In. }
  destruct (unroute_loop P (forwarding_table st) (removedHosts st)
              (Dict.keys (forwarding_table st)) Wf st Hf
              (fun k _ => eq_refl))
    as (s & -> & _ & F1l & F1t & _ & _ & _ & _ & F1r & _).
  cbn [seq]. rewrite emit_nil.
  set (s2 := if elem P (Dict.keys (peer_tables s)) then _ else s).
  assert (E : peer_tables s2
              = filter (fun kv : Port * PeerTable =>
                          negb (keq P (fst kv))) (peer_tables st)
              /\ link_latency s2 = link_latency st
              /\ removedHosts s2 = removedHosts s).
  { rewrite <- unplug_filter by apply W. rewrite <- F1t, <- F1l.
    unfold s2.
    destruct (elem P (Dict.keys (peer_tables s)));
      [destruct (Dict.del P (peer_tables s))|]; repeat split; reflexivity. }
  destruct E as (Ep & El & Er). clearbody s2.
  destruct (purge_history_spec (removedHosts s2) (history s2))
    as (h1 & -> & _).
  cbn [lift seq]. rewrite emit_nil.
  set (s3 := with_history h1 s2).
  assert (Ep3 : peer_tables s3 = peer_tables s2) by reflexivity.
  assert (El3 : link_latency s3 = link_latency s2) by reflexivity.
  assert (Er3 : removedHosts s3 = removedHosts s2) by reflexivity.
  assert (W3 : tables_wf (peer_tables s3))
    by (rewrite Ep3, Ep; now apply unplug_wf).
  assert (L3 : links_cover (link_latency s3) (peer_tables s3))
    by (rewrite Ep3, El3, Ep, El; now apply unplug_cover).
  clearbody s3.
  rewrite (update_forwarding_table_fold s3 W3 L3). cbn [seq emit].
  fold (recomputed s3).
  set (s4 := with_forwarding_table _ s3).
  destruct (send_routes_frame s4 false)
    as (st' & out & -> & _ & Fl & Fp & Ff & Fr & _ & Fo).
  exists st', out. cbn [emit app].
  assert (Ep4 : peer_tables s4 = peer_tables s3) by reflexivity.
  assert (El4 : link_latency s4 = link_latency s3) by reflexivity.
  assert (Er4 : removedHosts s4 = removedHosts s3) by reflexivity.
  assert (Ef4 : forwarding_table s4 = recomputed s3) by reflexivity.
  clearbody s4.
  assert (Np : forall Q, In Q (Dict.keys (peer_tables st')) -> Q <> P).
  { intros Q I. rewrite Fp, Ep4, Ep3, Ep, keys_filter in I.
    apply filter_In in I. destruct I as [_ I].
    apply negb_true_iff, keq_neq in I. congruence. }
  split; [reflexivity|]. split; [congruence|]. split; [congruence|].
  split.
  { rewrite Ff, Ef4. apply recomputed_same; congruence. }
  split.
  { intros D e I. rewrite Ff, Ef4 in I.
    destruct (merged_entry s3 D e W3 L3 I) as (t & _ & _ & Gt & _).
    apply Np. rewrite Fp, Ep4. apply has_true. unfold Dict.has.
    now rewrite Gt. }
  split; [congruence|].
  eapply Forall_impl; [|exact Fo].
  intros x (Ip & D & c & Ex & Hc).
  assert (Ip' : In (snd x) (Dict.keys (peer_tables st')))
    by now rewrite Fp.
  split; [now apply Np|]. split; [exact Ip'|].
  exists D, c. split; [exact Ex|]. now rewrite Ff.
Qed.

(** X15.  [handle_link_down] in a well-formed router never raises.  It
    removes the port's peer table and keeps the others, in order; the link
    latency of the port stays recorded.  Afterwards the forwarding table is
    the one recomputed from the remaining peer tables, so no route leaves
    by the port that went down, and [removedHosts] has grown by the
    destinations that were routed through it and were not listed yet.
    Nothing is sent on that port: every packet is an advertisement of the
    new forwarding table on a remaining port. *)
Theorem handle_link_down_unplugs (st : Router) (P : Port) :
  router_wf st ->
  exists st' out,
    handle_link_down st P = Next st' out /\
    peer_tables st'
    = filter (fun kv : Port * PeerTable => negb (keq P (fst kv)))
        (peer_tables st) /\
    link_latency st' = link_latency st /\
    forwarding_table st' = recomputed st' /\
    (forall D e, In (D, e) (forwarding_table st') -> fte_port e <> P) /\
    removedHosts st'
    = removedHosts st
      ++ unrouted P (forwarding_table st) (removedHosts st)
           (Dict.keys (forwarding_table st)) /\
    Forall (fun x => snd x <> P /\ advert st' x) out.
Proof. exact (handle_link_down_shape st P). Qed.

Lemma handle_link_down_unplugs_witness :
  exists st' out,
    handle_link_down ex_static 2 = Next st' out /\
    peer_tables st'
    = filter (fun kv : Port * PeerTable => negb (keq 2 (fst kv)))
        (peer_tables ex_static) /\
    link_latency st' = link_latency ex_static /\
    forwarding_table st' = recomputed st' /\
    (forall D e, In (D, e) (forwarding_table st') -> fte_port e <> 2) /\
    removedHosts st'
    = removedHosts ex_static
      ++ unrouted 2 (forwarding_table ex_static) (removedHosts ex_static)
           (Dict.keys (forwarding_table ex_static)) /\
    Forall (fun x => snd x <> 2 /\ advert st' x) out.
Proof.
  apply (handle_link_down_unplugs ex_static 2).
  apply router_wfb_sound; reflexivity.
Defined.

(** ** Packets leave by active ports only *)

Lemma advert_active st x :
  advert st x -> Dict.has (snd x) (peer_tables st) = true.
Proof. intros [I _]. now apply has_true. Qed.

Lemma handle_link_up_sends st port latency :
  Dict.wf (forwarding_table st) ->
  exists h,
    handle_link_up st port latency
    = Next (with_history h
              (with_peer_tables (Dict.set port [] (peer_tables st))
                 (with_link_latency
                    (Dict.set port latency (link_latency st)) st)))
        (dump port (forwarding_table st)).
Proof.
  intros Wf. unfold handle_link_up.
  cbn [forwarding_table history with_peer_tables with_link_latency
       link_latency peer_tables].
  unfold Dict.keys.
  rewrite (link_up_loop port (forwarding_table st) (forwarding_table st))
    by (intros k e I; now apply get_In).
  cbn [lift]. eexists. reflexivity.
Qed.

Lemma handle_sends_active st ev st' out :
  router_ok st -> handle st ev = Next st' out ->
  Forall (fun x : Send => Dict.has (snd x) (peer_tables st') = true) out.
Proof.
  intros (Wf & Ra & Fc) E. unfold handle in E.
  pose proof Wf as ((W & L) & Wfw & Kf).
  destruct ev as [port latency|port|host port|now dst port l|now
                  |packet in_port].
  - destruct (handle_link_up_sends st port latency Wfw) as (h & Eh).
    rewrite Eh in E. cbn [call] in E. inversion E; subst st' out.
    cbn [peer_tables with_history with_peer_tables].
    apply Forall_forall. intros x I. apply in_map_iff in I.
    destruct I as (ke & <- & _). cbn [snd]. unfold Dict.has.
    now rewrite get_set_same.
  - destruct (handle_link_down_shape st port Wf)
      as (s & o & Es & _ & _ & _ & _ & _ & Fo).
    rewrite Es in E. cbn [call] in E. inversion E; subst st' out.
    eapply Forall_impl; [|exact Fo].
    intros x [_ A]. now apply advert_active.
  - unfold add_static_route in E.
    destruct (Dict.has port (peer_tables st)) eqn:Hp;
      [|discriminate E]. cbn [negb] in E.
    unfold Dict.has in Hp.
    destruct (Dict.get port (peer_tables st)) as [t|] eqn:G;
      [|discriminate Hp].
    assert (Il : Dict.has port (link_latency st) = true).
    { apply L. change port with (fst (port, t)). apply in_map.
      now apply get_Some_In. }
    unfold Dict.has in Il.
    destruct (Dict.get port (link_latency st)) as [ll|] eqn:Gl;
      [|discriminate Il].
    destruct (store_recompute_send st port host (PTE host 0 FOREVER) t ll
                (conj W L) G Gl)
      as (s & o & e & Es & _ & _ & _ & _ & _ & _ & Fo).
    rewrite Es in E. cbn [call] in E. inversion E; subst st' out.
    eapply Forall_impl; [|exact Fo]. intros x. apply advert_active.
  - unfold handle_route_advertisement in E.
    destruct (Dict.get port (peer_tables st)) as [t|] eqn:G.
    2:{ unfold store_entry in E. rewrite G in E. discriminate E. }
    assert (Il : Dict.has port (link_latency st) = true).
    { apply L. change port with (fst (port, t)). apply in_map.
      now apply get_Some_In. }
    unfold Dict.has in Il.
    destruct (Dict.get port (link_latency st)) as [ll|] eqn:Gl;
      [|discriminate Il].
    destruct (store_recompute_send st port dst
                (PTE dst l (At (now + ROUTE_TTL))) t ll (conj W L) G Gl)
      as (s & o & e & Es & _ & _ & _ & _ & _ & _ & Fo).
    rewrite Es in E. cbn [call] in E. inversion E; subst st' out.
    eapply Forall_impl; [|exact Fo]. intros x. apply advert_active.
  - unfold handle_timer in E.
    destruct (expire_routes_spec st now Wf Fc) as (s1 & E1 & _).
    rewrite E1 in E. cbn [seq] in E. rewrite emit_nil in E.
    destruct (send_routes_frame s1 true)
      as (s & o & Es & _ & _ & Fp & _ & _ & _ & Fo).
    rewrite Es in E. cbn [call] in E. inversion E; subst st' out.
    eapply Forall_impl; [|exact Fo].
    intros x A. rewrite Fp. now apply advert_active.
  - unfold handle_data_packet in E.
    destruct (Dict.get (dst packet) (forwarding_table st)) as [e|] eqn:G.
    2:{ cbn [call] in E. inversion E. constructor. }
    destruct (INFINITY <=? fte_latency e).
    { cbn [call] in E. inversion E. constructor. }
    destruct (fte_port e =? in_port).
    { cbn [call] in E. inversion E. constructor. }
    cbn [call] in E. inversion E; subst st' out.
    constructor; [|constructor]. cbn [snd].
    apply (Ra (dst packet) e). now apply get_Some_In.
Qed.

(** X16.  A router that has handled events from a fresh start never sends
    on a port that is down: whatever the next event, every packet its
    handler sends, route advertisement or data packet, leaves by a port
    that has a peer table once the handler is done. *)
Theorem sends_on_active_ports (poison : bool) (evs : list Event)
  (st : Router) (ev : Event) (st' : Router) (out : list Send) :
  run (init poison) evs = Some st ->
  handle st ev = Next st' out ->
  Forall (fun x : Send => Dict.has (snd x) (peer_tables st') = true) out.
Proof.
  intros R. apply handle_sends_active.
  exact (run_router_ok evs _ _ (init_ok poison) R).
Qed.

Lemma sends_on_active_ports_witness :
  Forall (fun x : Send =>
            Dict.has (snd x)
              (peer_tables (state_of (handle ex_three (LinkDown 1)))) = true)
    (output (handle ex_three (LinkDown 1))).
Proof.
  exact (sends_on_active_ports true
           [LinkUp 1 1; LinkUp 2 5; LinkUp 3 2;
            Advertisement 0 "B"%string 1 2; Advertisement 0 "C"%string 2 1]
           ex_three (LinkDown 1)
           (state_of (handle ex_three (LinkDown 1)))
           (output (handle ex_three (LinkDown 1))) eq_refl eq_refl).
Defined.
